(** * PageRank: the crawler, the transition model, the sampling estimator,
      the iterative estimator and the main program of [pagerank.py]

    A shallow embedding of [crawl], [transition_model], [sample_pagerank],
    [iterate_pagerank] and [main], the properties of them that the
    specification states, and further properties of the code.

    Conventions of the embedding.
    - A Python [dict] is an insertion-ordered association list; item
      assignment overwrites in place or appends ([dict_set]), a failed
      lookup raises [KeyError] ([getitem]).  A list represents a dict when
      its keys are pairwise distinct ([uniq (keys d)]).
    - A Python [set] of pages is the list of its elements; [len] counts the
      distinct ones ([set_len]), [in] is list membership.
    - Python's floats are idealised as exact rationals ([rat]); the
      literal [0.001] is [1/1000].  Division by zero raises
      [ZeroDivisionError] ([py_div]).
    - Exceptions are values of [result].
    - The random generator is an oracle [rnd : nat -> nat]: its [i]-th output
      is the raw number that the [i]-th call of [random.choice] or
      [random.choices] reduces to an index of the population, so that a
      statement for every [rnd] covers every run.
    - The unbounded [while True] loop takes a fuel argument; [None] means
      that the fuel ran out before the loop left.
    - The functions are embedded twice: on values (a corpus is the dict of
      its link sets), where the results are studied, and on a store of
      mutable dict and set objects ([Heap]), where what the functions
      write is studied; [store_programs_agree] relates the two.  In the
      store a reference that does not lead to an object of the expected
      kind raises [TypeError].
    - What [crawl] and [main] get from outside the program is a parameter:
      the listing of a directory, the contents of a file, the matches of
      the link pattern and the format of a number; a statement for every
      value of them covers every directory.  The standard output is the
      list of the lines printed. *)

From HB Require Import structures.
From mathcomp Require Import ssreflect ssrfun ssrbool eqtype ssrnat seq path div.
From mathcomp Require Import choice bigop order ssralg ssrnum ssrint rat.
From mathcomp Require Import archimedean.
From Stdlib Require Import String.
From Stdlib Require DecimalString.

Set Implicit Arguments.
Unset Strict Implicit.
Unset Printing Implicit Defensive.

Import Order.TTheory GRing.Theory Num.Theory.
Local Open Scope ring_scope.

(** ** Exceptions *)

Inductive exn := KeyError | ZeroDivisionError | IndexError | ValueError | TypeError.

Inductive result (A : Type) := Ok of A | Raise of exn.
Arguments Raise {A} e.

Definition bind {A B} (m : result A) (k : A -> result B) : result B :=
  match m with
  | Ok a => k a
  | Raise e => Raise e
  end.

Notation "'let!' x ':=' m 'in' k" := (bind m (fun x => k))
  (at level 200, x pattern, m at level 100, k at level 200,
   format "'[v' 'let!'  x  ':='  m  'in' '/' k ']'").

Definition exn_eqb (e1 e2 : exn) : bool :=
  match e1, e2 with
  | KeyError, KeyError | ZeroDivisionError, ZeroDivisionError
  | IndexError, IndexError | ValueError, ValueError | TypeError, TypeError => true
  | _, _ => false
  end.

Definition result_eqb (A : eqType) (r1 r2 : result A) : bool :=
  match r1, r2 with
  | Ok a1, Ok a2 => a1 == a2
  | Raise e1, Raise e2 => exn_eqb e1 e2
  | _, _ => false
  end.

(** [for x in xs: body], threading the loop's variables as a state. *)
Fixpoint for_ {X S} (xs : seq X) (body : X -> S -> result S) (s : S) : result S :=
  match xs with
  | [::] => Ok s
  | x :: xs' => let! s' := body x s in for_ xs' body s'
  end.

(** True division [x / y]. *)
Definition py_div (x y : rat) : result rat :=
  if y == 0 then Raise ZeroDivisionError else Ok (x / y).

(** ** Dictionaries *)

Section Dict.

Variables (K : eqType) (V : Type).

Definition dict := seq (K * V).

Definition keys (d : dict) : seq K := [seq kv.1 | kv <- d].
Definition values (d : dict) : seq V := [seq kv.2 | kv <- d].

Fixpoint dict_get (d : dict) (k : K) : option V :=
  match d with
  | [::] => None
  | (k', v) :: d' => if k' == k then Some v else dict_get d' k
  end.

(** [d[k]] *)
Definition getitem (d : dict) (k : K) : result V :=
  if dict_get d k is Some v then Ok v else Raise KeyError.

(** [d[k] = v] *)
Fixpoint dict_set (d : dict) (k : K) (v : V) : dict :=
  match d with
  | [::] => [:: (k, v)]
  | (k', v') :: d' => if k' == k then (k', v) :: d' else (k', v') :: dict_set d' k v
  end.

End Dict.

(** ** The programs *)

Section PageRank.

Variable page : eqType.

Definition pyset := seq page.
Definition set_len (s : pyset) : nat := size (undup s).

Definition corpus_t := dict page pyset.

(** [len(d)] as a number *)
Definition len {V} (d : dict page V) : rat := (size d)%:R.

(** *** [transition_model] (lines 51-78) *)

Definition transition_model (corpus : corpus_t) (p : page) (damping_factor : rat)
  : result (dict page rat) :=
  let! links := getitem corpus p in
  if set_len links == 0%N then
    let! prob := py_div 1 (len corpus) in
    for_ (keys corpus) (fun dest_page prob_dist =>
      Ok (dict_set prob_dist dest_page prob)) [::]
  else
    let! prob_no_link := py_div (1 - damping_factor) (len corpus) in
    let! links1 := getitem corpus p in
    let! q := py_div damping_factor (set_len links1)%:R in
    let prob_has_link := q + prob_no_link in
    for_ (keys corpus) (fun dest_page prob_dist =>
      let! links2 := getitem corpus p in
      if dest_page \in links2
      then Ok (dict_set prob_dist dest_page prob_has_link)
      else Ok (dict_set prob_dist dest_page prob_no_link)) [::].

(** *** The random generator *)

(** [random.choice(population)]: [IndexError] on an empty population,
    otherwise the element at an index below its length. *)
Definition random_choice {T} (population : seq T) (r : nat) : result T :=
  match population with
  | [::] => Raise IndexError
  | x0 :: _ => Ok (nth x0 population (r %% size population))
  end.

(** The last cumulative weight of [random.choices]. *)
Definition total_weight (weights : seq rat) : rat :=
  foldl (fun acc w => acc + w) 0 weights.

(** [random.choices(population, weights=weights)[0]]: [ValueError] when the
    weights do not match the population or do not have a positive total,
    otherwise the element at an index below the population's length. *)
Definition random_choices {T} (population : seq T) (weights : seq rat) (r : nat)
  : result T :=
  if size weights != size population then Raise ValueError else
  match population with
  | [::] => Raise IndexError
  | x0 :: _ =>
      if total_weight weights <= 0 then Raise ValueError
      else Ok (nth x0 population (r %% size population))
  end.

(** [range(n)] *)
Definition range (n : int) : seq nat :=
  match n with
  | Posz m => iota 0 m
  | Negz _ => [::]
  end.

(** *** [sample_pagerank] (lines 81-108) *)

Definition sample_init (corpus : corpus_t) : result (dict page rat) :=
  for_ (keys corpus) (fun p PR => Ok (dict_set PR p 0)) [::].

(** One turn of the loop of lines 102-106, on the state [(PR, page)]. *)
Definition sample_step (corpus : corpus_t) (damping_factor inc : rat)
    (rnd : nat -> nat) (i : nat) (st : dict page rat * page)
  : result (dict page rat * page) :=
  let: (PR, p) := st in
  let! v := getitem PR p in
  let PR := dict_set PR p (v + inc) in
  let! prob_dist := transition_model corpus p damping_factor in
  let! p' := random_choices (keys prob_dist) (values prob_dist) (rnd i.+1) in
  Ok (PR, p').

(** The state after the first [k] turns of the loop. *)
Definition sample_loop (corpus : corpus_t) (damping_factor inc : rat)
    (rnd : nat -> nat) (PR : dict page rat) (p : page) (turns : seq nat)
  : result (dict page rat * page) :=
  for_ turns (sample_step corpus damping_factor inc rnd) (PR, p).

Definition sample_pagerank (corpus : corpus_t) (damping_factor : rat) (n : int)
    (rnd : nat -> nat) : result (dict page rat) :=
  let! PR := sample_init corpus in
  let! inc := py_div 1 n%:~R in
  let! p := random_choice (keys PR) (rnd 0%N) in
  let! st := sample_loop corpus damping_factor inc rnd PR p (range n) in
  Ok st.1.

(** *** [iterate_pagerank] (lines 111-159) *)

Definition tolerance : rat := 1 / 1000%:R.
Arguments tolerance : simpl never.

(** Lines 122-125: the copy of the corpus in which pages without links
    link to every page. *)
Definition fix_dangling (corpus : corpus_t) : result corpus_t :=
  let new_corpus := corpus in
  for_ (keys new_corpus) (fun p new_corpus =>
    let! links := getitem new_corpus p in
    if set_len links == 0%N
    then Ok (dict_set new_corpus p (keys new_corpus))
    else Ok new_corpus) new_corpus.

(** Lines 131-134. *)
Definition init_rank (new_corpus : corpus_t) (starting_value : rat)
  : result (dict page rat) :=
  for_ (keys new_corpus) (fun p old_PR => Ok (dict_set old_PR p starting_value)) [::].

(** Lines 143-146: the inner loop, for one [page]. *)
Definition rank_sum (new_corpus : corpus_t) (old_PR : dict page rat) (p : page)
  : result rat :=
  for_ (keys new_corpus) (fun origin_page sum =>
    let! links := getitem new_corpus origin_page in
    if p \in links then
      let! r := getitem old_PR origin_page in
      let! links' := getitem new_corpus origin_page in
      let! q := py_div r (set_len links')%:R in
      Ok (sum + q)
    else Ok sum) 0.

(** Lines 140-151: one pass, on the state [(PR, repeat)]. *)
Definition pass (new_corpus : corpus_t) (damping_factor factor : rat)
    (old_PR PR : dict page rat) : result (dict page rat * bool) :=
  for_ (keys new_corpus) (fun p st =>
    let: (PR, repeat) := st in
    let! sum := rank_sum new_corpus old_PR p in
    let PR := dict_set PR p (factor + damping_factor * sum) in
    let! new := getitem PR p in
    let! old := getitem old_PR p in
    if `|new - old| > tolerance then Ok (PR, true) else Ok (PR, repeat))
    (PR, false).

(** Lines 156-157. *)
Definition copy_back (new_corpus : corpus_t) (PR old_PR : dict page rat)
  : result (dict page rat) :=
  for_ (keys new_corpus) (fun p old_PR =>
    let! v := getitem PR p in Ok (dict_set old_PR p v)) old_PR.

(** Lines 139-159: the [while True] loop. *)
Fixpoint iterate_loop (fuel : nat) (new_corpus : corpus_t)
    (damping_factor factor : rat) (old_PR PR : dict page rat)
  : option (result (dict page rat)) :=
  match fuel with
  | 0%N => None
  | fuel'.+1 =>
      match pass new_corpus damping_factor factor old_PR PR with
      | Raise e => Some (Raise e)
      | Ok (PR', repeat) =>
          if ~~ repeat then Some (Ok PR') else
          match copy_back new_corpus PR' old_PR with
          | Raise e => Some (Raise e)
          | Ok old_PR' =>
              iterate_loop fuel' new_corpus damping_factor factor old_PR' PR'
          end
      end
  end.

(** Lines 121-137: what the function does before it enters the loop. *)
Definition iterate_setup (corpus : corpus_t) (damping_factor : rat)
  : result (corpus_t * rat * dict page rat) :=
  let! new_corpus := fix_dangling corpus in
  let N := len corpus in
  let! starting_value := py_div 1 N in
  let! old_PR := init_rank new_corpus starting_value in
  let! factor := py_div (1 - damping_factor) N in
  Ok (new_corpus, factor, old_PR).

Definition iterate_pagerank (fuel : nat) (corpus : corpus_t) (damping_factor : rat)
  : option (result (dict page rat)) :=
  match iterate_setup corpus damping_factor with
  | Raise e => Some (Raise e)
  | Ok (new_corpus, factor, old_PR) =>
      iterate_loop fuel new_corpus damping_factor factor old_PR [::]
  end.

(** *** Well-formed inputs *)

(** Every link target is a page of the corpus. *)
Definition closed (corpus : corpus_t) : bool :=
  all (fun kv => all (fun q => q \in keys corpus) kv.2) corpus.

(** A valid corpus: a dict (distinct keys) with at least one page, closed. *)
Definition valid (corpus : corpus_t) : bool :=
  [&& uniq (keys corpus), (0 < size corpus)%N & closed corpus].

End PageRank.

(** ** The programs on a store of objects

    Dicts and sets are mutable objects that the caller shares with the
    estimators.  [Heap] restates the three functions over a store in which
    the corpus is a reference to a dict object whose values are references
    to set objects, so that [corpus.copy()] (a new dict object with the
    same set objects) and the item assignments of lines 122-125 are what
    they are in Python.  The dicts of numbers that a function creates for
    itself ([prob_dist], [PR], [old_PR]) are not visible to the caller
    before they are returned, and stay values. *)

Module Heap.

Section Programs.

Variable page : eqType.

Definition loc := nat.

Inductive obj :=
  | SetObj of pyset page
  | DictObj of dict page loc.

Definition heap := seq obj.

(** Computations that read and write the store and may raise. *)
Definition M (A : Type) := heap -> heap * result A.

Definition ret {A} (a : A) : M A := fun h => (h, Ok a).

Definition throw {A} (e : exn) : M A := fun h => (h, Raise e).

Definition lift {A} (r : result A) : M A := fun h => (h, r).

Definition mbind {A B} (m : M A) (k : A -> M B) : M B :=
  fun h =>
    match m h with
    | (h', Ok a) => k a h'
    | (h', Raise e) => (h', Raise e)
    end.

Notation "'do!' x ':=' m 'in' k" := (mbind m (fun x => k))
  (at level 200, x pattern, m at level 100, k at level 200,
   format "'[v' 'do!'  x  ':='  m  'in' '/' k ']'").

Fixpoint mfor {X S} (xs : seq X) (body : X -> S -> M S) (s : S) : M S :=
  match xs with
  | [::] => ret s
  | x :: xs' => do! s' := body x s in mfor xs' body s'
  end.

(** A new object, at a fresh location. *)
Definition alloc (o : obj) : M loc := fun h => (rcons h o, Ok (size h)).

Definition load_dict (l : loc) : M (dict page loc) :=
  fun h =>
    match nth (SetObj [::]) h l with
    | DictObj d => if (l < size h)%N then (h, Ok d) else (h, Raise TypeError)
    | SetObj _ => (h, Raise TypeError)
    end.

Definition load_set (l : loc) : M (pyset page) :=
  fun h =>
    match nth (DictObj [::]) h l with
    | SetObj s => if (l < size h)%N then (h, Ok s) else (h, Raise TypeError)
    | DictObj _ => (h, Raise TypeError)
    end.

(** [d[k]], a reference to a set *)
Definition lookup (d : loc) (k : page) : M loc :=
  do! items := load_dict d in lift (getitem items k).

(** [d[k] = v], in place *)
Definition store_item (d : loc) (k : page) (v : loc) : M unit :=
  do! items := load_dict d in
  fun h => (set_nth (SetObj [::]) h d (DictObj (dict_set items k v)), Ok tt).

(** [list(d)], the keys that [for k in d] goes through *)
Definition dict_keys (d : loc) : M (seq page) :=
  do! items := load_dict d in ret (keys items).

(** [len(d)] *)
Definition dict_len (d : loc) : M rat :=
  do! items := load_dict d in ret (len items).

(** [len(d[k])] *)
Definition links_len (d : loc) (k : page) : M nat :=
  do! l := lookup d k in do! s := load_set l in ret (set_len s).

(** [q in d[k]] *)
Definition links_mem (d : loc) (k q : page) : M bool :=
  do! l := lookup d k in do! s := load_set l in ret (q \in s).

(** *** [transition_model] *)

Definition transition_model (corpus : loc) (p : page) (damping_factor : rat)
  : M (dict page rat) :=
  do! n := links_len corpus p in
  if n == 0%N then
    do! N := dict_len corpus in
    do! prob := lift (py_div 1 N) in
    do! ks := dict_keys corpus in
    mfor ks (fun dest_page prob_dist =>
      ret (dict_set prob_dist dest_page prob)) [::]
  else
    do! N := dict_len corpus in
    do! prob_no_link := lift (py_div (1 - damping_factor) N) in
    do! n1 := links_len corpus p in
    do! q := lift (py_div damping_factor n1%:R) in
    let prob_has_link := q + prob_no_link in
    do! ks := dict_keys corpus in
    mfor ks (fun dest_page prob_dist =>
      do! b := links_mem corpus p dest_page in
      if b then ret (dict_set prob_dist dest_page prob_has_link)
      else ret (dict_set prob_dist dest_page prob_no_link)) [::].

(** *** [sample_pagerank] *)

Definition sample_step (corpus : loc) (damping_factor inc : rat)
    (rnd : nat -> nat) (i : nat) (st : dict page rat * page)
  : M (dict page rat * page) :=
  let: (PR, p) := st in
  do! v := lift (getitem PR p) in
  let PR := dict_set PR p (v + inc) in
  do! prob_dist := transition_model corpus p damping_factor in
  do! p' := lift (random_choices (keys prob_dist) (values prob_dist) (rnd i.+1)) in
  ret (PR, p').

Definition sample_pagerank (corpus : loc) (damping_factor : rat) (n : int)
    (rnd : nat -> nat) : M (dict page rat) :=
  do! ks := dict_keys corpus in
  do! PR := mfor ks (fun p PR => ret (dict_set PR p 0)) [::] in
  do! inc := lift (py_div 1 n%:~R) in
  do! p := lift (random_choice (keys PR) (rnd 0%N)) in
  do! st := mfor (range n) (sample_step corpus damping_factor inc rnd) (PR, p) in
  ret st.1.

(** *** [iterate_pagerank] *)

(** Lines 122-125. *)
Definition fix_dangling (corpus : loc) : M loc :=
  do! items := load_dict corpus in
  do! new_corpus := alloc (DictObj items) in
  do! ks := dict_keys new_corpus in
  do! _ := mfor ks (fun p (_ : unit) =>
    do! n := links_len new_corpus p in
    if n == 0%N then
      do! all_pages := dict_keys new_corpus in
      do! s := alloc (SetObj all_pages) in
      store_item new_corpus p s
    else ret tt) tt in
  ret new_corpus.

Definition rank_sum (new_corpus : loc) (old_PR : dict page rat) (p : page)
  : M rat :=
  do! ks := dict_keys new_corpus in
  mfor ks (fun origin_page sum =>
    do! b := links_mem new_corpus origin_page p in
    if b then
      do! r := lift (getitem old_PR origin_page) in
      do! n := links_len new_corpus origin_page in
      do! q := lift (py_div r n%:R) in
      ret (sum + q)
    else ret sum) 0.

Definition pass (new_corpus : loc) (damping_factor factor : rat)
    (old_PR PR : dict page rat) : M (dict page rat * bool) :=
  do! ks := dict_keys new_corpus in
  mfor ks (fun p st =>
    let: (PR, repeat) := st in
    do! sum := rank_sum new_corpus old_PR p in
    let PR := dict_set PR p (factor + damping_factor * sum) in
    do! new := lift (getitem PR p) in
    do! old := lift (getitem old_PR p) in
    if `|new - old| > tolerance then ret (PR, true) else ret (PR, repeat))
    (PR, false).

Definition copy_back (new_corpus : loc) (PR old_PR : dict page rat)
  : M (dict page rat) :=
  do! ks := dict_keys new_corpus in
  mfor ks (fun p old_PR =>
    do! v := lift (getitem PR p) in ret (dict_set old_PR p v)) old_PR.

Fixpoint iterate_loop (fuel : nat) (new_corpus : loc)
    (damping_factor factor : rat) (old_PR PR : dict page rat) (h : heap)
  : heap * option (result (dict page rat)) :=
  match fuel with
  | 0%N => (h, None)
  | fuel'.+1 =>
      match pass new_corpus damping_factor factor old_PR PR h with
      | (h1, Raise e) => (h1, Some (Raise e))
      | (h1, Ok (PR', repeat)) =>
          if ~~ repeat then (h1, Some (Ok PR')) else
          match copy_back new_corpus PR' old_PR h1 with
          | (h2, Raise e) => (h2, Some (Raise e))
          | (h2, Ok old_PR') =>
              iterate_loop fuel' new_corpus damping_factor factor old_PR' PR' h2
          end
      end
  end.

Definition iterate_setup (corpus : loc) (damping_factor : rat)
  : M (loc * rat * dict page rat) :=
  do! new_corpus := fix_dangling corpus in
  do! N := dict_len corpus in
  do! starting_value := lift (py_div 1 N) in
  do! ks := dict_keys new_corpus in
  do! old_PR := mfor ks (fun p old_PR =>
    ret (dict_set old_PR p starting_value)) [::] in
  do! factor := lift (py_div (1 - damping_factor) N) in
  ret (new_corpus, factor, old_PR).

Definition iterate_pagerank (fuel : nat) (corpus : loc) (damping_factor : rat)
    (h : heap) : heap * option (result (dict page rat)) :=
  match iterate_setup corpus damping_factor h with
  | (h1, Raise e) => (h1, Some (Raise e))
  | (h1, Ok (new_corpus, factor, old_PR)) =>
      iterate_loop fuel new_corpus damping_factor factor old_PR [::] h1
  end.

(** The corpus that a store holds at a location: the dict with the
    contents of the sets in place of their references. *)
Fixpoint read_items (h : heap) (items : dict page loc) : result (corpus_t page) :=
  match items with
  | [::] => Ok [::]
  | (k, l) :: items' =>
      match load_set l h with
      | (_, Ok s) => let! c := read_items h items' in Ok ((k, s) :: c)
      | (_, Raise e) => Raise e
      end
  end.

Definition snapshot (h : heap) (corpus : loc) : result (corpus_t page) :=
  match load_dict corpus h with
  | (_, Ok items) => read_items h items
  | (_, Raise e) => Raise e
  end.

(** [m] returns [r] from the store [h] and leaves it as it is. *)
Definition runs {A} (h : heap) (m : M A) (r : result A) : Prop := m h = (h, r).

(** [m] does not write to the store. *)
Definition readonly {A} (m : M A) : Prop := forall h, (m h).1 = h.

(** [m] leaves the first [n0] objects of the store as they are, and what
    it returns satisfies [Q]. *)
Definition frames {A} (n0 : nat) (m : M A) (Q : A -> Prop) : Prop :=
  forall h, (n0 <= size h)%N ->
    [/\ (n0 <= size (m h).1)%N, take n0 (m h).1 = take n0 h
      & forall a, (m h).2 = Ok a -> Q a].

End Programs.

End Heap.

(** ** The specification's formulas *)

Section Formulas.

Variable page : eqType.

(** The probability that the specification gives to page [q] in the
    distribution of a page whose links are [links]. *)
Definition spec_transition (corpus : corpus_t page) (links : pyset page)
    (damping_factor : rat) (q : page) : rat :=
  if set_len links == 0%N then 1 / len corpus
  else (1 - damping_factor) / len corpus
       + (if q \in links then damping_factor / (set_len links)%:R else 0).

(** The weights that a walk accumulates when every visit adds [inc]. *)
Definition tally (corpus : corpus_t page) (inc : rat) (walk : seq page)
  : dict page rat :=
  [seq (q, (count_mem q walk)%:R * inc) | q <- keys corpus].

(** The working corpus of [iterate_pagerank]: the links of a page without
    links are all the pages of the corpus, the other pages keep theirs. *)
Definition spec_fix_dangling (corpus : corpus_t page) : corpus_t page :=
  [seq (kv.1, if set_len kv.2 == 0%N then keys corpus else kv.2) | kv <- corpus].

(** The rank vector that gives [r p] to the page [p]. *)
Definition table (ks : seq page) (r : page -> rat) : dict page rat :=
  [seq (p, r p) | p <- ks].

(** The update rule: [factor] plus the damped sum, over the origin pages
    that link to [p], of their old rank divided by the number of their
    links. *)
Definition update (new_corpus : corpus_t page) (damping_factor factor : rat)
    (old : page -> rat) (p : page) : rat :=
  factor + damping_factor
           * \sum_(kv <- new_corpus | p \in kv.2) old kv.1 / (set_len kv.2)%:R.

Definition spec_new_rank (corpus : corpus_t page) (damping_factor : rat)
    (old : page -> rat) (p : page) : rat :=
  update (spec_fix_dangling corpus) damping_factor
    ((1 - damping_factor) / len corpus) old p.

(** No page changes by more than the tolerance. *)
Definition converged (ks : seq page) (old new : page -> rat) : bool :=
  all (fun p => `|new p - old p| <= tolerance) ks.

(** The distance of two rank vectors: the sum of the changes of the
    pages. *)
Definition dist (ks : seq page) (r r' : page -> rat) : rat :=
  \sum_(p <- ks) `|r' p - r p|.

End Formulas.

(** ** Example corpora *)

HB.instance Definition _ := hasDecEq.Build string String.eqb_spec.

Definition pA : string := "A".
Definition pB : string := "B".
Definition pC : string := "C".

(** A page with one link and a page without links. *)
Definition corpus_ab : corpus_t string := [:: (pA, [:: pB]); (pB, [::])].

(** A single page without links. *)
Definition corpus_a : corpus_t string := [:: (pA, [::])].

(** Two pages that link to each other, and a third that links to the
    first. *)
Definition corpus_cycle : corpus_t string :=
  [:: (pA, [:: pB]); (pB, [:: pA]); (pC, [:: pA])].

(** A page whose link leaves the corpus. *)
Definition corpus_open : corpus_t string := [:: (pA, [:: pC])].

Definition third : rat := 1 / 3%:R.
Definition two_thirds : rat := 2%:R / 3%:R.
Definition half : rat := 1 / 2%:R.

Definition cycle_start : dict string rat := [:: (pA, third); (pB, third); (pC, third)].
Definition cycle_odd : dict string rat := [:: (pA, two_thirds); (pB, third); (pC, 0)].
Definition cycle_even : dict string rat := [:: (pA, third); (pB, two_thirds); (pC, 0)].

(** A store that holds [corpus_ab]: the two sets, then the dict. *)
Definition store_ab : Heap.heap string :=
  [:: Heap.SetObj [:: pB]; Heap.SetObj [::];
      Heap.DictObj [:: (pA, 0%N); (pB, 1%N)]].

(** ** [crawl] and [main]

    The calls that leave the program are parameters: the listing of a
    directory, the reading of a file, the search of the link pattern in
    the contents of a file, and the formatting of a number with four
    decimals.  A call of the operating system returns a value or raises
    one of its own exceptions ([os_error]). *)

(** [s.endswith(suffix)] *)
Fixpoint endswith (s suffix : string) : bool :=
  (s == suffix)
  || match s with
     | EmptyString => false
     | String _ s' => endswith s' suffix
     end.

(** [str(n)] *)
Definition str (n : int) : string :=
  match n with
  | Posz m => DecimalString.NilEmpty.string_of_uint (Nat.to_uint m)
  | Negz m =>
      String.append "-" (DecimalString.NilEmpty.string_of_uint (Nat.to_uint m.+1))
  end.

Definition DAMPING : rat := 85%:R / 100%:R.
Definition SAMPLES : int := Posz 10000.
Arguments SAMPLES : simpl never.

(** How a call ends: it returns, or raises an exception of the program's
    own operations, or an exception of the operating system. *)
Inductive outcome (E A : Type) :=
  | Returns of A
  | Raises of exn
  | OsRaises of E.
Arguments Returns {E A} a.
Arguments Raises {E A} e.
Arguments OsRaises {E A} e.

(** How a run of the program ends. *)
Inductive termination (E : Type) :=
  | Finished
  | SysExit of string
  | Uncaught of exn
  | UncaughtOs of E
  | OutOfFuel.
Arguments Finished {E}.
Arguments SysExit {E} message.
Arguments Uncaught {E} e.
Arguments UncaughtOs {E} e.
Arguments OutOfFuel {E}.

Section Program.

Variable os_error : Type.

(** [os.listdir(directory)] *)
Variable listdir : string -> os_error + seq string.

(** [open(os.path.join(directory, filename)).read()] *)
Variable read_file : string -> string -> os_error + string.

(** [re.findall] of the link pattern in the contents of a file. *)
Variable findall : string -> seq string.

(** The format [.4f]. *)
Variable format_4f : rat -> string.

(** *** [crawl] (lines 24-48) *)

(** Lines 33-39: the loop that reads the files. *)
Fixpoint crawl_read (directory : string) (names : seq string)
    (pages : corpus_t string) : os_error + corpus_t string :=
  match names with
  | [::] => inr pages
  | filename :: names' =>
      if ~~ endswith filename ".html" then crawl_read directory names' pages
      else
        match read_file directory filename with
        | inl e => inl e
        | inr contents =>
            let links := findall contents in
            crawl_read directory names'
              (dict_set pages filename [seq l <- undup links | l != filename])
        end
  end.

(** Lines 42-46: the loop that drops the links that leave the corpus. *)
Definition crawl_filter (pages : corpus_t string) : result (corpus_t string) :=
  for_ (keys pages) (fun filename pages =>
    let! links := getitem pages filename in
    Ok (dict_set pages filename
          (undup [seq link <- links | link \in keys pages]))) pages.

Definition crawl (directory : string) : outcome os_error (corpus_t string) :=
  match listdir directory with
  | inl e => OsRaises e
  | inr names =>
      match crawl_read directory names [::] with
      | inl e => OsRaises e
      | inr pages =>
          match crawl_filter pages with
          | Raise e => Raises e
          | Ok pages => Returns pages
          end
      end
  end.

(** *** [main] (lines 10-21) *)

Definition usage : string := "Usage: python pagerank.py corpus".

Definition sampling_header : string :=
  String.append "PageRank Results from Sampling (n = "
    (String.append (str SAMPLES) ")").

Definition iteration_header : string := "PageRank Results from Iteration".

(** The line that is printed for a page. *)
Definition rank_line (p : string) (v : rat) : string :=
  String.append "  " (String.append p (String.append ": " (format_4f v))).

(** Lines 16-17 and 20-21: the loops that print, on the lines printed so
    far. *)
Fixpoint print_ranks (pages : seq string) (ranks : dict string rat)
    (out : seq string) : seq string * result unit :=
  match pages with
  | [::] => (out, Ok tt)
  | p :: pages' =>
      match getitem ranks p with
      | Raise e => (out, Raise e)
      | Ok v => print_ranks pages' ranks (rcons out (rank_line p v))
      end
  end.

(** [sorted(ranks)] *)
Definition sorted_keys (ranks : dict string rat) : seq string :=
  sort String.leb (keys ranks).

(** The lines that a run prints and how it ends. *)
Definition main (fuel : nat) (rnd : nat -> nat) (argv : seq string)
  : seq string * termination os_error :=
  if size argv != 2 then ([::], SysExit usage) else
  match crawl (nth EmptyString argv 1) with
  | OsRaises e => ([::], UncaughtOs e)
  | Raises e => ([::], Uncaught e)
  | Returns corpus =>
      match sample_pagerank corpus DAMPING SAMPLES rnd with
      | Raise e => ([::], Uncaught e)
      | Ok ranks =>
          match print_ranks (sorted_keys ranks) ranks [:: sampling_header] with
          | (out, Raise e) => (out, Uncaught e)
          | (out, Ok _) =>
              match iterate_pagerank fuel corpus DAMPING with
              | None => (out, OutOfFuel)
              | Some (Raise e) => (out, Uncaught e)
              | Some (Ok ranks) =>
                  match print_ranks (sorted_keys ranks) ranks
                          (rcons out iteration_header) with
                  | (out, Raise e) => (out, Uncaught e)
                  | (out, Ok _) => (out, Finished)
                  end
              end
          end
      end
  end.

End Program.

(** The names of a listing that [crawl] reads. *)
Definition html_files (names : seq string) : seq string :=
  [seq f <- names | endswith f ".html"].

(** A directory with three files, two of them pages; the contents of a
    page stand for its links. *)
Definition dir_listing (directory : string) : unit + seq string :=
  inr [:: "1.html"; "notes.txt"; "2.html"]%string.

Definition dir_read (directory filename : string) : unit + string :=
  if filename == "notes.txt"%string then inl tt
  else if filename == "1.html"%string then inr "2.html"%string
  else inr "3.html"%string.

Definition dir_findall (contents : string) : seq string := [:: contents; contents].

Definition dir_format (v : rat) : string := EmptyString.

Definition corpus_12 : corpus_t string :=
  [:: ("1.html"%string, [:: "2.html"%string]); ("2.html"%string, [::])].

(** ** [iterate_pagerank] with rounded arithmetic

    Every arithmetic operation of lines 128-150 is followed by a rounding
    [fl] of its exact result, as in floating point; the literal [0.001]
    is rounded too.  With the identity for [fl] these are the programs
    above. *)

Section Rounded.

Variable page : eqType.

(** The rounding of an exact result to a float. *)
Variable fl : rat -> rat.

(** True division [x / y], rounded. *)
Definition fl_div (x y : rat) : result rat :=
  if y == 0 then Raise ZeroDivisionError else Ok (fl (x / y)).

(** Lines 143-146. *)
Definition fl_rank_sum (new_corpus : corpus_t page) (old_PR : dict page rat)
    (p : page) : result rat :=
  for_ (keys new_corpus) (fun origin_page sum =>
    let! links := getitem new_corpus origin_page in
    if p \in links then
      let! r := getitem old_PR origin_page in
      let! links' := getitem new_corpus origin_page in
      let! q := fl_div r (set_len links')%:R in
      Ok (fl (sum + q))
    else Ok sum) 0.

(** Lines 140-151. *)
Definition fl_pass (new_corpus : corpus_t page) (damping_factor factor : rat)
    (old_PR PR : dict page rat) : result (dict page rat * bool) :=
  for_ (keys new_corpus) (fun p st =>
    let: (PR, repeat) := st in
    let! sum := fl_rank_sum new_corpus old_PR p in
    let PR := dict_set PR p (fl (factor + fl (damping_factor * sum))) in
    let! new := getitem PR p in
    let! old := getitem old_PR p in
    if `|fl (new - old)| > fl tolerance then Ok (PR, true) else Ok (PR, repeat))
    (PR, false).

(** Lines 139-159. *)
Fixpoint fl_iterate_loop (fuel : nat) (new_corpus : corpus_t page)
    (damping_factor factor : rat) (old_PR PR : dict page rat)
  : option (result (dict page rat)) :=
  match fuel with
  | 0%N => None
  | fuel'.+1 =>
      match fl_pass new_corpus damping_factor factor old_PR PR with
      | Raise e => Some (Raise e)
      | Ok (PR', repeat) =>
          if ~~ repeat then Some (Ok PR') else
          match copy_back new_corpus PR' old_PR with
          | Raise e => Some (Raise e)
          | Ok old_PR' =>
              fl_iterate_loop fuel' new_corpus damping_factor factor old_PR' PR'
          end
      end
  end.

(** Lines 121-137. *)
Definition fl_iterate_setup (corpus : corpus_t page) (damping_factor : rat)
  : result (corpus_t page * rat * dict page rat) :=
  let! new_corpus := fix_dangling corpus in
  let N := len corpus in
  let! starting_value := fl_div 1 N in
  let! old_PR := init_rank new_corpus starting_value in
  let! factor := fl_div (fl (1 - damping_factor)) N in
  Ok (new_corpus, factor, old_PR).

Definition fl_iterate_pagerank (fuel : nat) (corpus : corpus_t page)
    (damping_factor : rat) : option (result (dict page rat)) :=
  match fl_iterate_setup corpus damping_factor with
  | Raise e => Some (Raise e)
  | Ok (new_corpus, factor, old_PR) =>
      fl_iterate_loop fuel new_corpus damping_factor factor old_PR [::]
  end.

(** The rounded sum of the shares of the pages that link to [p], in the
    order of the corpus. *)
Definition fl_sum (new_corpus : corpus_t page) (old : page -> rat) (p : page)
  : rat :=
  foldl (fun s kv =>
           if p \in kv.2 then fl (s + fl (old kv.1 / (set_len kv.2)%:R)) else s)
        0 new_corpus.

(** The rounded update rule. *)
Definition fl_update (new_corpus : corpus_t page) (damping_factor factor : rat)
    (old : page -> rat) (p : page) : rat :=
  fl (factor + fl (damping_factor * fl_sum new_corpus old p)).

(** The test of line 150 fails for every page. *)
Definition fl_converged (ks : seq page) (old new : page -> rat) : bool :=
  all (fun p => `|fl (new p - old p)| <= fl tolerance) ks.

(** The rounded constant factor of line 137. *)
Definition fl_factor (corpus : corpus_t page) (damping_factor : rat) : rat :=
  fl (fl (1 - damping_factor) / len corpus).

End Rounded.

(** The bound on the rounding error of the new rank of a page in a pass
    over [n] pages, when one rounding errs by at most [eta]: two roundings
    for every origin page and four more. *)
Definition pass_error (n : nat) (eta : rat) : rat := (2 * n + 4)%:R * eta.

(** The distance between the old and the new ranks, summed over the
    pages, below which the rounding errors can keep a pass. *)
Definition settle (n : nat) (damping_factor eta : rat) : rat :=
  2%:R * n%:R * pass_error n eta / (1 - damping_factor).

(** Two corpora with the same pages in the same order and, page by page,
    the same links, whatever the layout of the sets. *)
Fixpoint same_corpus (page : eqType) (c c' : corpus_t page) : Prop :=
  match c, c' with
  | [::], [::] => True
  | kv :: c1, kv' :: c1' =>
      [/\ kv.1 = kv'.1, kv.2 =i kv'.2 & same_corpus c1 c1']
  | _, _ => False
  end.

(** Rounding down to a multiple of [1/g]. *)
Definition round_down (g : nat) (x : rat) : rat :=
  (Num.floor (x * g%:R))%:~R / g%:R.

(** A page with two links, in two layouts of its set of links. *)
Definition corpus_abc : corpus_t string :=
  [:: (pA, [:: pB; pC]); (pB, [:: pA]); (pC, [:: pA])].

Definition corpus_acb : corpus_t string :=
  [:: (pA, [:: pC; pB; pC]); (pB, [:: pA]); (pC, [:: pA])].

(** A grid of a million points in a unit, and the error of rounding down
    to it. *)
Definition grid : nat := 1000 * 1000.
Definition grid_error : rat := tolerance * tolerance.

(** ** Equality of results *)

Lemma exn_eqP : Equality.axiom exn_eqb.
Proof. by case; case; constructor. Qed.

HB.instance Definition _ := hasDecEq.Build exn exn_eqP.

Lemma result_eqP (A : eqType) : Equality.axiom (@result_eqb A).
Proof.
case=> [a1|e1] [a2|e2] /=; try by constructor.
  by apply: (iffP eqP) => [->|[]].
by apply: (iffP (exn_eqP e1 e2)) => [->|[]].
Qed.

HB.instance Definition _ (A : eqType) := hasDecEq.Build (result A) (@result_eqP A).

(** ** Loops and dictionaries *)

Section LoopTheory.

Variables (X : eqType) (S : Type).

Lemma for_ext (body body' : X -> S -> result S) xs s :
  (forall x s', x \in xs -> body x s' = body' x s') ->
  for_ xs body s = for_ xs body' s.
Proof.
elim: xs s => [//|x xs IH] s E /=.
rewrite E ?mem_head //; case: (body' x s) => //= s'.
by apply: IH => y s'' Hy; apply: E; rewrite in_cons Hy orbT.
Qed.

Lemma bind_ok (A B : Type) (a : A) (k : A -> result B) : bind (Ok a) k = k a.
Proof. by []. Qed.

Lemma for_cons (body : X -> S -> result S) x xs s :
  for_ (x :: xs) body s = let! s' := body x s in for_ xs body s'.
Proof. by []. Qed.

Lemma for_map (Y : Type) (f : Y -> X) (body : X -> S -> result S) ys s :
  for_ (map f ys) body s = for_ ys (fun y => body (f y)) s.
Proof.
elim: ys s => [//|y ys IH] s /=.
by case: (body (f y) s).
Qed.

Lemma for_pure (g : X -> S -> S) xs s :
  for_ xs (fun x s' => Ok (g x s')) s = Ok (foldl (fun s' x => g x s') s xs).
Proof. by elim: xs s => [//|x xs IH] s /=. Qed.

Lemma for_cat (body : X -> S -> result S) xs ys s :
  for_ (xs ++ ys) body s = let! s' := for_ xs body s in for_ ys body s'.
Proof.
elim: xs s => [//|x xs IH] s /=.
by case: (body x s) => //= s'.
Qed.

End LoopTheory.

Lemma for_pair (X A B : Type) (F : X -> A -> A) (G : X -> B -> B) xs a b :
  for_ xs (fun x st => Ok (F x st.1, G x st.2)) (a, b)
  = Ok (foldl (fun a' x => F x a') a xs, foldl (fun b' x => G x b') b xs).
Proof. by elim: xs a b => [//|x xs IH] a b /=. Qed.

Lemma foldl_orb (X : Type) (c : pred X) xs b :
  foldl (fun b' x => c x || b') b xs = has c xs || b.
Proof.
elim: xs b => [//|x xs IH] b /=.
by rewrite IH orbCA orbA.
Qed.

Lemma foldl_sum (X : Type) (P : pred X) (F : X -> rat) xs a :
  foldl (fun s x => if P x then s + F x else s) a xs
  = a + \sum_(x <- xs | P x) F x.
Proof.
elim: xs a => [|x xs IH] a /=; first by rewrite big_nil addr0.
by rewrite IH big_cons; case: ifP => _ //; rewrite addrA.
Qed.

Section DictTheory.

Variables (K : eqType) (V : Type).
Implicit Types (d : dict K V) (k : K) (v : V).

Lemma keys_cat d1 d2 : keys (d1 ++ d2) = keys d1 ++ keys d2.
Proof. exact: map_cat. Qed.

Lemma size_keys d : size (keys d) = size d.
Proof. exact: size_map. Qed.

Lemma size_values d : size (values d) = size d.
Proof. exact: size_map. Qed.

Lemma keys_map (f : K -> V) ks : keys [seq (k, f k) | k <- ks] = ks.
Proof. by rewrite /keys -map_comp map_id_in. Qed.

Lemma values_map (f : K -> V) ks : values [seq (k, f k) | k <- ks] = map f ks.
Proof. by rewrite /values -map_comp. Qed.

Lemma dict_get_keys d k : (k \in keys d) = (dict_get d k : bool).
Proof.
elim: d => [//|[k' v] d IH] /=.
by rewrite in_cons eq_sym; case: eqP.
Qed.

Lemma dict_get_some d k v : dict_get d k = Some v -> k \in keys d.
Proof. by rewrite dict_get_keys => ->. Qed.

Lemma dict_get_in d k : k \in keys d -> exists v, dict_get d k = Some v.
Proof. by rewrite dict_get_keys; case: (dict_get d k) => // v _; exists v. Qed.

Lemma dict_get_all (P : V -> bool) d k v :
  all (fun kv => P kv.2) d -> dict_get d k = Some v -> P v.
Proof.
elim: d => [//|[k' v'] d IH] /= /andP [Hv Hd].
by case: eqP => [_ [<-]|_]; [|exact: IH].
Qed.

Lemma dict_get_map (f : K -> V) ks k :
  dict_get [seq (k', f k') | k' <- ks] k = if k \in ks then Some (f k) else None.
Proof.
elim: ks => [//|k' ks IH] /=.
by rewrite in_cons eq_sym; case: eqP => [->|_].
Qed.

Lemma dict_get_cat d1 d2 k :
  k \notin keys d1 -> dict_get (d1 ++ d2) k = dict_get d2 k.
Proof.
elim: d1 => [//|[k' v'] d1 IH] /=.
by rewrite in_cons negb_or eq_sym => /andP [/negbTE -> /IH].
Qed.

Lemma dict_get_set d k v : dict_get (dict_set d k v) k = Some v.
Proof.
elim: d => [|[k' v'] d IH] /=; first by rewrite eqxx.
by case: ifP => /= [->//|->].
Qed.

Lemma getitem_some d k v : dict_get d k = Some v -> getitem d k = Ok v.
Proof. by rewrite /getitem => ->. Qed.

Lemma keys_dict_set_in d k v : k \in keys d -> keys (dict_set d k v) = keys d.
Proof.
elim: d => [//|[k' v'] d IH] /=.
rewrite in_cons eq_sym; case: eqP => [//|_] /= Hk.
by rewrite IH.
Qed.

Lemma dict_set_cat d1 d2 k v :
  k \notin keys d1 -> dict_set (d1 ++ d2) k v = d1 ++ dict_set d2 k v.
Proof.
elim: d1 => [//|[k' v'] d1 IH] /=.
rewrite in_cons negb_or eq_sym => /andP [/negbTE -> Hk].
by rewrite IH.
Qed.

(** Assigning [f k] to every key [k] of [ks] in turn, in a dict that is
    empty or already has exactly the keys [ks], gives the table of [f]. *)
Lemma for_dict_set_gen (f : K -> V) ks d1 d2 :
  uniq (keys d1 ++ ks) -> d2 = [::] \/ keys d2 = ks ->
  for_ ks (fun k d => Ok (dict_set d k (f k))) (d1 ++ d2)
  = Ok (d1 ++ [seq (k, f k) | k <- ks]).
Proof.
elim: ks d1 d2 => [|k ks IH] d1 d2 U Hd2 /=.
  by case: Hd2 => [->|]; [|case: d2].
have Hk : k \notin keys d1.
  by move: U; rewrite cat_uniq /= negb_or => /and3P [_ /andP [? _] _].
have U' : uniq (keys (d1 ++ [:: (k, f k)]) ++ ks).
  by rewrite keys_cat -catA.
rewrite dict_set_cat //.
case: Hd2 => [->|] /=.
  by rewrite -cat1s catA -[d1 ++ [:: _]]cats0 IH ?cats0 -?catA //; left.
case: d2 => [//|[k' v'] d2] /= [-> Hd2]; rewrite eqxx.
by rewrite -cat1s catA IH -?catA //; right.
Qed.

Lemma for_dict_set (f : K -> V) ks d :
  uniq ks -> d = [::] \/ keys d = ks ->
  for_ ks (fun k d' => Ok (dict_set d' k (f k))) d = Ok [seq (k, f k) | k <- ks].
Proof. by move=> U Hd; rewrite -[d]cat0s for_dict_set_gen. Qed.

End DictTheory.

(** ** [transition_model] *)

Section TransitionTheory.

Variable page : eqType.
Implicit Types (corpus : corpus_t page) (p q : page) (links : pyset page).

Lemma len_neq0 V (d : dict page V) p : p \in keys d -> len d != 0.
Proof.
rewrite /len pnatr_eq0 -size_keys.
by case: (keys d).
Qed.

Lemma total_weightE (ws : seq rat) : total_weight ws = \sum_(w <- ws) w.
Proof.
have H a : foldl (fun acc w => acc + w) a ws = a + \sum_(w <- ws) w.
  elim: ws a => [|w ws IH] a /=; first by rewrite big_nil addr0.
  by rewrite IH big_cons addrA.
by rewrite /total_weight H add0r.
Qed.

(** The pages of a dict that belong to a set of pages of the dict are as
    many as the set has elements. *)
Lemma count_links (ks : seq page) links :
  uniq ks -> all (fun q => q \in ks) links ->
  count (fun q => q \in links) ks = set_len links.
Proof.
move=> U /allP Hl; rewrite -size_filter /set_len.
apply/eqP; rewrite -(@uniq_size_uniq _ (undup links)) ?undup_uniq //.
  move=> x; rewrite mem_undup mem_filter.
  by case Hx: (x \in links); rewrite //= Hl.
exact: filter_uniq.
Qed.

(** The table that [transition_model] returns. *)
Lemma transition_model_table corpus p links damping_factor :
  uniq (keys corpus) -> dict_get corpus p = Some links ->
  transition_model corpus p damping_factor
  = Ok [seq (q, spec_transition corpus links damping_factor q) | q <- keys corpus].
Proof.
move=> U Hp; have N0 := len_neq0 (dict_get_some Hp).
rewrite /transition_model (getitem_some Hp) /= /spec_transition.
case: ifPn => L0; rewrite /py_div (negbTE N0) /=.
  by rewrite (for_dict_set (fun=> 1 / len corpus)) //; left.
rewrite pnatr_eq0 (negbTE L0) /=.
pose f q := (1 - damping_factor) / len corpus
  + (if q \in links then damping_factor / (set_len links)%:R else 0).
rewrite (@for_ext _ _ _ (fun q d => Ok (dict_set d q (f q)))).
  move=> q d _ /=; rewrite /f.
  by case: ifP => _; rewrite ?addr0 // addrC.
by rewrite (for_dict_set f) //; left.
Qed.

(** C1. For a corpus (a dict) that has [p] as a key, and every damping
    factor, [transition_model] returns the distribution of the
    specification: [1/|corpus|] for every page when [p] has no links,
    otherwise [(1 - d)/|corpus|] for every page, plus [d/|links|] for the
    pages among the links of [p]. *)
Theorem transition_model_spec corpus p links damping_factor :
  uniq (keys corpus) -> dict_get corpus p = Some links ->
  transition_model corpus p damping_factor
  = Ok [seq (q, spec_transition corpus links damping_factor q) | q <- keys corpus].
Proof. exact: transition_model_table. Qed.

(** On a valid corpus the table is a distribution over the pages. *)
Lemma transition_model_sums corpus p damping_factor :
  valid corpus -> p \in keys corpus ->
  exists prob_dist,
    [/\ transition_model corpus p damping_factor = Ok prob_dist,
        keys prob_dist = keys corpus
      & \sum_(v <- values prob_dist) v = 1].
Proof.
case/and3P => U _ C /[dup] Hp /dict_get_in [links Hl].
have N0 := len_neq0 Hp.
exists [seq (q, spec_transition corpus links damping_factor q) | q <- keys corpus].
split; first exact: transition_model_table.
  by rewrite keys_map.
have sum_const (a : rat) : \sum_(q <- keys corpus) a / len corpus = a.
  rewrite big_const_seq count_predT iter_addr_0 size_keys -mulr_natr.
  by rewrite -mulrA mulVf // mulr1.
rewrite (values_map (spec_transition corpus links damping_factor)) big_map.
rewrite /spec_transition.
case L0: (set_len links == 0%N); first exact: sum_const.
rewrite big_split /= sum_const -big_mkcond /= big_const_seq iter_addr_0.
rewrite count_links //.
  exact: (@dict_get_all _ _ (all (fun q => q \in keys corpus)) _ _ _ C Hl).
by rewrite -mulr_natr -mulrA mulVf ?pnatr_eq0 ?L0 // mulr1 subrK.
Qed.

(** C5. For a valid corpus and a page of it, the distribution that
    [transition_model] returns has exactly the pages of the corpus as its
    keys, and its values sum to 1. *)
Theorem transition_model_distribution corpus p damping_factor :
  valid corpus -> p \in keys corpus ->
  exists prob_dist,
    [/\ transition_model corpus p damping_factor = Ok prob_dist,
        keys prob_dist = keys corpus
      & \sum_(v <- values prob_dist) v = 1].
Proof. exact: transition_model_sums. Qed.

End TransitionTheory.

(** ** [sample_pagerank] *)

Section SampleTheory.

Variable page : eqType.
Implicit Types (corpus : corpus_t page) (p q : page) (walk : seq page).

Lemma dict_set_table (V : Type) (f : page -> V) (ks : seq page) p v :
  uniq ks -> p \in ks ->
  dict_set [seq (q, f q) | q <- ks] p v
  = [seq (q, if q == p then v else f q) | q <- ks].
Proof.
elim: ks => [//|k ks IH] /= /andP [Hk U]; rewrite in_cons eq_sym.
case: eqP => [E _|_ /= Hp]; last by rewrite IH.
congr (_ :: _); apply/eq_in_map => q Hq.
by case: eqP => // Eq; move: Hk; rewrite E -Eq Hq.
Qed.

Lemma sample_init_ok corpus :
  uniq (keys corpus) -> sample_init corpus = Ok (tally corpus 0 [::]).
Proof.
by move=> U; rewrite /sample_init (for_dict_set (fun=> 0)) //; left.
Qed.

Lemma tally_nil corpus inc inc' : tally corpus inc [::] = tally corpus inc' [::].
Proof. by apply/eq_map => q; rewrite /= !mul0r. Qed.

Lemma random_choice_in (ks : seq page) r :
  (0 < size ks)%N -> exists2 p, random_choice ks r = Ok p & p \in ks.
Proof.
case: ks => [//|k ks] _; exists (nth k (k :: ks) (r %% size (k :: ks))) => //.
by apply: mem_nth; rewrite ltn_mod.
Qed.

(** A draw from the distribution of a page of a valid corpus is a page of
    the corpus. *)
Lemma next_page_in corpus p damping_factor r :
  valid corpus -> p \in keys corpus ->
  exists prob_dist p',
    [/\ transition_model corpus p damping_factor = Ok prob_dist,
        random_choices (keys prob_dist) (values prob_dist) r = Ok p'
      & p' \in keys corpus].
Proof.
move=> Hv Hp.
have [pd [Epd Kpd Spd]] := transition_model_sums damping_factor Hv Hp.
case/and3P: Hv => _ N0 _.
have Hs : (0 < size (keys pd))%N by rewrite Kpd size_keys.
have [p' _ Hp'] := random_choice_in r Hs.
exists pd, (nth p (keys pd) (r %% size (keys pd))); split=> //; last first.
  by rewrite -Kpd; apply: mem_nth; rewrite ltn_mod.
rewrite /random_choices size_values -(size_keys pd) eqxx /= total_weightE Spd.
rewrite leNgt ltr01 /=.
case: (keys pd) Hs => [//|k ks] _; congr (Ok _).
by apply: set_nth_default; rewrite ltn_mod.
Qed.

Lemma sample_step_ok corpus damping_factor inc rnd i walk p :
  valid corpus -> p \in keys corpus ->
  exists2 p', p' \in keys corpus &
    sample_step corpus damping_factor inc rnd i (tally corpus inc walk, p)
    = Ok (tally corpus inc (rcons walk p), p').
Proof.
move=> Hv Hp; case/and3P: (Hv) => U _ _.
have [pd [p' [Epd Ep' Hp']]] := next_page_in damping_factor (rnd i.+1) Hv Hp.
exists p' => //; rewrite /sample_step /getitem /tally.
rewrite (dict_get_map (fun q => (count_mem q walk)%:R * inc)) Hp /=.
rewrite Epd /= Ep' /= (dict_set_table _ _ U Hp); congr (Ok (_, _)).
apply/eq_map => q; rewrite -cats1 count_cat /= addn0 eq_sym [p == q]eq_sym.
case: eqP => [->|_]; last by rewrite addn0.
by rewrite natrD mulrDl mul1r.
Qed.

(** The loop of [sample_pagerank]: every turn adds [inc] to the weight of
    the current page and moves to a page of the corpus. *)
Lemma sample_loop_ok corpus damping_factor inc rnd walk p turns :
  valid corpus -> p \in keys corpus ->
  exists visited p',
    [/\ size visited = size turns,
        all (fun q => q \in keys corpus) visited,
        p' \in keys corpus
      & sample_loop corpus damping_factor inc rnd (tally corpus inc walk) p turns
        = Ok (tally corpus inc (walk ++ visited), p')].
Proof.
move=> Hv; rewrite /sample_loop.
elim: turns walk p => [|i turns IH] walk p Hp.
  by exists [::], p; rewrite cats0.
have [p1 Hp1 E] := sample_step_ok damping_factor inc rnd i walk Hv Hp.
rewrite for_cons E [bind _ _]/=.
have [visited [p' [Hs Ha Hp' ->]]] := IH (rcons walk p) p1 Hp1.
exists (p :: visited), p'; split=> //=; first by rewrite Hs.
  by rewrite Hp.
by rewrite cat_rcons.
Qed.

(** Every visit of a walk through the pages of a dict is counted at
    exactly one key. *)
Lemma sum_count_mem (ks : seq page) walk :
  uniq ks -> all (fun q => q \in ks) walk ->
  (\sum_(q <- ks) count_mem q walk = size walk)%N.
Proof.
move=> U; elim: walk => [_|w walk IH] /=.
  by rewrite big1.
case/andP=> Hw Ha; rewrite big_split /= IH // -add1n; congr addn.
have -> : (\sum_(q <- ks) (w == q) = \sum_(q <- ks | q == w) 1)%N.
  by rewrite [RHS]big_mkcond /=; apply: eq_bigr => q _; rewrite eq_sym; case: eqP.
by rewrite sum1_count count_uniq_mem // Hw.
Qed.

Lemma sample_start corpus (n : int) rnd :
  valid corpus -> 1 <= n ->
  exists2 p0,
    p0 \in keys corpus &
    [/\ sample_init corpus = Ok (tally corpus (1 / n%:~R) [::]),
        py_div 1 n%:~R = Ok (1 / n%:~R)
      & random_choice (keys (tally corpus (1 / n%:~R) [::])) (rnd 0%N) = Ok p0].
Proof.
move=> /and3P [U N0 _] Hn.
have [|p0 E0 Hp0] := @random_choice_in (keys corpus) (rnd 0%N).
  by rewrite size_keys.
exists p0 => //; split.
- by rewrite sample_init_ok // (tally_nil _ 0 (1 / n%:~R)).
- by rewrite /py_div intr_eq0; case: eqP Hn => // ->.
- by rewrite /tally keys_map.
Qed.

(** C4. For a valid corpus, a sample count [n >= 1] and every sequence of
    draws, [sample_pagerank] returns a dict whose keys are exactly the
    pages of the corpus and whose values sum to 1: there is a walk of [n]
    pages of the corpus such that the weight of every page is the number of
    its visits divided by [n] (so a page never visited has weight 0). *)
Theorem sample_pagerank_spec corpus damping_factor (n : int) rnd :
  valid corpus -> 1 <= n ->
  exists PR walk,
    [/\ sample_pagerank corpus damping_factor n rnd = Ok PR,
        keys PR = keys corpus,
        size walk = `|n|%N /\ all (fun q => q \in keys corpus) walk,
        PR = [seq (q, (count_mem q walk)%:R / n%:~R) | q <- keys corpus]
      & \sum_(v <- values PR) v = 1].
Proof.
move=> Hv Hn; have [p0 Hp0 [E1 E2 E3]] := sample_start rnd Hv Hn.
have [walk [p' [Hs Ha _]]] :=
  sample_loop_ok damping_factor (1 / n%:~R) rnd [::] (range n) Hv Hp0.
rewrite cat0s => E4.
have Hsz : size walk = `|n|%N.
  by rewrite Hs; case: n Hn {E1 E2 E3 E4 Hs} => // m _; rewrite /= size_iota.
have ET : tally corpus (1 / n%:~R) walk
          = [seq (q, (count_mem q walk)%:R / n%:~R) | q <- keys corpus].
  by apply/eq_map => q; rewrite mul1r.
exists (tally corpus (1 / n%:~R) walk), walk; split=> //.
- by rewrite /sample_pagerank E1 /= E2 /= E3 /= E4.
- by rewrite /tally keys_map.
- rewrite /tally (values_map (fun q => (count_mem q walk)%:R * (1 / n%:~R))).
  have U : uniq (keys corpus) by case/and3P: Hv.
  rewrite big_map -mulr_suml -natr_sum sum_count_mem //.
  rewrite Hsz mul1r pmulrn gez0_abs ?(le_trans ler01 Hn) //.
  by rewrite divff // intr_eq0; case: eqP Hn => // ->.
Qed.

(** C10. In [sample_pagerank] on a valid corpus with [n >= 1], for every
    sequence of draws: the start page is a key of the corpus, and so is the
    page [p] reached after the first [k] turns of the loop, for every
    [k < n]; the next turn, which calls [transition_model] at [p], finds
    [corpus[p]] and gets a distribution. *)
Theorem sample_pages_in_corpus corpus damping_factor (n : int) rnd (k : nat) :
  valid corpus -> 1 <= n -> (k < `|n|)%N ->
  exists PR0 inc p0,
    [/\ sample_init corpus = Ok PR0,
        py_div 1 n%:~R = Ok inc,
        random_choice (keys PR0) (rnd 0%N) = Ok p0,
        p0 \in keys corpus
      & exists PR p links prob_dist,
          [/\ sample_loop corpus damping_factor inc rnd PR0 p0 (take k (range n))
              = Ok (PR, p),
              sample_loop corpus damping_factor inc rnd PR0 p0 (range n)
              = for_ (drop k (range n))
                  (sample_step corpus damping_factor inc rnd) (PR, p),
              p \in keys corpus,
              getitem corpus p = Ok links
            & transition_model corpus p damping_factor = Ok prob_dist]].
Proof.
move=> Hv Hn Hk; have [p0 Hp0 [E1 E2 E3]] := sample_start rnd Hv Hn.
exists (tally corpus (1 / n%:~R) [::]), (1 / n%:~R), p0; split=> //.
have [walk [p [_ _ Hp]]] :=
  sample_loop_ok damping_factor (1 / n%:~R) rnd [::] (take k (range n)) Hv Hp0.
rewrite cat0s => E4.
have [links El] := dict_get_in Hp.
have [pd [_ [Epd _ _]]] := next_page_in damping_factor 0%N Hv Hp.
exists (tally corpus (1 / n%:~R) walk), p, links, pd; split=> //.
- by rewrite /sample_loop -{1}(cat_take_drop k (range n)) for_cat -/(sample_loop _ _ _ _ _ _ _) E4.
- exact: getitem_some.
Qed.

End SampleTheory.

(** ** [iterate_pagerank] *)

Section IterateTheory.

Variable page : eqType.
Implicit Types (corpus nc : corpus_t page) (p q : page) (r : page -> rat).

Lemma dict_get_uniq (V : eqType) (d : dict page V) p v :
  uniq (keys d) -> (p, v) \in d -> dict_get d p = Some v.
Proof.
elim: d => [//|[k w] d IH] /= /andP [Hk U].
rewrite in_cons => /orP [/eqP [-> ->]|Hin]; first by rewrite eqxx.
case: eqP => [E|_]; last exact: IH.
by move: Hk; rewrite E; move/(map_f fst): Hin => /= ->.
Qed.

(** The loop of lines 123-125, with the pages before the current one
    already rewritten. *)
Lemma fix_dangling_loop (K : seq page) (d1 d2 : corpus_t page) :
  uniq (keys d1 ++ keys d2) -> keys d1 ++ keys d2 = K ->
  for_ (keys d2) (fun p new_corpus =>
    let! links := getitem new_corpus p in
    if set_len links == 0%N
    then Ok (dict_set new_corpus p (keys new_corpus))
    else Ok new_corpus) (d1 ++ d2)
  = Ok (d1 ++ [seq (kv.1, if set_len kv.2 == 0%N then K else kv.2) | kv <- d2]).
Proof.
elim: d2 d1 => [|[k l] d2 IH] d1 /= U EK; first by rewrite cats0.
have Hk : k \notin keys d1.
  by move: U; rewrite cat_uniq /= negb_or => /and3P [_ /andP [? _] _].
rewrite /getitem dict_get_cat //= eqxx /=.
have step v : d1 ++ (k, v) :: d2 = (d1 ++ [:: (k, v)]) ++ d2 by rewrite -catA.
have Hkeys v : keys (d1 ++ [:: (k, v)]) ++ keys d2 = keys d1 ++ k :: keys d2.
  by rewrite keys_cat -catA.
case: ifP => _ /=.
  rewrite dict_set_cat //= eqxx keys_cat /= EK step IH ?Hkeys //.
  by rewrite -catA.
by rewrite step IH ?Hkeys // -catA.
Qed.

Lemma fix_dangling_ok corpus :
  uniq (keys corpus) -> fix_dangling corpus = Ok (spec_fix_dangling corpus).
Proof.
move=> U; exact: (@fix_dangling_loop (keys corpus) [::] corpus).
Qed.

Lemma keys_fix_dangling corpus : keys (spec_fix_dangling corpus) = keys corpus.
Proof. by rewrite /keys /spec_fix_dangling -map_comp. Qed.

Lemma init_rank_ok nc (v : rat) :
  uniq (keys nc) -> init_rank nc v = Ok (table (keys nc) (fun=> v)).
Proof. by move=> U; rewrite /init_rank (for_dict_set (fun=> v)) //; left. Qed.

Lemma iterate_setup_ok corpus damping_factor :
  uniq (keys corpus) -> (0 < size corpus)%N ->
  iterate_setup corpus damping_factor
  = Ok (spec_fix_dangling corpus, (1 - damping_factor) / len corpus,
        table (keys corpus) (fun=> 1 / len corpus)).
Proof.
move=> U N0.
have E : (len corpus == 0) = false.
  by rewrite /len pnatr_eq0; apply/negbTE; rewrite -lt0n.
rewrite /iterate_setup fix_dangling_ok // /py_div E [LHS]/=.
by rewrite init_rank_ok keys_fix_dangling.
Qed.

Lemma foldl_dict_set (f : page -> rat) ks (d : dict page rat) :
  uniq ks -> d = [::] \/ keys d = ks ->
  foldl (fun d' k => dict_set d' k (f k)) d ks = table ks f.
Proof. by move=> U Hd; have := for_dict_set f U Hd; rewrite for_pure => -[]. Qed.

Lemma set_len_neq0 (l : pyset page) p : p \in l -> (set_len l)%:R != 0 :> rat.
Proof. by rewrite -mem_undup /set_len pnatr_eq0; case: (undup l). Qed.

(** The inner loop adds up the shares of the pages that link to [p]. *)
Lemma rank_sum_ok nc r p :
  uniq (keys nc) ->
  rank_sum nc (table (keys nc) r) p
  = Ok (\sum_(kv <- nc | p \in kv.2) r kv.1 / (set_len kv.2)%:R).
Proof.
move=> U; rewrite /rank_sum /keys for_map.
rewrite (@for_ext _ _ _ (fun (kv : page * pyset page) (s : rat) =>
  Ok (if p \in kv.2 then s + r kv.1 / (set_len kv.2)%:R else s))).
  move=> [k l] s Hkl /=; rewrite (getitem_some (dict_get_uniq U Hkl)) /=.
  case: ifP => // Hp; rewrite /getitem (dict_get_map r) (map_f fst Hkl) /=.
  by rewrite /py_div (negbTE (set_len_neq0 Hp)).
by rewrite for_pure foldl_sum add0r.
Qed.

Lemma not_converged ks r r' :
  has (fun p => tolerance < `|r' p - r p|) ks = ~~ converged ks r r'.
Proof.
rewrite /converged -has_predC; apply: eq_has => p /=.
by rewrite ltNge.
Qed.

(** One pass fills [PR] with the update of the old ranks and reports
    whether some page moved by more than the tolerance. *)
Lemma pass_ok nc damping_factor factor r PR :
  uniq (keys nc) -> PR = [::] \/ keys PR = keys nc ->
  let new := update nc damping_factor factor r in
  pass nc damping_factor factor (table (keys nc) r) PR
  = Ok (table (keys nc) new, ~~ converged (keys nc) r new).
Proof.
move=> U HPR new; rewrite /pass.
rewrite (@for_ext _ _ _ (fun p st =>
  Ok (dict_set st.1 p (new p), (tolerance < `|new p - r p|) || st.2))).
  move=> p [PR' repeat] Hp; rewrite rank_sum_ok // bind_ok; cbv beta zeta.
  rewrite /getitem dict_get_set bind_ok (dict_get_map r) Hp bind_ok.
  rewrite -/(update nc damping_factor factor r p) -/new.
  by set c := (tolerance < _); case: c.
rewrite (for_pair (fun p (d : dict page rat) => dict_set d p (new p))
  (fun p b => (tolerance < `|new p - r p|) || b)).
by rewrite foldl_dict_set // foldl_orb orbF not_converged.
Qed.

Lemma copy_back_ok nc r' (old_PR : dict page rat) :
  uniq (keys nc) -> keys old_PR = keys nc ->
  copy_back nc (table (keys nc) r') old_PR = Ok (table (keys nc) r').
Proof.
move=> U Hk; rewrite /copy_back.
rewrite (@for_ext _ _ _ (fun p d => Ok (dict_set d p (r' p)))).
  by move=> p d Hp; rewrite /getitem (dict_get_map r') Hp.
by rewrite (for_dict_set r') //; right.
Qed.

(** One turn of the [while] loop: a pass, then either the return of the new
    ranks or a further turn in which the new ranks are the old ones. *)
Lemma iterate_loopS fuel nc damping_factor factor (old_PR PR : dict page rat) :
  iterate_loop fuel.+1 nc damping_factor factor old_PR PR
  = match pass nc damping_factor factor old_PR PR with
    | Raise e => Some (Raise e)
    | Ok (PR', repeat) =>
        if ~~ repeat then Some (Ok PR') else
        match copy_back nc PR' old_PR with
        | Raise e => Some (Raise e)
        | Ok old_PR' => iterate_loop fuel nc damping_factor factor old_PR' PR'
        end
    end.
Proof. by []. Qed.

Lemma iterate_loop_step fuel nc damping_factor factor r PR :
  uniq (keys nc) -> PR = [::] \/ keys PR = keys nc ->
  let new := update nc damping_factor factor r in
  iterate_loop fuel.+1 nc damping_factor factor (table (keys nc) r) PR
  = if converged (keys nc) r new then Some (Ok (table (keys nc) new))
    else iterate_loop fuel nc damping_factor factor
           (table (keys nc) new) (table (keys nc) new).
Proof.
move=> U HPR new; rewrite iterate_loopS pass_ok // -/new negbK.
case: (converged _ _ _) => //.
by rewrite copy_back_ok // /table keys_map.
Qed.

Lemma dict_get_mapv (V W : Type) (f : V -> W) (d : dict page V) p :
  dict_get [seq (kv.1, f kv.2) | kv <- d] p = omap f (dict_get d p).
Proof.
elim: d => [//|[k v] d IH] /=.
by case: eqP.
Qed.

Lemma iterate_pagerank_start fuel corpus damping_factor :
  uniq (keys corpus) -> (0 < size corpus)%N ->
  iterate_pagerank fuel corpus damping_factor
  = iterate_loop fuel (spec_fix_dangling corpus) damping_factor
      ((1 - damping_factor) / len corpus)
      (table (keys corpus) (fun=> 1 / len corpus)) [::].
Proof. by move=> U N0; rewrite /iterate_pagerank iterate_setup_ok. Qed.

(** C3. [iterate_pagerank] first builds a working corpus with the keys of
    the corpus, in which a page without links links to every page of the
    corpus (itself included) and the other pages keep their links, and
    gives every page the initial rank [1/N], where [N] is the number of
    pages; the loop starts from these. *)
Theorem iterate_setup_spec corpus damping_factor :
  uniq (keys corpus) -> (0 < size corpus)%N ->
  exists new_corpus old_PR factor,
    [/\ fix_dangling corpus = Ok new_corpus
        /\ iterate_setup corpus damping_factor = Ok (new_corpus, factor, old_PR),
        forall fuel,
          iterate_pagerank fuel corpus damping_factor
          = iterate_loop fuel new_corpus damping_factor factor old_PR [::],
        keys new_corpus = keys corpus,
        forall p links, dict_get corpus p = Some links ->
          dict_get new_corpus p
          = Some (if set_len links == 0%N then keys corpus else links)
      & old_PR = [seq (p, 1 / len corpus) | p <- keys corpus]].
Proof.
move=> U N0.
exists (spec_fix_dangling corpus), (table (keys corpus) (fun=> 1 / len corpus)),
  ((1 - damping_factor) / len corpus); split=> //.
- by rewrite fix_dangling_ok // iterate_setup_ok.
- by move=> fuel; exact: iterate_pagerank_start.
- exact: keys_fix_dangling.
- move=> p links Hp; rewrite /spec_fix_dangling.
  by rewrite (dict_get_mapv (fun l => if set_len l == 0%N then keys corpus else l)) Hp.
Qed.

(** C2. Every pass of [iterate_pagerank] computes, for every page, the
    rank [(1 - d)/N + d * sum], the sum being over the pages that link to
    it in the working corpus, of their old rank divided by the number of
    their links; only the old ranks are read.  If no page moved by more
    than the tolerance the new ranks are returned, otherwise the loop goes
    on with the new ranks as the old ones. *)
Theorem iterate_pass_spec corpus damping_factor r PR fuel :
  uniq (keys corpus) -> (0 < size corpus)%N ->
  PR = [::] \/ keys PR = keys corpus ->
  let nc := spec_fix_dangling corpus in
  let factor := (1 - damping_factor) / len corpus in
  let new := spec_new_rank corpus damping_factor r in
  [/\ iterate_pagerank fuel corpus damping_factor
      = iterate_loop fuel nc damping_factor factor
          (table (keys corpus) (fun=> 1 / len corpus)) [::],
      pass nc damping_factor factor (table (keys corpus) r) PR
      = Ok (table (keys corpus) new, ~~ converged (keys corpus) r new)
    & iterate_loop fuel.+1 nc damping_factor factor (table (keys corpus) r) PR
      = if converged (keys corpus) r new then Some (Ok (table (keys corpus) new))
        else iterate_loop fuel nc damping_factor factor
               (table (keys corpus) new) (table (keys corpus) new)].
Proof.
move=> U N0 HPR nc factor new.
have Unc : uniq (keys nc) by rewrite keys_fix_dangling.
have HPR' : PR = [::] \/ keys PR = keys nc by rewrite keys_fix_dangling.
split; first exact: iterate_pagerank_start.
  by rewrite -(keys_fix_dangling corpus) -/nc pass_ok.
by rewrite -(keys_fix_dangling corpus) -/nc iterate_loop_step.
Qed.

(** More fuel does not change what the loop returns. *)
Lemma iterate_loop_mono fuel k nc damping_factor factor
    (old_PR PR : dict page rat) res :
  iterate_loop fuel nc damping_factor factor old_PR PR = Some res ->
  iterate_loop (fuel + k) nc damping_factor factor old_PR PR = Some res.
Proof.
elim: fuel old_PR PR => [//|fuel IH] old_PR PR.
rewrite addSn !iterate_loopS.
case: (pass _ _ _ _ _) => [[PR' repeat]|//].
case: (~~ repeat) => //.
by case: (copy_back _ _ _) => [old'|//]; exact: IH.
Qed.

End IterateTheory.

(** ** Convergence of the iteration *)

Section Convergence.

Variable page : eqType.
Implicit Types (corpus nc : corpus_t page) (p q : page) (r : page -> rat).

Lemma count_links_le (ks : seq page) (l : pyset page) :
  uniq ks -> (count (fun q => q \in l) ks <= set_len l)%N.
Proof.
move=> U; rewrite -size_filter /set_len; apply: uniq_leq_size.
  exact: filter_uniq.
by move=> x; rewrite mem_filter mem_undup => /andP [].
Qed.

(** The share of a page's rank that reaches the pages of the corpus is at
    most the rank. *)
Lemma share_le (ks : seq page) (l : pyset page) (x : rat) :
  uniq ks -> 0 <= x ->
  \sum_(p <- ks | p \in l) x / (set_len l)%:R <= x.
Proof.
move=> U x0; rewrite big_const_seq iter_addr_0 -mulr_natr -mulrA.
rewrite -[X in _ <= X]mulr1; apply: ler_wpM2l => //.
have := count_links_le l U; case: (set_len l) => [|n] Hc.
  by rewrite invr0 mul0r.
by rewrite ler_pdivrMl ?ltr0n // mulr1 ler_nat.
Qed.

Lemma update_sub nc damping_factor factor r r' p :
  update nc damping_factor factor r' p - update nc damping_factor factor r p
  = damping_factor
    * \sum_(kv <- nc | p \in kv.2) (r' kv.1 - r kv.1) / (set_len kv.2)%:R.
Proof.
rewrite /update opprD addrACA subrr add0r -mulrBr -sumrB.
by congr (_ * _); apply: eq_bigr => kv _; rewrite mulrBl.
Qed.

(** The update rule does not increase the distance of two rank vectors by
    more than the damping factor. *)
Lemma update_contract nc damping_factor factor r r' :
  uniq (keys nc) -> 0 <= damping_factor ->
  dist (keys nc) (update nc damping_factor factor r)
                 (update nc damping_factor factor r')
  <= damping_factor * dist (keys nc) r r'.
Proof.
move=> U d0; rewrite /dist.
pose a (kv : page * pyset page) := `|r' kv.1 - r kv.1|.
have -> : \sum_(q <- keys nc) `|r' q - r q| = \sum_(kv <- nc) a kv.
  by rewrite /keys big_map.
apply: (@le_trans _ _ (\sum_(p <- keys nc)
          damping_factor * \sum_(kv <- nc | p \in kv.2) a kv / (set_len kv.2)%:R)).
  apply: ler_sum => p _; rewrite update_sub normrM ger0_norm //.
  apply: ler_wpM2l => //; apply: le_trans (ler_norm_sum _ _ _) _.
  apply: ler_sum => kv _.
  by rewrite normrM normfV normr_nat.
rewrite -mulr_sumr; apply: ler_wpM2l => //.
under eq_bigr do rewrite big_mkcond.
rewrite exchange_big /=; apply: ler_sum => kv _.
by rewrite -big_mkcond /=; apply: share_le => //; rewrite /a.
Qed.

Lemma dist_ge0 (ks : seq page) r r' : 0 <= dist ks r r'.
Proof. by apply: sumr_ge0 => p _. Qed.

Lemma all_le_dist (ks : seq page) r r' (eps : rat) :
  dist ks r r' <= eps -> all (fun p => `|r' p - r p| <= eps) ks.
Proof.
rewrite /dist; elim: ks => [//|k ks IH].
rewrite big_cons => H; apply/andP; split.
  by apply: le_trans H; rewrite lerDl; exact: (dist_ge0 ks r r').
by apply: IH; apply: le_trans H; rewrite lerDr.
Qed.

Lemma converged_dist (ks : seq page) r r' :
  dist ks r r' <= tolerance -> converged ks r r'.
Proof. exact: all_le_dist. Qed.

Lemma tolerance_gt0 : 0 < tolerance.
Proof. by vm_compute. Qed.

(** Powers of a factor below 1 fall below every positive bound. *)
Lemma bernoulli (d : rat) m :
  0 <= d <= 1 -> d ^+ m * (1 + m%:R * (1 - d)) <= 1.
Proof.
case/andP => d0 d1; elim: m => [|m IH]; first by rewrite expr0 mul0r addr0 mulr1.
have c0 : 0 <= 1 - d by rewrite subr_ge0.
have dm1 : d ^+ m.+1 <= 1 by apply: exprn_ile1.
have -> : d ^+ m.+1 * (1 + m.+1%:R * (1 - d))
          = d * (d ^+ m * (1 + m%:R * (1 - d))) + d ^+ m.+1 * (1 - d).
  by rewrite -natr1 mulrDl mul1r addrA mulrDr exprS mulrA.
apply: (@le_trans _ _ (d * 1 + 1 * (1 - d))); last first.
  by rewrite mulr1 mul1r addrC subrK.
by apply: lerD; [apply: ler_wpM2l | apply: ler_wpM2r].
Qed.

Lemma geometric_small (d D eps : rat) :
  0 <= d < 1 -> 0 <= D -> 0 < eps -> exists m, D * d ^+ m <= eps.
Proof.
case/andP => d0 d1 D0 e0.
have c0 : 0 < 1 - d by rewrite subr_gt0.
pose x := D / (eps * (1 - d)).
have x0 : 0 <= x by apply: divr_ge0 => //; apply/ltW/mulr_gt0.
exists (Num.truncn x).+1; set m := (Num.truncn x).+1.
have /andP [_ Hm] := truncn_itv x0.
have P0 : 0 < 1 + m%:R * (1 - d).
  by apply: ltr_wpDr => //; apply: mulr_ge0; rewrite ?ler0n // ltW.
have Hd : d ^+ m <= 1 / (1 + m%:R * (1 - d)).
  by rewrite ler_pdivlMr //; apply: bernoulli; rewrite d0 ltW.
apply: le_trans (ler_wpM2l D0 Hd) _.
rewrite mulrA mulr1 ler_pdivrMr // mulrDr mulr1.
apply: le_trans (_ : eps * (m%:R * (1 - d)) <= _); last by rewrite lerDr ltW.
by apply: ltW; move: Hm; rewrite /x ltr_pdivrMr ?mulr_gt0 // mulrCA.
Qed.

(** Once the distance between the old and the new ranks, shrunk [m] times
    by the damping factor, is within the tolerance, the loop returns. *)
Lemma iterate_loop_converges nc damping_factor factor m r PR :
  uniq (keys nc) -> 0 <= damping_factor ->
  PR = [::] \/ keys PR = keys nc ->
  dist (keys nc) r (update nc damping_factor factor r) * damping_factor ^+ m
    <= tolerance ->
  exists fuel old,
    iterate_loop fuel nc damping_factor factor (table (keys nc) r) PR
    = Some (Ok (table (keys nc) (update nc damping_factor factor old)))
    /\ converged (keys nc) old (update nc damping_factor factor old).
Proof.
move=> U d0; elim: m r PR => [|m IH] r PR HPR Hd.
  have C : converged (keys nc) r (update nc damping_factor factor r).
    by apply: converged_dist; rewrite expr0 mulr1 in Hd.
  by exists 1%N, r; rewrite iterate_loop_step // C.
case C: (converged (keys nc) r (update nc damping_factor factor r)).
  by exists 1%N, r; rewrite iterate_loop_step // C.
set r1 := update nc damping_factor factor r.
have [||fuel [old [E Hc]]] := IH r1 (table (keys nc) r1).
- by right; rewrite /table keys_map.
- apply: le_trans Hd; rewrite exprS mulrA; apply: ler_wpM2r.
    exact: exprn_ge0.
  by rewrite mulrC; apply: update_contract.
- by exists fuel.+1, old; rewrite iterate_loop_step // C.
Qed.

End Convergence.

(** ** The store: what the estimators write *)

Section HeapTheory.

Variable page : eqType.

Notation M := (Heap.M page).
Notation heap := (Heap.heap page).

Lemma readonly_ret A (a : A) : Heap.readonly (@Heap.ret page A a).
Proof. by []. Qed.

Lemma readonly_lift A (r : result A) : Heap.readonly (@Heap.lift page A r).
Proof. by []. Qed.

Lemma readonly_bind A B (m : M A) (k : A -> M B) :
  Heap.readonly m -> (forall a, Heap.readonly (k a)) ->
  Heap.readonly (Heap.mbind m k).
Proof.
move=> Hm Hk h; rewrite /Heap.mbind.
case E: (m h) (Hm h) => [h' [a|e]] /= -> //.
exact: Hk.
Qed.

Lemma readonly_mfor X S (xs : seq X) (body : X -> S -> M S) s :
  (forall x s', Heap.readonly (body x s')) -> Heap.readonly (Heap.mfor xs body s).
Proof.
move=> Hb; elim: xs s => [//|x xs IH] s /=.
by apply: readonly_bind.
Qed.

Lemma readonly_load_dict l : Heap.readonly (@Heap.load_dict page l).
Proof.
by move=> h; rewrite /Heap.load_dict; case: (nth _ h l) => [s|d] //; case: ifP.
Qed.

Lemma readonly_load_set l : Heap.readonly (@Heap.load_set page l).
Proof.
by move=> h; rewrite /Heap.load_set; case: (nth _ h l) => [s|d] //; case: ifP.
Qed.

Lemma readonly_lookup d k : Heap.readonly (@Heap.lookup page d k).
Proof.
by apply: readonly_bind => [|items]; [exact: readonly_load_dict | exact: readonly_lift].
Qed.

Lemma readonly_dict_keys d : Heap.readonly (@Heap.dict_keys page d).
Proof. by apply: readonly_bind => [|items]; [exact: readonly_load_dict|]. Qed.

Lemma readonly_dict_len d : Heap.readonly (@Heap.dict_len page d).
Proof. by apply: readonly_bind => [|items]; [exact: readonly_load_dict|]. Qed.

Lemma readonly_links_len d k : Heap.readonly (@Heap.links_len page d k).
Proof.
apply: readonly_bind => [|l]; first exact: readonly_lookup.
by apply: readonly_bind => [|s]; [exact: readonly_load_set|].
Qed.

Lemma readonly_links_mem d k q : Heap.readonly (@Heap.links_mem page d k q).
Proof.
apply: readonly_bind => [|l]; first exact: readonly_lookup.
by apply: readonly_bind => [|s]; [exact: readonly_load_set|].
Qed.

Lemma readonly_if A (b : bool) (m1 m2 : M A) :
  Heap.readonly m1 -> Heap.readonly m2 -> Heap.readonly (if b then m1 else m2).
Proof. by case: b. Qed.

Lemma readonly_transition_model corpus p damping_factor :
  Heap.readonly (@Heap.transition_model page corpus p damping_factor).
Proof.
apply: readonly_bind => [|n]; first exact: readonly_links_len.
apply: readonly_if.
  apply: readonly_bind => [|N]; first exact: readonly_dict_len.
  apply: readonly_bind => [|prob]; first exact: readonly_lift.
  apply: readonly_bind => [|ks]; first exact: readonly_dict_keys.
  by apply: readonly_mfor.
apply: readonly_bind => [|N]; first exact: readonly_dict_len.
apply: readonly_bind => [|prob_no_link]; first exact: readonly_lift.
apply: readonly_bind => [|n1]; first exact: readonly_links_len.
apply: readonly_bind => [|q]; first exact: readonly_lift.
apply: readonly_bind => [|ks]; first exact: readonly_dict_keys.
apply: readonly_mfor => dest_page prob_dist.
apply: readonly_bind => [|b]; first exact: readonly_links_mem.
by apply: readonly_if.
Qed.

Lemma readonly_sample_step corpus damping_factor inc rnd i st :
  Heap.readonly (@Heap.sample_step page corpus damping_factor inc rnd i st).
Proof.
case: st => PR p; rewrite /Heap.sample_step.
apply: readonly_bind => [|v]; first exact: readonly_lift.
apply: readonly_bind => [|pd]; first exact: readonly_transition_model.
by apply: readonly_bind => [|p']; first exact: readonly_lift.
Qed.

Lemma readonly_sample_pagerank corpus damping_factor n rnd :
  Heap.readonly (@Heap.sample_pagerank page corpus damping_factor n rnd).
Proof.
apply: readonly_bind => [|ks]; first exact: readonly_dict_keys.
apply: readonly_bind => [|PR]; first exact: readonly_mfor.
apply: readonly_bind => [|inc]; first exact: readonly_lift.
apply: readonly_bind => [|p]; first exact: readonly_lift.
apply: readonly_bind => [|st] //.
by apply: readonly_mfor => i st; exact: readonly_sample_step.
Qed.

Lemma readonly_rank_sum new_corpus old_PR p :
  Heap.readonly (@Heap.rank_sum page new_corpus old_PR p).
Proof.
apply: readonly_bind => [|ks]; first exact: readonly_dict_keys.
apply: readonly_mfor => origin_page sum.
apply: readonly_bind => [|b]; first exact: readonly_links_mem.
apply: readonly_if => //.
apply: readonly_bind => [|r]; first exact: readonly_lift.
apply: readonly_bind => [|n]; first exact: readonly_links_len.
by apply: readonly_bind => [|q]; first exact: readonly_lift.
Qed.

Lemma readonly_pass new_corpus damping_factor factor old_PR PR :
  Heap.readonly (@Heap.pass page new_corpus damping_factor factor old_PR PR).
Proof.
apply: readonly_bind => [|ks]; first exact: readonly_dict_keys.
apply: readonly_mfor => p [PR' repeat].
apply: readonly_bind => [|sum]; first exact: readonly_rank_sum.
apply: readonly_bind => [|new]; first exact: readonly_lift.
apply: readonly_bind => [|old]; first exact: readonly_lift.
by set c := (tolerance < _); case: c; exact: readonly_ret.
Qed.

Lemma readonly_copy_back new_corpus PR old_PR :
  Heap.readonly (@Heap.copy_back page new_corpus PR old_PR).
Proof.
apply: readonly_bind => [|ks]; first exact: readonly_dict_keys.
apply: readonly_mfor => p old_PR'.
by apply: readonly_bind => [|v]; first exact: readonly_lift.
Qed.

(** The loop of [iterate_pagerank] does not write to the store. *)
Lemma iterate_loop_store fuel new_corpus damping_factor factor old_PR PR (h : heap) :
  (Heap.iterate_loop fuel new_corpus damping_factor factor old_PR PR h).1 = h.
Proof.
elim: fuel old_PR PR => [//|fuel IH] old_PR PR /=.
have := readonly_pass new_corpus damping_factor factor old_PR PR h.
case: (Heap.pass _ _ _ _ _ _) => h1 [[PR' repeat]|e] /= -> //.
case: repeat => //=.
have := readonly_copy_back new_corpus PR' old_PR h.
by case: (Heap.copy_back _ _ _ _) => h2 [old'|e] /= -> //.
Qed.

Lemma frames_readonly A n0 (m : M A) :
  Heap.readonly m -> Heap.frames n0 m (fun _ => True).
Proof. by move=> Hm h Hh; rewrite Hm. Qed.

Lemma frames_weaken A n0 (m : M A) (Q : A -> Prop) :
  Heap.frames n0 m Q -> Heap.frames n0 m (fun _ => True).
Proof. by move=> Hm h /Hm []. Qed.

Lemma frames_bind A B n0 (m : M A) (k : A -> M B) (Q : A -> Prop) (R : B -> Prop) :
  Heap.frames n0 m Q -> (forall a, Q a -> Heap.frames n0 (k a) R) ->
  Heap.frames n0 (Heap.mbind m k) R.
Proof.
move=> Hm Hk h Hh; rewrite /Heap.mbind.
case E: (m h) (Hm h Hh) => [h1 [a|e]] /= [H1 H2 H3]; last by [].
have [K1 K2 K3] := Hk a (H3 a erefl) h1 H1.
by split=> //; rewrite K2.
Qed.

Lemma frames_mfor X S n0 (xs : seq X) (body : X -> S -> M S) s :
  (forall x s', Heap.frames n0 (body x s') (fun _ => True)) ->
  Heap.frames n0 (Heap.mfor xs body s) (fun _ => True).
Proof.
move=> Hb; elim: xs s => [|x xs IH] s /=; first by move=> h Hh.
by apply: frames_bind (Hb x s) _ => s' _.
Qed.

Lemma frames_alloc n0 (o : Heap.obj page) :
  Heap.frames n0 (Heap.alloc o) (fun l => (n0 <= l)%N).
Proof.
move=> h Hh; rewrite /Heap.alloc /=; split.
- by rewrite size_rcons leqW.
- by rewrite -cats1 takel_cat.
- by move=> a [<-].
Qed.

Lemma take_set_nth (T : Type) (x0 y : T) (s : seq T) n d :
  (n <= d)%N -> (n <= size s)%N -> take n (set_nth x0 s d y) = take n s.
Proof.
elim: s n d => [|x s IH] [|n] [|d] //= Hn Hs.
by rewrite IH.
Qed.

Lemma frames_store_item n0 d k v :
  (n0 <= d)%N -> Heap.frames n0 (@Heap.store_item page d k v) (fun _ => True).
Proof.
move=> Hd h Hh; rewrite /Heap.store_item /Heap.mbind.
case E: (Heap.load_dict d h) (readonly_load_dict d h) => [h1 [items|e]] /= E1;
  rewrite E1 //.
split=> //; last exact: take_set_nth.
by rewrite size_set_nth leq_max Hh orbT.
Qed.

(** Lines 122-125 write to new objects only. *)
Lemma frames_fix_dangling n0 corpus :
  Heap.frames n0 (@Heap.fix_dangling page corpus) (fun _ => True).
Proof.
rewrite /Heap.fix_dangling.
apply: frames_bind (@frames_readonly _ n0 _ (readonly_load_dict corpus)) _ => items _.
apply: frames_bind (@frames_alloc n0 _) _ => new_corpus Hnc.
apply: frames_bind (@frames_readonly _ n0 _ (readonly_dict_keys new_corpus)) _ => ks _.
apply: frames_bind (_ : Heap.frames n0 _ (fun _ => True)) _; last first.
  by move=> _ _; apply: frames_readonly.
apply: frames_mfor => p _.
apply: frames_bind (@frames_readonly _ n0 _ (readonly_links_len new_corpus p)) _ => n _.
case: ifP => _; last exact: frames_readonly.
apply: frames_bind (@frames_readonly _ n0 _ (readonly_dict_keys new_corpus)) _ => ps _.
apply: frames_bind (@frames_alloc n0 _) _ => l _.
exact: frames_store_item.
Qed.

Lemma frames_iterate_setup n0 corpus damping_factor :
  Heap.frames n0 (@Heap.iterate_setup page corpus damping_factor) (fun _ => True).
Proof.
rewrite /Heap.iterate_setup.
apply: frames_bind (@frames_fix_dangling n0 _) _ => new_corpus _.
apply: frames_readonly.
apply: readonly_bind => [|N]; first exact: readonly_dict_len.
apply: readonly_bind => [|v]; first exact: readonly_lift.
apply: readonly_bind => [|ks]; first exact: readonly_dict_keys.
apply: readonly_bind => [|old_PR]; first exact: readonly_mfor.
by apply: readonly_bind => [|factor]; first exact: readonly_lift.
Qed.

(** An object that a computation leaves alone is read as before. *)
Lemma nth_frame (h h' : heap) x0 l :
  take (size h) h' = h -> (l < size h)%N -> nth x0 h' l = nth x0 h l.
Proof. by move=> E Hl; rewrite -[in RHS]E nth_take. Qed.

Lemma snapshot_frame (h h' : heap) corpus c :
  take (size h) h' = h ->
  Heap.snapshot h corpus = Ok c -> Heap.snapshot h' corpus = Ok c.
Proof.
move=> E; have Hs : (size h <= size h')%N.
  by rewrite -{1}E size_take; case: ltnP => // /ltnW.
have Hd l d : Heap.load_dict l h = (h, Ok d) -> Heap.load_dict l h' = (h', Ok d).
  rewrite /Heap.load_dict; case Hl: (l < size h)%N; last first.
    by case: (nth _ h l).
  by rewrite (nth_frame _ E Hl) (leq_trans Hl Hs); case: (nth _ h l) => // d' [->].
have Hset l s : Heap.load_set l h = (h, Ok s) -> Heap.load_set l h' = (h', Ok s).
  rewrite /Heap.load_set; case Hl: (l < size h)%N; last first.
    by case: (nth _ h l).
  by rewrite (nth_frame _ E Hl) (leq_trans Hl Hs); case: (nth _ h l) => // d' [->].
rewrite /Heap.snapshot.
case E1: (Heap.load_dict corpus h) (readonly_load_dict corpus h)
  => [h1 [items|e]] //= E2; rewrite E2 in E1; rewrite (Hd _ _ E1).
elim: items {E1} c => [//|[k l] items IH] c /=.
case E3: (Heap.load_set l h) (readonly_load_set l h) => [h2 [s|e]] //= E4.
rewrite E4 in E3; rewrite (Hset _ _ E3).
by case E5: (Heap.read_items h items) => [c'|e] //=; rewrite (IH _ E5).
Qed.

(** C9. Neither estimator changes the corpus it is given.
    [sample_pagerank] leaves the store as it is.  [iterate_pagerank]
    leaves every object that existed before the call as it is (the corpus
    dict and every set of links among them): what it writes goes to the
    copy and to the sets it creates.  So the corpus read from the store
    after the call is the corpus read before. *)
Theorem estimators_preserve_corpus (h : heap) corpus damping_factor n rnd fuel :
  let h1 := (Heap.sample_pagerank corpus damping_factor n rnd h).1 in
  let h2 := (Heap.iterate_pagerank fuel corpus damping_factor h).1 in
  [/\ h1 = h, take (size h) h2 = h
    & forall c, Heap.snapshot h corpus = Ok c ->
        Heap.snapshot h1 corpus = Ok c /\ Heap.snapshot h2 corpus = Ok c].
Proof.
move=> h1 h2.
have E1 : h1 = h by exact: readonly_sample_pagerank.
have E2 : take (size h) h2 = h.
  rewrite /h2 /Heap.iterate_pagerank.
  have [] := @frames_iterate_setup (size h) corpus damping_factor h (leqnn _).
  case: (Heap.iterate_setup _ _ _) => h3 [[[nc factor] old_PR]|e] /= _;
    rewrite take_size //.
  by rewrite iterate_loop_store.
split=> // c Hc; split; first by rewrite E1.
exact: snapshot_frame Hc.
Qed.

End HeapTheory.

(** ** The programs on the store compute what the programs on values do *)

Section HeapRefinement.

Variable page : eqType.

Notation M := (Heap.M page).
Notation heap := (Heap.heap page).

Lemma runs_ret A (h : heap) (a : A) : Heap.runs h (Heap.ret a) (Ok a).
Proof. by []. Qed.

Lemma runs_lift A (h : heap) (r : result A) : Heap.runs h (Heap.lift r) r.
Proof. by []. Qed.

Lemma mbind_ok A B (h h' : heap) (m : M A) (k : A -> M B) a :
  m h = (h', Ok a) -> Heap.mbind m k h = k a h'.
Proof. by rewrite /Heap.mbind => ->. Qed.

Lemma runs_bind A B (h : heap) (m : M A) (k : A -> M B) r pk :
  Heap.runs h m r -> (forall a, Heap.runs h (k a) (pk a)) ->
  Heap.runs h (Heap.mbind m k) (bind r pk).
Proof.
rewrite /Heap.runs /Heap.mbind => -> Hk.
by case: r => [a|e] //=.
Qed.

Lemma runs_mfor X S (h : heap) (xs : seq X) (body : X -> S -> M S) pbody s :
  (forall x s', Heap.runs h (body x s') (pbody x s')) ->
  Heap.runs h (Heap.mfor xs body s) (for_ xs pbody s).
Proof.
move=> Hb; elim: xs s => [//|x xs IH] s /=.
exact: runs_bind.
Qed.

Lemma runs_if A (h : heap) (b : bool) (m1 m2 : M A) r1 r2 :
  Heap.runs h m1 r1 -> Heap.runs h m2 r2 ->
  Heap.runs h (if b then m1 else m2) (if b then r1 else r2).
Proof. by case: b. Qed.

Section Corpus.

Variables (h : heap) (corpus : Heap.loc) (c : corpus_t page).
Hypothesis Hsnap : Heap.snapshot h corpus = Ok c.

Lemma snapshot_items :
  exists2 items, Heap.load_dict corpus h = (h, Ok items)
               & Heap.read_items h items = Ok c.
Proof.
move: Hsnap; rewrite /Heap.snapshot.
case E: (Heap.load_dict corpus h) (readonly_load_dict corpus h)
  => [h1 [items|e]] //= E1 Hc.
by exists items => //; rewrite -E1.
Qed.

Lemma read_items_keys items c' :
  Heap.read_items h items = Ok c' -> keys items = keys c'.
Proof.
elim: items c' => [|[k l] items IH] c' /=; first by case=> <-.
case: (Heap.load_set l h) => h1 [s|e] //.
by case E: (Heap.read_items h items) => [c1|e] //= [<-] /=; rewrite (IH _ E).
Qed.

Lemma read_items_get items c' p :
  Heap.read_items h items = Ok c' ->
  Heap.runs h (Heap.mbind (Heap.lift (getitem items p)) (@Heap.load_set page))
    (getitem c' p).
Proof.
rewrite /Heap.runs /Heap.mbind /Heap.lift /getitem.
elim: items c' => [|[k l] items IH] c' /=; first by case=> <-.
case El: (Heap.load_set l h) (readonly_load_set l h) => [h1 [s|e]] //= Eh.
case E: (Heap.read_items h items) => [c1|e] //= [<-] /=.
case: eqP => _; first by rewrite El -Eh.
exact: IH.
Qed.

Lemma runs_dict_keys : Heap.runs h (Heap.dict_keys corpus) (Ok (keys c)).
Proof.
have [items E1 E2] := snapshot_items.
by rewrite /Heap.runs /Heap.dict_keys /Heap.mbind E1 /Heap.ret (read_items_keys E2).
Qed.

Lemma runs_dict_len : Heap.runs h (Heap.dict_len corpus) (Ok (len c)).
Proof.
have [items E1 E2] := snapshot_items.
rewrite /Heap.runs /Heap.dict_len /Heap.mbind E1 /Heap.ret /len.
by rewrite -(size_keys items) (read_items_keys E2) size_keys.
Qed.

(** Reading the links of a page. *)
Lemma runs_links A (k : pyset page -> M A) pk p :
  (forall s, Heap.runs h (k s) (pk s)) ->
  Heap.runs h
    (Heap.mbind (Heap.lookup corpus p) (fun l => Heap.mbind (Heap.load_set l) k))
    (bind (getitem c p) pk).
Proof.
move=> Hk; have [items E1 E2] := snapshot_items.
have := read_items_get p E2.
rewrite /Heap.runs /Heap.lookup /Heap.mbind E1 /Heap.lift.
case: (getitem items p) => [l|e] /=; last by move=> [<-].
case: (Heap.load_set l h) => h1 [s|e] [-> <-] //=.
exact: Hk.
Qed.

Lemma runs_links_len p :
  Heap.runs h (Heap.links_len corpus p)
    (let! s := getitem c p in Ok (set_len s)).
Proof. by apply: runs_links => s. Qed.

Lemma runs_links_mem p q :
  Heap.runs h (Heap.links_mem corpus p q)
    (let! s := getitem c p in Ok (q \in s)).
Proof. by apply: runs_links => s. Qed.

Lemma runs_transition_model p damping_factor :
  Heap.runs h (Heap.transition_model corpus p damping_factor)
    (transition_model c p damping_factor).
Proof.
have H : Heap.runs h (Heap.transition_model corpus p damping_factor)
  (let! n := (let! s := getitem c p in Ok (set_len s)) in
   if n == 0%N then
     let! N := Ok (len c) in
     let! prob := py_div 1 N in
     let! ks := Ok (keys c) in
     for_ ks (fun dest_page prob_dist => Ok (dict_set prob_dist dest_page prob)) [::]
   else
     let! N := Ok (len c) in
     let! prob_no_link := py_div (1 - damping_factor) N in
     let! n1 := (let! s := getitem c p in Ok (set_len s)) in
     let! q := py_div damping_factor n1%:R in
     let! ks := Ok (keys c) in
     for_ ks (fun dest_page prob_dist =>
       let! b := (let! s := getitem c p in Ok (dest_page \in s)) in
       if b then Ok (dict_set prob_dist dest_page (q + prob_no_link))
       else Ok (dict_set prob_dist dest_page prob_no_link)) [::]).
  apply: runs_bind (runs_links_len p) _ => n; apply: runs_if.
    apply: runs_bind runs_dict_len _ => N.
    apply: runs_bind (runs_lift _ _) _ => prob.
    apply: runs_bind runs_dict_keys _ => ks.
    by apply: runs_mfor => x s.
  apply: runs_bind runs_dict_len _ => N.
  apply: runs_bind (runs_lift _ _) _ => prob_no_link.
  apply: runs_bind (runs_links_len p) _ => n1.
  apply: runs_bind (runs_lift _ _) _ => q.
  apply: runs_bind runs_dict_keys _ => ks.
  apply: runs_mfor => x s.
  by apply: runs_bind (runs_links_mem p x) _ => b; apply: runs_if.
rewrite /Heap.runs H /transition_model; congr (_, _).
by case: (getitem c p).
Qed.

Lemma runs_sample_step damping_factor inc rnd i st :
  Heap.runs h (Heap.sample_step corpus damping_factor inc rnd i st)
    (sample_step c damping_factor inc rnd i st).
Proof.
case: st => PR p; rewrite /Heap.sample_step /sample_step.
apply: runs_bind (runs_lift _ _) _ => v.
apply: runs_bind (runs_transition_model _ _) _ => prob_dist.
by apply: runs_bind (runs_lift _ _) _ => p'.
Qed.

Lemma runs_sample_pagerank damping_factor n rnd :
  Heap.runs h (Heap.sample_pagerank corpus damping_factor n rnd)
    (sample_pagerank c damping_factor n rnd).
Proof.
have H : Heap.runs h (Heap.sample_pagerank corpus damping_factor n rnd)
  (let! ks := Ok (keys c) in
   let! PR := for_ ks (fun p PR => Ok (dict_set PR p 0)) [::] in
   let! inc := py_div 1 n%:~R in
   let! p := random_choice (keys PR) (rnd 0%N) in
   let! st := for_ (range n) (sample_step c damping_factor inc rnd) (PR, p) in
   Ok st.1).
  apply: runs_bind runs_dict_keys _ => ks.
  apply: runs_bind (runs_mfor _ _ _) _ => [p PR|PR] //.
  apply: runs_bind (runs_lift _ _) _ => inc.
  apply: runs_bind (runs_lift _ _) _ => p.
  apply: runs_bind (runs_mfor _ _ _) _ => [i st|st] //.
  exact: runs_sample_step.
by rewrite /Heap.runs H.
Qed.

Lemma runs_rank_sum old_PR p :
  Heap.runs h (Heap.rank_sum corpus old_PR p) (rank_sum c old_PR p).
Proof.
pose pbody origin_page (sum : rat) :=
  let! b := (let! s := getitem c origin_page in Ok (p \in s)) in
  if b then
    let! r := getitem old_PR origin_page in
    let! n := (let! s := getitem c origin_page in Ok (set_len s)) in
    let! q := py_div r n%:R in
    Ok (sum + q)
  else Ok sum.
have H : Heap.runs h (Heap.rank_sum corpus old_PR p)
           (let! ks := Ok (keys c) in for_ ks pbody 0).
  apply: runs_bind runs_dict_keys _ => ks.
  apply: runs_mfor => origin_page sum.
  apply: runs_bind (runs_links_mem _ _) _ => b; apply: runs_if => //.
  apply: runs_bind (runs_lift _ _) _ => r.
  apply: runs_bind (runs_links_len _) _ => n.
  by apply: runs_bind (runs_lift _ _) _ => q.
rewrite /Heap.runs H bind_ok /rank_sum; congr (_, _).
apply: for_ext => origin_page sum _; rewrite /pbody.
by case: (getitem c origin_page).
Qed.

Lemma runs_pass damping_factor factor old_PR PR :
  Heap.runs h (Heap.pass corpus damping_factor factor old_PR PR)
    (pass c damping_factor factor old_PR PR).
Proof.
rewrite /pass -[for_ _ _ _]/(bind (Ok (keys c)) (fun ks => for_ ks _ (PR, false))).
apply: runs_bind runs_dict_keys _ => ks.
apply: runs_mfor => p [PR' repeat].
apply: runs_bind (runs_rank_sum _ _) _ => sum.
apply: runs_bind (runs_lift _ _) _ => new.
apply: runs_bind (runs_lift _ _) _ => old.
by set b := (tolerance < _); case: b.
Qed.

Lemma runs_copy_back PR old_PR :
  Heap.runs h (Heap.copy_back corpus PR old_PR) (copy_back c PR old_PR).
Proof.
rewrite /copy_back -[for_ _ _ _]/(bind (Ok (keys c)) (fun ks => for_ ks _ old_PR)).
apply: runs_bind runs_dict_keys _ => ks.
apply: runs_mfor => p old_PR'.
by apply: runs_bind (runs_lift _ _) _ => v.
Qed.

Lemma runs_iterate_loop fuel damping_factor factor old_PR PR :
  Heap.iterate_loop fuel corpus damping_factor factor old_PR PR h
  = (h, iterate_loop fuel c damping_factor factor old_PR PR).
Proof.
elim: fuel old_PR PR => [//|fuel IH] old_PR PR.
rewrite iterate_loopS [LHS]/= runs_pass.
case: (pass _ _ _ _ _) => [[PR' repeat]|e] //.
case: repeat => //=; rewrite runs_copy_back.
by case: (copy_back _ _ _) => [old'|e].
Qed.

End Corpus.

(** *** The copy of lines 122-125 on the store *)

Lemma load_dict_nth (h : heap) l d :
  (l < size h)%N -> nth (Heap.SetObj [::]) h l = Heap.DictObj d ->
  Heap.load_dict l h = (h, Ok d).
Proof. by rewrite /Heap.load_dict => -> ->. Qed.

Lemma load_set_nth (h : heap) l s :
  (l < size h)%N -> nth (Heap.DictObj [::]) h l = Heap.SetObj s ->
  Heap.load_set l h = (h, Ok s).
Proof. by rewrite /Heap.load_set => -> ->. Qed.

Lemma load_set_inv (h : heap) l s :
  Heap.load_set l h = (h, Ok s) ->
  (l < size h)%N /\ forall x0, nth x0 h l = Heap.SetObj s.
Proof.
rewrite /Heap.load_set; case E: (nth _ h l) => [s'|d] //.
case: ifP => // Hl [<-]; split=> // x0.
by rewrite (set_nth_default (Heap.DictObj [::])).
Qed.

(** The sets stay readable when a dict object is overwritten and a new
    object is added. *)
Lemma load_set_stable (h : heap) nc d d' o l s :
  (nc < size h)%N -> nth (Heap.SetObj [::]) h nc = Heap.DictObj d ->
  let h' := set_nth (Heap.SetObj [::]) (rcons h o) nc (Heap.DictObj d') in
  Heap.load_set l h = (h, Ok s) -> Heap.load_set l h' = (h', Ok s).
Proof.
move=> Hnc End h' /load_set_inv [Hl Es]; rewrite /h' {h'}.
have Hne : l != nc.
  by apply/eqP => E; move: (Es (Heap.SetObj [::])); rewrite E End.
have Hsz : (l < size (set_nth (Heap.SetObj [::]) (rcons h o) nc (Heap.DictObj d')))%N.
  by rewrite size_set_nth size_rcons leq_max orbC ltnS (ltnW Hl).
apply: load_set_nth => //.
by rewrite (set_nth_default (Heap.SetObj [::])) // nth_set_nth /= (negbTE Hne) nth_rcons Hl.
Qed.

Lemma read_items_stable (h h' : heap) items c :
  (forall l s, Heap.load_set l h = (h, Ok s) -> Heap.load_set l h' = (h', Ok s)) ->
  Heap.read_items h items = Ok c -> Heap.read_items h' items = Ok c.
Proof.
move=> Hst; elim: items c => [//|[k l] items IH] c /=.
case E: (Heap.load_set l h) (readonly_load_set l h) => [h1 [s|e]] //= Eh.
rewrite Eh in E; rewrite (Hst _ _ E).
by case E1: (Heap.read_items h items) => [c1|e] //=; rewrite (IH _ E1).
Qed.

Lemma read_items_cat (h : heap) (i1 i2 : dict page Heap.loc) c1 c2 :
  Heap.read_items h i1 = Ok c1 -> Heap.read_items h i2 = Ok c2 ->
  Heap.read_items h (i1 ++ i2) = Ok (c1 ++ c2).
Proof.
elim: i1 c1 => [|[k l] i1 IH] c1 /=; first by case=> <-.
case: (Heap.load_set l h) => h1 [s|e] //.
case E: (Heap.read_items h i1) => [c|e] //= [<-] E2.
by rewrite (IH _ E E2).
Qed.

Lemma load_set_frame (h h' : heap) l s :
  take (size h) h' = h ->
  Heap.load_set l h = (h, Ok s) -> Heap.load_set l h' = (h', Ok s).
Proof.
move=> E /load_set_inv [Hl Es].
have Hs : (size h <= size h')%N.
  by rewrite -{1}E size_take; case: ltnP => // /ltnW.
by apply: load_set_nth; rewrite ?(leq_trans Hl) // (nth_frame _ E).
Qed.

Lemma heap_fix_loop (K : seq page) nc (h : heap) (i1 i2 : dict page Heap.loc) d1 d2 :
  (nc < size h)%N ->
  nth (Heap.SetObj [::]) h nc = Heap.DictObj (i1 ++ i2) ->
  Heap.read_items h i1 = Ok d1 -> Heap.read_items h i2 = Ok d2 ->
  uniq (keys i1 ++ keys i2) -> keys i1 ++ keys i2 = K ->
  exists h' items',
    [/\ Heap.mfor (keys i2) (fun p (_ : unit) =>
          Heap.mbind (Heap.links_len nc p) (fun n =>
            if n == 0%N then
              Heap.mbind (Heap.dict_keys nc) (fun all_pages =>
                Heap.mbind (Heap.alloc (Heap.SetObj all_pages)) (fun s =>
                  Heap.store_item nc p s))
            else Heap.ret tt)) tt h = (h', Ok tt),
        (nc < size h')%N,
        nth (Heap.SetObj [::]) h' nc = Heap.DictObj items'
      & Heap.read_items h' items'
        = Ok (d1 ++ [seq (kv.1, if set_len kv.2 == 0%N then K else kv.2) | kv <- d2])].
Proof.
elim: i2 h i1 d1 d2 => [|[p l] i2 IH] h i1 d1 d2 Hnc End Hd1 /=.
  by case=> <- _ _; exists h, i1; rewrite /= cats0; rewrite cats0 in End.
case El: (Heap.load_set l h) (readonly_load_set l h) => [h0 [s|e]] //= Eh.
rewrite {h0}Eh in El.
case Hd2: (Heap.read_items h i2) => [d2'|e] //= [<-] U EK.
have Hp : p \notin keys i1.
  by move: U; rewrite cat_uniq /= negb_or => /and3P [_ /andP [? _] _].
have Eld : Heap.load_dict nc h = (h, Ok (i1 ++ (p, l) :: i2)) by exact: load_dict_nth.
have Eget : getitem (i1 ++ (p, l) :: i2) p = Ok l.
  by rewrite /getitem dict_get_cat //= eqxx.
have Elen : Heap.links_len nc p h = (h, Ok (set_len s)).
  by rewrite /Heap.links_len /Heap.lookup /Heap.mbind Eld /Heap.lift Eget El.
have Hkeys v : keys (i1 ++ [:: (p, v)]) ++ keys i2 = keys i1 ++ p :: keys i2.
  by rewrite keys_cat -catA.
have Hone (h1 : heap) v w : Heap.load_set v h1 = (h1, Ok w) ->
    Heap.read_items h1 [:: (p, v)] = Ok [:: (p, w)].
  by move=> /= ->.
case L0: (set_len s == 0%N); last first.
  have [||||h' [items' [E1 E2 E3 E4]]] :=
    IH h (i1 ++ [:: (p, l)]) (d1 ++ [:: (p, s)]) d2' Hnc _ _ Hd2.
  - by rewrite -catA.
  - exact: read_items_cat Hd1 (Hone _ _ _ El).
  - by rewrite Hkeys.
  - by rewrite Hkeys.
  - exists h', items'; split=> //; last by rewrite E4 -catA /= L0.
    by rewrite (mbind_ok _ (h' := h) (a := tt)) // (mbind_ok _ Elen) L0.
have Ekeys : Heap.dict_keys nc h = (h, Ok K).
  by rewrite /Heap.dict_keys /Heap.mbind Eld /Heap.ret -EK keys_cat.
pose h1 := rcons h (Heap.SetObj K).
have Eld1 : Heap.load_dict nc h1 = (h1, Ok (i1 ++ (p, l) :: i2)).
  apply: load_dict_nth; first by rewrite size_rcons ltnW.
  by rewrite nth_rcons Hnc.
pose h2 := set_nth (Heap.SetObj [::]) h1 nc (Heap.DictObj (i1 ++ (p, size h) :: i2)).
have Estore : Heap.store_item nc p (size h) h1 = (h2, Ok tt).
  by rewrite /Heap.store_item /Heap.mbind Eld1 dict_set_cat //= eqxx.
have Hst l' s' : Heap.load_set l' h = (h, Ok s') -> Heap.load_set l' h2 = (h2, Ok s').
  exact: load_set_stable End.
have Hsz2 : (size h < size h2)%N.
  by rewrite size_set_nth size_rcons leq_max orbC ltnS leqnn.
have Enew : Heap.load_set (size h) h2 = (h2, Ok K).
  apply: load_set_nth => //.
  rewrite (set_nth_default (Heap.SetObj [::])) // nth_set_nth /=.
  by rewrite gtn_eqF // nth_rcons ltnn eqxx.
have [||||||h' [items' [E1 E2 E3 E4]]] :=
  IH h2 (i1 ++ [:: (p, size h)]) (d1 ++ [:: (p, K)]) d2'.
- exact: ltn_trans Hnc Hsz2.
- by rewrite nth_set_nth /= eqxx -catA.
- exact: read_items_cat (read_items_stable Hst Hd1) (Hone _ _ _ Enew).
- exact: read_items_stable Hst Hd2.
- by rewrite Hkeys.
- by rewrite Hkeys.
- exists h', items'; split=> //; last by rewrite E4 -catA /= L0.
  rewrite (mbind_ok _ (h' := h2) (a := tt)) //.
  by rewrite (mbind_ok _ Elen) L0 (mbind_ok _ Ekeys) (mbind_ok _ (erefl : Heap.alloc _ h = (h1, Ok (size h)))).
Qed.

(** Lines 122-125 on the store: the new dict object holds the working
    corpus, and the objects of the caller are as before. *)
Lemma heap_fix_dangling (h : heap) corpus c :
  Heap.snapshot h corpus = Ok c -> uniq (keys c) ->
  exists h' nc,
    [/\ Heap.fix_dangling corpus h = (h', Ok nc),
        Heap.snapshot h' nc = Ok (spec_fix_dangling c)
      & take (size h) h' = h].
Proof.
move=> Hsnap U; have [items E1 E2] := snapshot_items Hsnap.
have Ek := read_items_keys E2.
pose h1 := rcons h (Heap.DictObj items).
have Eh1 : take (size h) h1 = h by rewrite /h1 -cats1 take_size_cat.
have Hnc : (size h < size h1)%N by rewrite size_rcons.
have End : nth (Heap.SetObj [::]) h1 (size h) = Heap.DictObj ([::] ++ items).
  by rewrite nth_rcons ltnn eqxx.
have E3 : Heap.read_items h1 items = Ok c.
  exact: read_items_stable (fun l s => @load_set_frame h h1 l s Eh1) E2.
have [||h' [items' [L1 L2 L3 L4]]] :=
  @heap_fix_loop (keys c) (size h) h1 [::] items [::] c Hnc End erefl E3.
- by rewrite Ek.
- by rewrite Ek.
have Ekeys1 : Heap.dict_keys (size h) h1 = (h1, Ok (keys items)).
  by rewrite /Heap.dict_keys (mbind_ok _ (load_dict_nth Hnc End)).
have Efix : Heap.fix_dangling corpus h = (h', Ok (size h)).
  rewrite /Heap.fix_dangling (mbind_ok _ E1).
  rewrite (mbind_ok _ (erefl : Heap.alloc _ h = (h1, Ok (size h)))).
  by rewrite (mbind_ok _ Ekeys1) (mbind_ok _ L1).
exists h', (size h); split=> //.
  by rewrite /Heap.snapshot (load_dict_nth L2 L3).
have [] := @frames_fix_dangling _ (size h) corpus h (leqnn _).
by rewrite Efix /= take_size.
Qed.

(** What the programs on the store return is what the programs on values
    return for the corpus that the store holds. *)
Lemma store_programs_agree (h : heap) corpus c p damping_factor n rnd fuel :
  Heap.snapshot h corpus = Ok c ->
  [/\ Heap.transition_model corpus p damping_factor h
      = (h, transition_model c p damping_factor),
      Heap.sample_pagerank corpus damping_factor n rnd h
      = (h, sample_pagerank c damping_factor n rnd)
    & uniq (keys c) ->
      (Heap.iterate_pagerank fuel corpus damping_factor h).2
      = iterate_pagerank fuel c damping_factor].
Proof.
move=> Hsnap; split.
- exact: runs_transition_model.
- exact: runs_sample_pagerank.
move=> U; have [h' [nc [Efix Hnc Eh]]] := heap_fix_dangling Hsnap U.
have Hc : Heap.snapshot h' corpus = Ok c by exact: snapshot_frame Eh Hsnap.
have Hkeys := runs_dict_keys Hnc; rewrite keys_fix_dangling in Hkeys.
rewrite /Heap.iterate_pagerank /iterate_pagerank /Heap.iterate_setup /iterate_setup.
rewrite (mbind_ok _ Efix) (mbind_ok _ (runs_dict_len Hc)) fix_dangling_ok // bind_ok.
rewrite {1}/Heap.mbind /Heap.lift; case: (py_div 1 (len c)) => [v|e] //=.
rewrite (mbind_ok _ Hkeys).
have Emfor : Heap.mfor (keys c) (fun p0 old_PR => Heap.ret (dict_set old_PR p0 v)) [::] h'
             = (h', Ok (foldl (fun d k => dict_set d k v) [::] (keys c))).
  by rewrite -for_pure; apply: runs_mfor.
rewrite (mbind_ok _ Emfor) /init_rank keys_fix_dangling for_pure bind_ok.
rewrite {1}/Heap.mbind.
case: (py_div (1 - damping_factor) (len c)) => [factor|e] //=.
by rewrite (runs_iterate_loop Hnc).
Qed.

End HeapRefinement.

(** ** Inputs outside the preconditions *)

Section ErrorTheory.

Variable page : eqType.
Implicit Types (corpus : corpus_t page) (p : page).

Lemma transition_model_empty p damping_factor :
  transition_model ([::] : corpus_t page) p damping_factor = Raise KeyError.
Proof. by []. Qed.

Lemma sample_pagerank_empty damping_factor (n : int) rnd :
  sample_pagerank ([::] : corpus_t page) damping_factor n rnd
  = if n == 0 then Raise ZeroDivisionError else Raise IndexError.
Proof.
rewrite /sample_pagerank /sample_init [for_ _ _ _]/= bind_ok /py_div intr_eq0.
by case: eqP.
Qed.

Lemma iterate_pagerank_empty fuel damping_factor :
  iterate_pagerank fuel ([::] : corpus_t page) damping_factor
  = Some (Raise ZeroDivisionError).
Proof.
rewrite /iterate_pagerank /iterate_setup /fix_dangling [for_ _ _ _]/= bind_ok.
by rewrite /py_div /len /=.
Qed.

Lemma sample_pagerank_zero corpus damping_factor rnd :
  sample_pagerank corpus damping_factor 0 rnd = Raise ZeroDivisionError.
Proof.
by rewrite /sample_pagerank /sample_init for_pure bind_ok /py_div eqxx.
Qed.

Lemma sample_pagerank_neg corpus damping_factor (n : int) rnd :
  uniq (keys corpus) -> (0 < size corpus)%N -> n < 0 ->
  sample_pagerank corpus damping_factor n rnd
  = Ok (table (keys corpus) (fun=> 0)).
Proof.
move=> U N0 Hn; rewrite /sample_pagerank sample_init_ok // bind_ok.
have -> : py_div 1 n%:~R = Ok (1 / n%:~R).
  by rewrite /py_div intr_eq0; case: eqP Hn => // ->.
rewrite bind_ok /tally keys_map.
have [|p0 -> _] := @random_choice_in _ (keys corpus) (rnd 0%N).
  by rewrite size_keys.
by rewrite bind_ok; case: n Hn.
Qed.

(** C6 (amended). The functions check nothing.  An empty corpus makes each
    of them raise ([KeyError], [IndexError] or [ZeroDivisionError]) and
    [n = 0] makes [sample_pagerank] raise [ZeroDivisionError].  On a corpus
    with a page no division is by zero: whatever the damping factor and
    the targets of the links, [transition_model] returns a distribution
    for every page of the corpus and every pass of [iterate_pagerank]
    completes; and [sample_pagerank] with [n < 0] returns the weight 0
    for every page. *)
Theorem unchecked_preconditions corpus p damping_factor (n : int) rnd fuel :
  uniq (keys corpus) -> p \in keys corpus ->
  [/\ [/\ transition_model ([::] : corpus_t page) p damping_factor = Raise KeyError,
          sample_pagerank ([::] : corpus_t page) damping_factor n rnd
          = (if n == 0 then Raise ZeroDivisionError else Raise IndexError)
        & iterate_pagerank fuel ([::] : corpus_t page) damping_factor
          = Some (Raise ZeroDivisionError)],
      sample_pagerank corpus damping_factor 0 rnd = Raise ZeroDivisionError,
      n < 0 -> sample_pagerank corpus damping_factor n rnd
               = Ok (table (keys corpus) (fun=> 0)),
      exists prob_dist, transition_model corpus p damping_factor = Ok prob_dist
    & forall r PR, PR = [::] \/ keys PR = keys corpus ->
        exists st,
          pass (spec_fix_dangling corpus) damping_factor
            ((1 - damping_factor) / len corpus) (table (keys corpus) r) PR
          = Ok st].
Proof.
move=> U Hp; have N0 : (0 < size corpus)%N.
  by rewrite -(size_keys corpus); case: (keys corpus) Hp.
split.
- split; [exact: transition_model_empty | exact: sample_pagerank_empty
         | exact: iterate_pagerank_empty].
- exact: sample_pagerank_zero.
- exact: sample_pagerank_neg.
- have [links Hl] := dict_get_in Hp.
  by eexists; exact: (transition_model_table damping_factor U Hl).
- move=> r PR HPR; eexists.
  rewrite -(keys_fix_dangling corpus); apply: pass_ok.
    by rewrite keys_fix_dangling.
  by rewrite keys_fix_dangling.
Qed.

End ErrorTheory.

(** ** The examples *)

Lemma valid_corpus_ab : valid corpus_ab.
Proof. by []. Qed.

Lemma valid_corpus_cycle : valid corpus_cycle.
Proof. by []. Qed.

(** The first pass on the cycle, and the two passes that follow each other
    for ever when the damping factor is 1. *)
Lemma cycle_setup :
  iterate_setup corpus_cycle 1 = Ok (corpus_cycle, 0, cycle_start).
Proof. by apply/eqP; vm_compute. Qed.

Lemma cycle_pass_start :
  pass corpus_cycle 1 0 cycle_start [::] = Ok (cycle_odd, true).
Proof. by apply/eqP; vm_compute. Qed.

Lemma cycle_pass_odd :
  pass corpus_cycle 1 0 cycle_odd cycle_odd = Ok (cycle_even, true).
Proof. by apply/eqP; vm_compute. Qed.

Lemma cycle_pass_even :
  pass corpus_cycle 1 0 cycle_even cycle_even = Ok (cycle_odd, true).
Proof. by apply/eqP; vm_compute. Qed.

Lemma cycle_copy_start :
  copy_back corpus_cycle cycle_odd cycle_start = Ok cycle_odd.
Proof. by apply/eqP; vm_compute. Qed.

Lemma cycle_copy_odd :
  copy_back corpus_cycle cycle_even cycle_odd = Ok cycle_even.
Proof. by apply/eqP; vm_compute. Qed.

Lemma cycle_copy_even :
  copy_back corpus_cycle cycle_odd cycle_even = Ok cycle_odd.
Proof. by apply/eqP; vm_compute. Qed.

Lemma cycle_loop fuel :
  iterate_loop fuel corpus_cycle 1 0 cycle_odd cycle_odd = None
  /\ iterate_loop fuel corpus_cycle 1 0 cycle_even cycle_even = None.
Proof.
elim: fuel => [//|fuel [IH1 IH2]]; rewrite !iterate_loopS.
rewrite cycle_pass_odd cycle_pass_even [negb _]/=.
by rewrite cycle_copy_odd cycle_copy_even.
Qed.


(** C6, counterexample.  A damping factor of 2, a link that leaves the
    corpus and a negative sample count raise nothing: the functions return
    a negative probability, a distribution whose sum is 1/2, and the
    weight 0 for every page. *)
Lemma precondition_violations_unreported :
  [/\ valid corpus_ab /\ ~~ (0 <= (2%:R : rat) <= 1),
      transition_model corpus_ab pA 2%:R
      = Ok [:: (pA, - half); (pB, 3%:R / 2%:R)],
      ~~ closed corpus_open
      /\ transition_model corpus_open pA half = Ok [:: (pA, half)]
    & sample_pagerank corpus_ab half (-1) id = Ok [:: (pA, 0); (pB, 0)]].
Proof.
by split; [| apply/eqP; vm_compute | split; [| apply/eqP; vm_compute]
          | apply/eqP; vm_compute].
Qed.

(** *** The theorems at work *)

Lemma transition_model_spec_witness :
  [/\ uniq (keys corpus_ab), dict_get corpus_ab pA = Some [:: pB]
    & transition_model corpus_ab pA half
      = Ok [seq (q, spec_transition corpus_ab [:: pB] half q) | q <- keys corpus_ab]].
Proof.
split; [reflexivity | reflexivity | apply: transition_model_spec; reflexivity].
Defined.

Lemma transition_model_distribution_witness :
  [/\ valid corpus_ab, pA \in keys corpus_ab
    & exists prob_dist,
        [/\ transition_model corpus_ab pA half = Ok prob_dist,
            keys prob_dist = keys corpus_ab
          & \sum_(v <- values prob_dist) v = 1]].
Proof.
split; [reflexivity | reflexivity
       | apply: transition_model_distribution; reflexivity].
Defined.

Lemma sample_pagerank_spec_witness :
  [/\ valid corpus_ab, (1 : int) <= 2
    & exists PR walk,
        [/\ sample_pagerank corpus_ab half 2 id = Ok PR,
            keys PR = keys corpus_ab,
            size walk = `|2 : int|%N /\ all (fun q => q \in keys corpus_ab) walk,
            PR = [seq (q, (count_mem q walk)%:R / (2 : int)%:~R) | q <- keys corpus_ab]
          & \sum_(v <- values PR) v = 1]].
Proof.
split; [reflexivity | reflexivity | apply: sample_pagerank_spec; reflexivity].
Defined.

Lemma sample_pages_in_corpus_witness :
  [/\ valid corpus_ab, (1 : int) <= 2, (1 < `|2 : int|)%N
    & exists PR0 inc p0,
        [/\ sample_init corpus_ab = Ok PR0,
            py_div 1 (2 : int)%:~R = Ok inc,
            random_choice (keys PR0) (id 0%N) = Ok p0,
            p0 \in keys corpus_ab
          & exists PR p links prob_dist,
              [/\ sample_loop corpus_ab half inc id PR0 p0 (take 1 (range 2))
                  = Ok (PR, p),
                  sample_loop corpus_ab half inc id PR0 p0 (range 2)
                  = for_ (drop 1 (range 2)) (sample_step corpus_ab half inc id) (PR, p),
                  p \in keys corpus_ab,
                  getitem corpus_ab p = Ok links
                & transition_model corpus_ab p half = Ok prob_dist]]].
Proof.
split; [reflexivity | reflexivity | reflexivity
       | apply: sample_pages_in_corpus; reflexivity].
Defined.

Lemma iterate_setup_spec_witness :
  [/\ uniq (keys corpus_ab), (0 < size corpus_ab)%N
    & exists new_corpus old_PR factor,
        [/\ fix_dangling corpus_ab = Ok new_corpus
            /\ iterate_setup corpus_ab half = Ok (new_corpus, factor, old_PR),
            forall fuel,
              iterate_pagerank fuel corpus_ab half
              = iterate_loop fuel new_corpus half factor old_PR [::],
            keys new_corpus = keys corpus_ab,
            forall p links, dict_get corpus_ab p = Some links ->
              dict_get new_corpus p
              = Some (if set_len links == 0%N then keys corpus_ab else links)
          & old_PR = [seq (p, 1 / len corpus_ab) | p <- keys corpus_ab]]].
Proof.
split; [reflexivity | reflexivity | apply: iterate_setup_spec; reflexivity].
Defined.

Lemma iterate_pass_spec_witness :
  [/\ uniq (keys corpus_ab), (0 < size corpus_ab)%N,
      ([::] : dict string rat) = [::] \/ keys ([::] : dict string rat) = keys corpus_ab
    & let nc := spec_fix_dangling corpus_ab in
      let factor := (1 - half) / len corpus_ab in
      let new := spec_new_rank corpus_ab half (fun=> half) in
      [/\ iterate_pagerank 0 corpus_ab half
          = iterate_loop 0 nc half factor
              (table (keys corpus_ab) (fun=> 1 / len corpus_ab)) [::],
          pass nc half factor (table (keys corpus_ab) (fun=> half)) [::]
          = Ok (table (keys corpus_ab) new,
                ~~ converged (keys corpus_ab) (fun=> half) new)
        & iterate_loop 1 nc half factor (table (keys corpus_ab) (fun=> half)) [::]
          = if converged (keys corpus_ab) (fun=> half) new
            then Some (Ok (table (keys corpus_ab) new))
            else iterate_loop 0 nc half factor
                   (table (keys corpus_ab) new) (table (keys corpus_ab) new)]].
Proof.
split; [reflexivity | reflexivity | by left
       | apply: iterate_pass_spec; [reflexivity | reflexivity | by left]].
Defined.

Lemma unchecked_preconditions_witness :
  [/\ uniq (keys corpus_ab), pA \in keys corpus_ab
    & [/\ [/\ transition_model ([::] : corpus_t string) pA 2%:R = Raise KeyError,
              sample_pagerank ([::] : corpus_t string) 2%:R (-1) id
              = (if (-1 : int) == 0 then Raise ZeroDivisionError else Raise IndexError)
            & iterate_pagerank 1 ([::] : corpus_t string) 2%:R
              = Some (Raise ZeroDivisionError)],
          sample_pagerank corpus_ab 2%:R 0 id = Raise ZeroDivisionError,
          (-1 : int) < 0 -> sample_pagerank corpus_ab 2%:R (-1) id
                   = Ok (table (keys corpus_ab) (fun=> 0)),
          exists prob_dist, transition_model corpus_ab pA 2%:R = Ok prob_dist
        & forall r PR, PR = [::] \/ keys PR = keys corpus_ab ->
            exists st,
              pass (spec_fix_dangling corpus_ab) 2%:R
                ((1 - 2%:R) / len corpus_ab) (table (keys corpus_ab) r) PR
              = Ok st]].
Proof.
split; [reflexivity | reflexivity | apply: unchecked_preconditions; reflexivity].
Defined.

Lemma estimators_preserve_corpus_witness :
  [/\ Heap.snapshot store_ab 2 = Ok corpus_ab,
      (Heap.sample_pagerank 2 half 2 id store_ab).1 = store_ab,
      take 3 (Heap.iterate_pagerank 3 2 half store_ab).1 = store_ab
    & Heap.snapshot (Heap.iterate_pagerank 3 2 half store_ab).1 2 = Ok corpus_ab].
Proof.
have [E1 E2 H] := estimators_preserve_corpus store_ab 2 half 2 id 3.
by split; [reflexivity | exact: E1 | exact: E2 | case: (H corpus_ab erefl)].
Defined.

(** ** More on [transition_model] *)

Section TransitionBounds.

Variable page : eqType.
Implicit Types (corpus : corpus_t page) (p q : page) (links : pyset page).

Lemma transition_model_missing corpus p damping_factor :
  p \notin keys corpus -> transition_model corpus p damping_factor = Raise KeyError.
Proof.
rewrite dict_get_keys /transition_model /getitem.
by case: (dict_get corpus p).
Qed.

(** X1. [transition_model] raises [KeyError] when the page is not a key of
    the corpus, and raises nothing else: on a page of the corpus it
    returns, whatever the damping factor and the links. *)
Theorem transition_model_raises corpus p damping_factor :
  uniq (keys corpus) ->
  [/\ p \notin keys corpus ->
      transition_model corpus p damping_factor = Raise KeyError
    & forall e, transition_model corpus p damping_factor = Raise e ->
        e = KeyError /\ p \notin keys corpus].
Proof.
move=> U; split; first exact: transition_model_missing.
move=> e; case Hp: (p \in keys corpus).
  have [links Hl] := dict_get_in Hp.
  by rewrite (transition_model_table damping_factor U Hl).
by rewrite transition_model_missing ?Hp // => -[<-].
Qed.

Lemma div_nat_le (x : rat) (n : nat) : 0 <= x -> (0 < n)%N -> x / n%:R <= x.
Proof.
move=> x0 n0; rewrite ler_pdivrMr ?ltr0n //.
by apply: ler_peMr => //; rewrite ler1n.
Qed.

Lemma spec_transition_range corpus links damping_factor p q :
  0 <= damping_factor <= 1 -> p \in keys corpus ->
  0 <= spec_transition corpus links damping_factor q <= 1.
Proof.
case/andP => d0 d1 Hp; rewrite /spec_transition /len.
have N0 : (0 < size corpus)%N by rewrite -(size_keys corpus); case: (keys corpus) Hp.
have c0 : 0 <= 1 - damping_factor by rewrite subr_ge0.
case: ifPn => L0.
  by rewrite divr_ge0 ?ler0n // div_nat_le.
rewrite -lt0n in L0.
have H1 : 0 <= (1 - damping_factor) / (size corpus)%:R by rewrite divr_ge0 ?ler0n.
have H2 : 0 <= damping_factor / (set_len links)%:R by rewrite divr_ge0 ?ler0n.
apply/andP; split; first by case: ifP => _; rewrite ?addr0 // addr_ge0.
apply: (@le_trans _ _ ((1 - damping_factor) + damping_factor)); last first.
  by rewrite subrK.
apply: lerD; first exact: div_nat_le.
by case: ifP => _ //; exact: div_nat_le.
Qed.

(** X2. For a damping factor in [0,1], every probability that
    [transition_model] returns is between 0 and 1, and the probabilities sum
    to at most 1: also when links leave the corpus, whose share is then
    lost. *)
Theorem transition_model_bounds corpus p damping_factor prob_dist :
  uniq (keys corpus) -> 0 <= damping_factor <= 1 ->
  transition_model corpus p damping_factor = Ok prob_dist ->
  all (fun v => 0 <= v <= 1) (values prob_dist)
  /\ \sum_(v <- values prob_dist) v <= 1.
Proof.
move=> U Hd; case Hp: (p \in keys corpus); last first.
  by rewrite transition_model_missing ?Hp.
have [links Hl] := dict_get_in Hp.
rewrite (transition_model_table damping_factor U Hl) => -[<-].
rewrite (values_map (spec_transition corpus links damping_factor)).
split.
  by rewrite all_map; apply/allP => q _ /=; exact: spec_transition_range Hd Hp.
case/andP: Hd => d0 d1.
have N0 := len_neq0 Hp.
have sum_const (a : rat) : \sum_(q <- keys corpus) a / len corpus = a.
  rewrite big_const_seq count_predT iter_addr_0 size_keys -mulr_natr.
  by rewrite -mulrA mulVf // mulr1.
rewrite big_map /spec_transition.
case L0: (set_len links == 0%N); first by rewrite sum_const.
rewrite big_split /= sum_const -big_mkcond /=.
apply: (@le_trans _ _ ((1 - damping_factor) + damping_factor)); last first.
  by rewrite subrK.
by rewrite lerD2l; exact: share_le.
Qed.

End TransitionBounds.

(** ** More on [iterate_pagerank] *)

Section IterateInvariants.

Variable page : eqType.
Implicit Types (corpus nc : corpus_t page) (p q : page) (r : page -> rat).

(** A property of the rank vectors that the update rule keeps holds of the
    vector whose update the loop returns. *)
Lemma iterate_loop_inv (Inv : (page -> rat) -> Prop) fuel nc damping_factor
    factor r PR res :
  uniq (keys nc) -> PR = [::] \/ keys PR = keys nc ->
  (forall r', Inv r' -> Inv (update nc damping_factor factor r')) -> Inv r ->
  iterate_loop fuel nc damping_factor factor (table (keys nc) r) PR = Some res ->
  exists old,
    [/\ Inv old,
        res = Ok (table (keys nc) (update nc damping_factor factor old))
      & converged (keys nc) old (update nc damping_factor factor old)].
Proof.
move=> U HPR Hstep; elim: fuel r PR HPR => [//|fuel IH] r PR HPR Hr.
rewrite iterate_loop_step //.
case C: (converged _ _ _); first by case=> <-; exists r.
apply: IH; last exact: Hstep.
by right; rewrite /table keys_map.
Qed.

Lemma iterate_pagerank_inv (Inv : (page -> rat) -> Prop) fuel corpus
    damping_factor res :
  uniq (keys corpus) -> (0 < size corpus)%N ->
  (forall r', Inv r' -> Inv (spec_new_rank corpus damping_factor r')) ->
  Inv (fun=> 1 / len corpus) ->
  iterate_pagerank fuel corpus damping_factor = Some res ->
  exists old,
    [/\ Inv old,
        res = Ok (table (keys corpus) (spec_new_rank corpus damping_factor old))
      & converged (keys corpus) old (spec_new_rank corpus damping_factor old)].
Proof.
move=> U N0 Hstep H0; rewrite iterate_pagerank_start //.
rewrite -(keys_fix_dangling corpus) => E.
have Unc : uniq (keys (spec_fix_dangling corpus)) by rewrite keys_fix_dangling.
exact: (iterate_loop_inv Unc (or_introl erefl) Hstep H0 E).
Qed.

(** X3. On a corpus with at least one page [iterate_pagerank] raises
    nothing, whatever the damping factor and the link targets: when it
    returns, it returns ranks for exactly the pages of the corpus, and they
    are the update of a rank vector that they differ from by at most the
    tolerance on every page. *)
Theorem iterate_pagerank_returns_converged fuel corpus damping_factor res :
  uniq (keys corpus) -> (0 < size corpus)%N ->
  iterate_pagerank fuel corpus damping_factor = Some res ->
  exists PR old,
    [/\ res = Ok PR, keys PR = keys corpus,
        PR = table (keys corpus) (spec_new_rank corpus damping_factor old)
      & converged (keys corpus) old (spec_new_rank corpus damping_factor old)].
Proof.
move=> U N0 E.
have [] // := @iterate_pagerank_inv (fun _ => True) _ _ _ _ U N0 _ _ E.
move=> old [_ -> C].
exists (table (keys corpus) (spec_new_rank corpus damping_factor old)), old.
by split=> //; rewrite /table keys_map.
Qed.

(** The links of the working corpus: never empty, and all inside the
    corpus when the corpus is closed. *)
Lemma fix_dangling_links corpus kv :
  valid corpus -> kv \in spec_fix_dangling corpus ->
  [/\ kv.1 \in keys corpus, set_len kv.2 != 0%N
    & count (fun q => q \in kv.2) (keys corpus) = set_len kv.2].
Proof.
case/and3P => U N0 C /mapP [[k l] Hkl ->] /=.
have Hk : k \in keys corpus by apply/mapP; exists (k, l).
have Hl : all (fun q => q \in keys corpus) l.
  by move/allP: C => /(_ _ Hkl).
case: ifPn => L0; split=> //.
- by rewrite /set_len undup_id // size_keys -lt0n.
- by rewrite count_links //; exact/allP.
- by rewrite count_links.
Qed.

(** The sum of the ranks after a pass. *)
Lemma update_sum corpus damping_factor factor r :
  valid corpus ->
  \sum_(p <- keys corpus) update (spec_fix_dangling corpus) damping_factor factor r p
  = factor * len corpus + damping_factor * \sum_(q <- keys corpus) r q.
Proof.
move=> Hv; rewrite /update big_split /=; congr (_ + _).
  by rewrite big_const_seq count_predT iter_addr_0 size_keys mulr_natr.
rewrite -mulr_sumr; congr (_ * _).
under eq_bigr do rewrite big_mkcond.
rewrite exchange_big /= -[in RHS](keys_fix_dangling corpus) [in RHS]/keys big_map.
rewrite big_seq_cond [RHS]big_seq_cond; apply: eq_bigr => kv /andP [Hkv _].
have [_ L0 Hc] := fix_dangling_links Hv Hkv.
rewrite -big_mkcond /= big_const_seq iter_addr_0 Hc -mulr_natr -mulrA.
by rewrite mulVf ?mulr1 // pnatr_eq0.
Qed.

Lemma spec_new_rank_sum corpus damping_factor r :
  valid corpus -> \sum_(q <- keys corpus) r q = 1 ->
  \sum_(p <- keys corpus) spec_new_rank corpus damping_factor r p = 1.
Proof.
move=> Hv Hr; rewrite /spec_new_rank update_sum // Hr mulr1.
have N0 : len corpus != 0.
  by case/and3P: Hv => _ N0 _; rewrite /len pnatr_eq0 -lt0n.
by rewrite -mulrA mulVf // mulr1 subrK.
Qed.

Lemma uniform_sum corpus :
  (0 < size corpus)%N -> \sum_(q <- keys corpus) (1 / len corpus) = 1.
Proof.
move=> N0; rewrite big_const_seq count_predT iter_addr_0 size_keys -mulr_natr.
by rewrite mul1r mulVf // /len pnatr_eq0 -lt0n.
Qed.

Lemma table_sum (ks : seq page) r :
  \sum_(v <- values (table ks r)) v = \sum_(q <- ks) r q.
Proof. by rewrite /table (values_map r) big_map. Qed.

(** X4. On a valid corpus the ranks that [iterate_pagerank] returns sum to
    1, for every damping factor. *)
Theorem iterate_pagerank_sums_to_one fuel corpus damping_factor PR :
  valid corpus ->
  iterate_pagerank fuel corpus damping_factor = Some (Ok PR) ->
  keys PR = keys corpus /\ \sum_(v <- values PR) v = 1.
Proof.
move=> Hv; case/and3P: (Hv) => U N0 _.
pose Inv r := \sum_(q <- keys corpus) r q = 1.
move=> E; have [] := @iterate_pagerank_inv Inv _ _ _ _ U N0 _ _ E.
- by move=> r; exact: spec_new_rank_sum.
- exact: uniform_sum.
move=> old [Hold [->] _]; split; first by rewrite /table keys_map.
by rewrite table_sum; exact: spec_new_rank_sum.
Qed.

Lemma le_sum_mem (ks : seq page) (F : page -> rat) p :
  (forall q, q \in ks -> 0 <= F q) -> p \in ks -> F p <= \sum_(q <- ks) F q.
Proof.
move=> F0 Hp; rewrite (big_rem p) //= lerDl big_seq_cond.
by apply: sumr_ge0 => q /andP [/mem_rem Hq _]; exact: F0.
Qed.

Lemma update_ge corpus damping_factor factor r p :
  0 <= damping_factor -> (forall q, q \in keys corpus -> 0 <= r q) ->
  factor <= update (spec_fix_dangling corpus) damping_factor factor r p.
Proof.
move=> d0 r0; rewrite /update lerDl; apply: mulr_ge0 => //.
rewrite big_seq_cond; apply: sumr_ge0 => kv /andP [Hkv _].
apply: divr_ge0; rewrite ?ler0n //; apply: r0.
by rewrite -(keys_fix_dangling corpus); apply/mapP; exists kv.
Qed.

(** X5. On a valid corpus and for a damping factor in [0,1], every rank
    that [iterate_pagerank] returns is at least [(1 - d)/N] and at most
    1. *)
Theorem iterate_pagerank_bounds fuel corpus damping_factor PR :
  valid corpus -> 0 <= damping_factor <= 1 ->
  iterate_pagerank fuel corpus damping_factor = Some (Ok PR) ->
  all (fun v => (1 - damping_factor) / len corpus <= v <= 1) (values PR).
Proof.
move=> Hv /andP [d0 d1]; case/and3P: (Hv) => U N0 _.
have f0 : 0 <= (1 - damping_factor) / len corpus.
  by rewrite divr_ge0 ?subr_ge0 // ler0n.
pose Inv r := \sum_(q <- keys corpus) r q = 1
              /\ forall q, q \in keys corpus -> 0 <= r q.
have Hstep r : Inv r -> Inv (spec_new_rank corpus damping_factor r).
  case=> Hs Hr; split; first exact: spec_new_rank_sum.
  by move=> q _; apply: le_trans f0 _; exact: update_ge.
move=> E; have [] := @iterate_pagerank_inv Inv _ _ _ _ U N0 Hstep _ E.
  split; first exact: uniform_sum.
  by move=> q _; rewrite divr_ge0 // ler0n.
move=> old [[Hs Hr] [->] _]; rewrite /table (values_map _) all_map.
apply/allP => p Hp /=; rewrite update_ge //=.
have [Hs' Hr'] := Hstep old (conj Hs Hr).
by rewrite -Hs'; exact: le_sum_mem.
Qed.

(** The update of a rank vector that sums to 1 is its product with the
    transition probabilities. *)
Lemma update_transition corpus damping_factor r p :
  valid corpus -> \sum_(q <- keys corpus) r q = 1 -> p \in keys corpus ->
  spec_new_rank corpus damping_factor r p
  = \sum_(kv <- corpus) r kv.1 * spec_transition corpus kv.2 damping_factor p.
Proof.
move=> Hv Hr Hp; case/and3P: (Hv) => U N0 _.
rewrite /spec_new_rank /update /spec_fix_dangling big_map /= big_mkcond mulr_sumr /=.
have -> : (1 - damping_factor) / len corpus
          = \sum_(kv <- corpus) r kv.1 * ((1 - damping_factor) / len corpus).
  by rewrite -mulr_suml -[\sum_(kv <- corpus) _](big_map fst predT r) Hr mul1r.
rewrite -big_split /=; apply: eq_bigr => kv _.
rewrite /spec_transition; case L0: (set_len kv.2 == 0%N).
  rewrite Hp /set_len undup_id // size_keys -/(len corpus).
  by rewrite [damping_factor * _]mulrCA -mulrDr -mulrDl subrK.
by case: ifP => _; rewrite ?mulr0 ?addr0 // [damping_factor * _]mulrCA -mulrDr.
Qed.

(** X6. On a valid corpus a pass of [iterate_pagerank] multiplies the old
    ranks, when they sum to 1, by the distributions of [transition_model]:
    the new rank of a page is the sum over the pages [q] of the old rank of
    [q] times the probability that [transition_model] gives to the page
    from [q].  The rewriting of the pages without links has the effect of
    the uniform distribution that [transition_model] gives them. *)
Theorem pass_is_transition corpus damping_factor r PR :
  valid corpus -> \sum_(q <- keys corpus) r q = 1 ->
  PR = [::] \/ keys PR = keys corpus ->
  [/\ forall q links, dict_get corpus q = Some links ->
        transition_model corpus q damping_factor
        = Ok (table (keys corpus) (spec_transition corpus links damping_factor))
    & exists repeat,
        pass (spec_fix_dangling corpus) damping_factor
          ((1 - damping_factor) / len corpus) (table (keys corpus) r) PR
        = Ok (table (keys corpus) (fun p =>
                \sum_(kv <- corpus)
                  r kv.1 * spec_transition corpus kv.2 damping_factor p),
              repeat)].
Proof.
move=> Hv Hr HPR; case/and3P: (Hv) => U N0 _; split.
  by move=> q links Hq; exact: transition_model_table.
eexists; rewrite -{1 2}(keys_fix_dangling corpus) pass_ok ?keys_fix_dangling //.
congr (Ok (_, _)); apply/eq_in_map => p Hp.
by rewrite -update_transition.
Qed.

(** X7. With the damping factor 0, or on a corpus in which no page has a
    link, the first pass of [iterate_pagerank] already returns: every page
    has the rank [1/N]. *)
Theorem iterate_pagerank_uniform fuel corpus damping_factor :
  uniq (keys corpus) -> (0 < size corpus)%N ->
  damping_factor = 0 \/ all (fun kv => set_len kv.2 == 0%N) corpus ->
  iterate_pagerank fuel.+1 corpus damping_factor
  = Some (Ok (table (keys corpus) (fun=> 1 / len corpus))).
Proof.
move=> U N0 H; rewrite iterate_pagerank_start //.
have Unc : uniq (keys (spec_fix_dangling corpus)) by rewrite keys_fix_dangling.
have Nn0 : len corpus != 0 by rewrite /len pnatr_eq0 -lt0n.
have E p : p \in keys corpus ->
    update (spec_fix_dangling corpus) damping_factor
      ((1 - damping_factor) / len corpus) (fun=> 1 / len corpus) p
    = 1 / len corpus.
  move=> Hp; rewrite /update; case: H => [->|/allP Hd].
    by rewrite mul0r addr0 subr0.
  rewrite /spec_fix_dangling big_map /= big_seq_cond.
  have HP : (fun kv : page * pyset page =>
               (kv \in corpus) &&
               (p \in (if set_len kv.2 == 0%N then keys corpus else kv.2)))
            =1 (fun kv => kv \in corpus).
    by move=> kv; case Hkv: (kv \in corpus) => //=; rewrite (Hd _ Hkv) Hp.
  rewrite (eq_bigl _ _ HP) -big_seq.
  have HF kv : kv \in corpus ->
      1 / len corpus
        / (set_len (if set_len kv.2 == 0%N then keys corpus else kv.2))%:R
      = 1 / len corpus / len corpus.
    by move=> /Hd -> /=; rewrite /set_len undup_id // size_keys.
  rewrite (eq_big_seq _ HF).
  rewrite big_const_seq count_predT iter_addr_0 -mulr_natr -/(len corpus).
  rewrite divfK // mulrA mulr1 -mulrDl subrK.
  by rewrite div1r.
have := @iterate_loop_step _ fuel (spec_fix_dangling corpus) damping_factor
          ((1 - damping_factor) / len corpus) (fun=> 1 / len corpus) [::]
          Unc (or_introl erefl).
rewrite keys_fix_dangling; cbv zeta => ->.
have -> : converged (keys corpus) (fun=> 1 / len corpus)
            (update (spec_fix_dangling corpus) damping_factor
               ((1 - damping_factor) / len corpus) (fun=> 1 / len corpus)).
  apply: converged_dist; rewrite /dist big_seq big1; last exact: ltW tolerance_gt0.
  by move=> p Hp; rewrite E // subrr normr0.
by congr (Some (Ok _)); apply/eq_in_map => p Hp; rewrite E.
Qed.

End IterateInvariants.

(** ** How far the ranks of [iterate_pagerank] are from the limit *)

Section IterateAccuracy.

Variable page : eqType.
Implicit Types (corpus : corpus_t page) (r : page -> rat).

Lemma dist_triangle (ks : seq page) r1 r2 r3 :
  dist ks r1 r3 <= dist ks r1 r2 + dist ks r2 r3.
Proof.
rewrite /dist -big_split /=; apply: ler_sum => p _.
have -> : r3 p - r1 p = (r2 p - r1 p) + (r3 p - r2 p).
  by rewrite [RHS]addrC addrA subrK.
exact: ler_normD.
Qed.

Lemma dist_refl (ks : seq page) r : dist ks r r = 0.
Proof. by rewrite /dist big1 // => p _; rewrite subrr normr0. Qed.

Lemma dist_le_size (ks : seq page) r r' (eps : rat) :
  all (fun p => `|r' p - r p| <= eps) ks -> dist ks r r' <= (size ks)%:R * eps.
Proof.
move/allP => H; rewrite /dist.
apply: (@le_trans _ _ (\sum_(p <- ks) eps)).
  by rewrite big_seq [X in _ <= X]big_seq; apply: ler_sum => p Hp; exact: H.
by rewrite big_const_seq count_predT iter_addr_0 -mulr_natl.
Qed.

(** X18. For a damping factor [d] in [0,1), the ranks that
    [iterate_pagerank] returns are close to what any number of further
    passes would give: the changes of all the pages together never exceed
    [d / (1 - d)] times [N] times the tolerance. *)
Theorem iterate_pagerank_accuracy fuel corpus damping_factor PR :
  uniq (keys corpus) -> (0 < size corpus)%N -> 0 <= damping_factor < 1 ->
  iterate_pagerank fuel corpus damping_factor = Some (Ok PR) ->
  exists r,
    PR = table (keys corpus) r
    /\ forall k,
         dist (keys corpus) r (iter k (spec_new_rank corpus damping_factor) r)
         <= damping_factor / (1 - damping_factor) * (len corpus * tolerance).
Proof.
move=> U N0 /andP [d0 d1] E.
have [] // := @iterate_pagerank_inv _ (fun _ => True) _ _ _ _ U N0 _ _ E.
move=> old [_ [->] C].
set T := spec_new_rank corpus damping_factor.
exists (T old); split=> // k.
have Unc : uniq (keys (spec_fix_dangling corpus)) by rewrite keys_fix_dangling.
have HT r r' :
    dist (keys corpus) (T r) (T r') <= damping_factor * dist (keys corpus) r r'.
  by rewrite -(keys_fix_dangling corpus); exact: update_contract.
set D0 := dist (keys corpus) old (T old).
have HD0 : D0 <= len corpus * tolerance.
  by rewrite /len -(size_keys corpus); exact: dist_le_size.
have c0 : 1 - damping_factor != 0 by rewrite subr_eq0 eq_sym; case: ltgtP d1.
have q0 : 0 <= damping_factor / (1 - damping_factor).
  by rewrite divr_ge0 // subr_ge0 ltW.
set B := damping_factor / (1 - damping_factor) * D0.
have EB : damping_factor * D0 = B * (1 - damping_factor).
  by rewrite /B mulrAC divfK.
have Hk : dist (keys corpus) (T old) (iter k T (T old)) <= B.
  elim: k => [|k IH]; first by rewrite dist_refl mulr_ge0 // dist_ge0.
  rewrite iterS; apply: le_trans (dist_triangle _ _ (T (T old)) _) _.
  apply: le_trans (lerD (HT _ _) (HT _ _)) _.
  apply: (@le_trans _ _ (damping_factor * D0 + damping_factor * B)).
    by rewrite lerD2l; exact: ler_wpM2l.
  by rewrite EB [damping_factor * B]mulrC -mulrDr subrK mulr1.
by apply: le_trans Hk _; exact: ler_wpM2l.
Qed.

End IterateAccuracy.

Lemma transition_model_raises_witness :
  uniq (keys corpus_ab)
  /\ [/\ pC \notin keys corpus_ab ->
         transition_model corpus_ab pC half = Raise KeyError
       & forall e, transition_model corpus_ab pC half = Raise e ->
           e = KeyError /\ pC \notin keys corpus_ab].
Proof.
split; [reflexivity | apply: transition_model_raises; reflexivity].
Defined.

Lemma transition_model_bounds_witness :
  [/\ uniq (keys corpus_open), 0 <= half <= 1,
      transition_model corpus_open pA half = Ok [:: (pA, half)]
    & all (fun v => 0 <= v <= 1) (values [:: (pA, half)])
      /\ \sum_(v <- values [:: (pA, half)]) v <= 1].
Proof.
have E : transition_model corpus_open pA half = Ok [:: (pA, half)].
  by apply/eqP; vm_compute.
split; [reflexivity | by vm_compute | exact: E
       | apply: (@transition_model_bounds _ corpus_open pA half);
         [reflexivity | by vm_compute | exact: E]].
Defined.

Lemma iterate_pagerank_returns_converged_witness :
  [/\ uniq (keys corpus_a), (0 < size corpus_a)%N,
      iterate_pagerank 1 corpus_a half = Some (Ok [:: (pA, 1)])
    & exists PR old,
        [/\ Ok [:: (pA, 1)] = Ok PR, keys PR = keys corpus_a,
            PR = table (keys corpus_a) (spec_new_rank corpus_a half old)
          & converged (keys corpus_a) old (spec_new_rank corpus_a half old)]].
Proof.
have E : iterate_pagerank 1 corpus_a half = Some (Ok [:: (pA, 1)]).
  by apply/eqP; vm_compute.
split; [reflexivity | reflexivity | exact: E
       | apply: (@iterate_pagerank_returns_converged _ 1 corpus_a half);
         [reflexivity | reflexivity | exact: E]].
Defined.

Lemma iterate_pagerank_sums_to_one_witness :
  [/\ valid corpus_a, iterate_pagerank 1 corpus_a half = Some (Ok [:: (pA, 1)])
    & keys [:: (pA, (1 : rat))] = keys corpus_a
      /\ \sum_(v <- values [:: (pA, (1 : rat))]) v = 1].
Proof.
have E : iterate_pagerank 1 corpus_a half = Some (Ok [:: (pA, 1)]).
  by apply/eqP; vm_compute.
split; [reflexivity | exact: E
       | apply: (@iterate_pagerank_sums_to_one _ 1 corpus_a half);
         [reflexivity | exact: E]].
Defined.

Lemma iterate_pagerank_bounds_witness :
  [/\ valid corpus_a, 0 <= half <= 1,
      iterate_pagerank 1 corpus_a half = Some (Ok [:: (pA, 1)])
    & all (fun v => (1 - half) / len corpus_a <= v <= 1)
        (values [:: (pA, (1 : rat))])].
Proof.
have E : iterate_pagerank 1 corpus_a half = Some (Ok [:: (pA, 1)]).
  by apply/eqP; vm_compute.
split; [reflexivity | by vm_compute | exact: E
       | apply: (@iterate_pagerank_bounds _ 1 corpus_a half);
         [reflexivity | by vm_compute | exact: E]].
Defined.

Lemma pass_is_transition_witness :
  [/\ valid corpus_ab, \sum_(q <- keys corpus_ab) half = 1,
      ([::] : dict string rat) = [::] \/ keys ([::] : dict string rat) = keys corpus_ab
    & [/\ forall q links, dict_get corpus_ab q = Some links ->
            transition_model corpus_ab q half
            = Ok (table (keys corpus_ab) (spec_transition corpus_ab links half))
        & exists repeat,
            pass (spec_fix_dangling corpus_ab) half
              ((1 - half) / len corpus_ab) (table (keys corpus_ab) (fun=> half)) [::]
            = Ok (table (keys corpus_ab) (fun p =>
                    \sum_(kv <- corpus_ab)
                      half * spec_transition corpus_ab kv.2 half p),
                  repeat)]].
Proof.
have S : \sum_(q <- keys corpus_ab) half = 1.
  by rewrite !big_cons big_nil; apply/eqP; vm_compute.
split; [reflexivity | exact: S | by left
       | apply: (@pass_is_transition _ corpus_ab half (fun=> half) [::]);
         [reflexivity | exact: S | by left]].
Defined.

Lemma iterate_pagerank_accuracy_witness :
  [/\ uniq (keys corpus_a), (0 < size corpus_a)%N, 0 <= half < 1,
      iterate_pagerank 1 corpus_a half = Some (Ok [:: (pA, 1)])
    & exists r,
        [:: (pA, 1)] = table (keys corpus_a) r
        /\ forall k,
             dist (keys corpus_a) r (iter k (spec_new_rank corpus_a half) r)
             <= half / (1 - half) * (len corpus_a * tolerance)].
Proof.
have E : iterate_pagerank 1 corpus_a half = Some (Ok [:: (pA, 1)]).
  by apply/eqP; vm_compute.
split; [reflexivity | reflexivity | by vm_compute | exact: E
       | apply: (@iterate_pagerank_accuracy _ 1 corpus_a half);
         [reflexivity | reflexivity | by vm_compute | exact: E]].
Defined.

Lemma iterate_pagerank_uniform_witness :
  [/\ uniq (keys corpus_a), (0 < size corpus_a)%N,
      half = 0 \/ all (fun kv => set_len kv.2 == 0%N) corpus_a
    & iterate_pagerank 1 corpus_a half
      = Some (Ok (table (keys corpus_a) (fun=> 1 / len corpus_a)))].
Proof.
split; [reflexivity | reflexivity | by right
       | apply: iterate_pagerank_uniform; [reflexivity | reflexivity | by right]].
Defined.

(** ** More on [sample_pagerank] *)

Section SampleWalk.

Variable page : eqType.
Implicit Types (corpus : corpus_t page) (p q : page) (walk : seq page).

(** A draw of [random.choices] is an element of the population. *)
Lemma random_choices_mem (population : seq page) weights r p :
  random_choices population weights r = Ok p -> p \in population.
Proof.
rewrite /random_choices; case: ifP => // _.
case: population => [//|x0 s]; case: ifP => // _ [<-].
by apply: mem_nth; rewrite ltn_mod.
Qed.

Lemma random_choices_ok (pd : dict page rat) r :
  (0 < size pd)%N -> 0 < \sum_(v <- values pd) v ->
  exists2 p, random_choices (keys pd) (values pd) r = Ok p & p \in keys pd.
Proof.
move=> Hs Ht; rewrite /random_choices size_values -(size_keys pd) eqxx /=.
rewrite total_weightE leNgt Ht /=.
case E: (keys pd) (size_keys pd) => [|k ks]; first by case: (pd) Hs.
by move=> _; eexists; first by []; apply: mem_nth; rewrite ltn_mod.
Qed.

(** Without a positive total weight it raises [ValueError]. *)
Lemma random_choices_stuck (pd : dict page rat) r :
  (0 < size pd)%N -> \sum_(v <- values pd) v <= 0 ->
  random_choices (keys pd) (values pd) r = Raise ValueError.
Proof.
move=> Hs Ht; rewrite /random_choices size_values -(size_keys pd) eqxx /=.
rewrite total_weightE Ht.
by case E: (keys pd) (size_keys pd) => [|k ks] //; case: (pd) Hs.
Qed.

(** The sum of the probabilities that [transition_model] returns. *)
Lemma transition_total corpus links damping_factor :
  (0 < size corpus)%N ->
  \sum_(q <- keys corpus) spec_transition corpus links damping_factor q
  = if set_len links == 0%N then 1
    else (1 - damping_factor)
         + \sum_(q <- keys corpus | q \in links)
              damping_factor / (set_len links)%:R.
Proof.
move=> N0; have Nn0 : len corpus != 0 by rewrite /len pnatr_eq0 -lt0n.
have sum_const (a : rat) : \sum_(q <- keys corpus) a / len corpus = a.
  rewrite big_const_seq count_predT iter_addr_0 size_keys -mulr_natr.
  by rewrite -mulrA mulVf // mulr1.
rewrite /spec_transition; case: ifP => _; first exact: sum_const.
by rewrite big_split /= sum_const -big_mkcond.
Qed.

(** One turn of the loop, at a page of the corpus: the visit is counted,
    and the next page is drawn from the distribution of the page. *)
Lemma sample_stepE corpus damping_factor inc rnd i walk p links :
  uniq (keys corpus) -> dict_get corpus p = Some links ->
  sample_step corpus damping_factor inc rnd i (tally corpus inc walk, p)
  = let pd := table (keys corpus) (spec_transition corpus links damping_factor) in
    let! p' := random_choices (keys pd) (values pd) (rnd i.+1) in
    Ok (tally corpus inc (rcons walk p), p').
Proof.
move=> U Hl; have Hp := dict_get_some Hl.
rewrite /sample_step /getitem /tally.
rewrite (dict_get_map (fun q => (count_mem q walk)%:R * inc)) Hp /=.
rewrite (transition_model_table damping_factor U Hl) /= (dict_set_table _ _ U Hp).
case: (random_choices _ _ _) => [p'|//] /=; congr (Ok (_, _)).
apply/eq_map => q; rewrite -cats1 count_cat /= addn0 eq_sym [p == q]eq_sym.
case: eqP => [->|_]; last by rewrite addn0.
by rewrite natrD mulrDl mul1r.
Qed.

(** When the loop completes, it has counted a walk through pages of the
    corpus, one page for every turn. *)
Lemma sample_loop_walk corpus damping_factor inc rnd walk p turns st :
  uniq (keys corpus) -> p \in keys corpus ->
  sample_loop corpus damping_factor inc rnd (tally corpus inc walk) p turns
  = Ok st ->
  exists visited,
    [/\ size visited = size turns, all (fun q => q \in keys corpus) visited,
        st.2 \in keys corpus
      & st.1 = tally corpus inc (walk ++ visited)].
Proof.
move=> U; rewrite /sample_loop.
elim: turns walk p => [|i turns IH] walk p Hp.
  by move=> [<-]; exists [::]; rewrite cats0.
have [links Hl] := dict_get_in Hp.
rewrite for_cons (sample_stepE damping_factor inc rnd i walk U Hl).
cbv zeta; case E: (random_choices _ _ _) => [p1|//].
have Hp1 : p1 \in keys corpus.
  by move: (random_choices_mem E); rewrite /table keys_map.
rewrite bind_ok => /(IH _ _ Hp1) [visited [Hs Ha Hst ->]].
exists (p :: visited); split=> //=; first by rewrite Hs.
  by rewrite Hp.
by rewrite cat_rcons.
Qed.

(** The weights of a walk through the pages of a dict. *)
Lemma tally_bounds corpus (m : nat) walk :
  (0 < m)%N -> (size walk <= m)%N ->
  all (fun v => 0 <= v <= 1) (values (tally corpus (1 / m%:R) walk)).
Proof.
move=> m0 Hs.
rewrite /tally (values_map (fun q => (count_mem q walk)%:R * (1 / m%:R))).
rewrite all_map; apply/allP => q _ /=.
rewrite mul1r divr_ge0 ?ler0n //= ler_pdivrMr ?ltr0n // mul1r ler_nat.
exact: leq_trans (count_size _ _) Hs.
Qed.

Lemma tally_nil_bounds corpus inc :
  all (fun v => 0 <= v <= 1) (values (tally corpus inc [::])).
Proof.
rewrite /tally (values_map (fun q => (count_mem q [::])%:R * inc)) all_map.
apply/allP => q _ /=.
by rewrite mul0r lexx ler01.
Qed.

Lemma tally_sum corpus (m : nat) walk :
  uniq (keys corpus) -> all (fun q => q \in keys corpus) walk ->
  (0 < m)%N -> size walk = m ->
  \sum_(v <- values (tally corpus (1 / m%:R) walk)) v = 1.
Proof.
move=> U Ha m0 Hs.
rewrite /tally (values_map (fun q => (count_mem q walk)%:R * (1 / m%:R))).
rewrite big_map -mulr_suml -natr_sum sum_count_mem // Hs mul1r divff //.
by rewrite pnatr_eq0 -lt0n.
Qed.

(** What [sample_pagerank] returns, when it returns. *)
Lemma sample_pagerank_walk corpus damping_factor (n : int) rnd PR :
  uniq (keys corpus) ->
  sample_pagerank corpus damping_factor n rnd = Ok PR ->
  exists walk,
    [/\ size walk = size (range n), all (fun q => q \in keys corpus) walk,
        PR = [seq (q, (count_mem q walk)%:R / n%:~R) | q <- keys corpus],
        all (fun v => 0 <= v <= 1) (values PR)
      & 1 <= n -> \sum_(v <- values PR) v = 1].
Proof.
move=> U; rewrite /sample_pagerank sample_init_ok // bind_ok /py_div.
case: ifP => // _; rewrite bind_ok.
case E0: (random_choice _ _) => [p0|//]; rewrite bind_ok.
have Hp0 : p0 \in keys corpus.
  move: E0; rewrite /tally keys_map /random_choice.
  case: (keys corpus) => [//|k ks] [<-].
  by apply: mem_nth; rewrite ltn_mod.
rewrite (tally_nil _ 0 (1 / n%:~R)).
case E: (sample_loop _ _ _ _ _ _ _) => [st|//] /= [<-].
have [walk [Hs Ha _ ->]] := sample_loop_walk U Hp0 E.
rewrite cat0s; exists walk; split=> //.
- by apply/eq_map => q; rewrite mul1r.
- case: n Hs {E} => [m|m] /=.
    rewrite size_iota; case: m => [|m] Hs.
      by case: walk Hs {Ha} => // _; exact: tally_nil_bounds.
    by apply: tally_bounds => //; rewrite Hs.
  by case: walk {Ha} => // _; exact: tally_nil_bounds.
- case: n Hs {E} => [[|m]|m] //= Hs _.
  by apply: tally_sum => //; rewrite Hs size_iota.
Qed.

(** X8. Whenever [sample_pagerank] returns, whatever the corpus (a dict),
    the damping factor and the draws, it returns the visit counts of a walk
    through pages of the corpus divided by [n]: every weight is between 0
    and 1, and for [n >= 1] the weights sum to 1. *)
Theorem sample_pagerank_returns_walk corpus damping_factor (n : int) rnd PR :
  uniq (keys corpus) ->
  sample_pagerank corpus damping_factor n rnd = Ok PR ->
  exists walk,
    [/\ size walk = size (range n), all (fun q => q \in keys corpus) walk,
        PR = [seq (q, (count_mem q walk)%:R / n%:~R) | q <- keys corpus],
        all (fun v => 0 <= v <= 1) (values PR)
      & 1 <= n -> \sum_(v <- values PR) v = 1].
Proof. exact: sample_pagerank_walk. Qed.

(** For a damping factor in [0,1) every distribution of [transition_model]
    can be drawn from, also when links leave the corpus. *)
Lemma next_page_open corpus p links damping_factor r :
  uniq (keys corpus) -> 0 <= damping_factor < 1 ->
  dict_get corpus p = Some links ->
  let pd := table (keys corpus) (spec_transition corpus links damping_factor) in
  exists p', random_choices (keys pd) (values pd) r = Ok p'.
Proof.
move=> U /andP [d0 d1] Hl pd; have Hp := dict_get_some Hl.
have N0 : (0 < size corpus)%N by rewrite -(size_keys corpus); case: (keys corpus) Hp.
have [||p' E _] := @random_choices_ok pd r; last by exists p'.
  by rewrite /pd /table size_map size_keys.
rewrite /pd table_sum transition_total //; case: ifP => // _.
apply: ltr_wpDr; last by rewrite subr_gt0.
rewrite big_seq_cond; apply: sumr_ge0 => q _.
by rewrite divr_ge0 // ler0n.
Qed.

(** The loop completes when every page of the corpus can be left. *)
Lemma sample_loop_total corpus damping_factor inc rnd walk p turns :
  uniq (keys corpus) ->
  (forall q links r, dict_get corpus q = Some links ->
     let pd := table (keys corpus) (spec_transition corpus links damping_factor) in
     exists q', random_choices (keys pd) (values pd) r = Ok q') ->
  p \in keys corpus ->
  exists st,
    sample_loop corpus damping_factor inc rnd (tally corpus inc walk) p turns
    = Ok st.
Proof.
move=> U Hnext; rewrite /sample_loop.
elim: turns walk p => [|i turns IH] walk p Hp; first by eexists.
have [links Hl] := dict_get_in Hp.
rewrite for_cons (sample_stepE damping_factor inc rnd i walk U Hl).
have [p1 E] := Hnext p links (rnd i.+1) Hl; move: E; cbv zeta => E.
rewrite E bind_ok; apply: IH.
by move: (random_choices_mem E); rewrite /table keys_map.
Qed.

Lemma sample_pagerank_total corpus damping_factor (n : int) rnd :
  uniq (keys corpus) -> (0 < size corpus)%N ->
  (forall q links r, dict_get corpus q = Some links ->
     let pd := table (keys corpus) (spec_transition corpus links damping_factor) in
     exists q', random_choices (keys pd) (values pd) r = Ok q') ->
  n != 0 ->
  exists PR, sample_pagerank corpus damping_factor n rnd = Ok PR.
Proof.
move=> U N0 Hnext Hn; rewrite /sample_pagerank sample_init_ok // bind_ok /py_div.
rewrite intr_eq0 (negbTE Hn) bind_ok /tally keys_map -/(tally corpus 0 [::]).
have [|p0 -> Hp0] := @random_choice_in _ (keys corpus) (rnd 0%N).
  by rewrite size_keys.
rewrite bind_ok (tally_nil _ 0 (1 / n%:~R)).
have [st ->] := sample_loop_total (1 / n%:~R) rnd [::] (range n) U Hnext Hp0.
by rewrite bind_ok; eexists.
Qed.

(** X9. On a corpus with at least one page, for a damping factor in [0,1)
    and [n >= 1], [sample_pagerank] returns, also when links leave the
    corpus: the walk never leaves the pages of the corpus, and the weights
    sum to 1. *)
Theorem sample_pagerank_open corpus damping_factor (n : int) rnd :
  uniq (keys corpus) -> (0 < size corpus)%N -> 0 <= damping_factor < 1 ->
  1 <= n ->
  exists PR,
    [/\ sample_pagerank corpus damping_factor n rnd = Ok PR,
        keys PR = keys corpus,
        all (fun v => 0 <= v <= 1) (values PR)
      & \sum_(v <- values PR) v = 1].
Proof.
move=> U N0 Hd Hn.
have Hn0 : n != 0 by case: eqP Hn => // ->.
have [|PR E] :=
  @sample_pagerank_total corpus damping_factor n rnd U N0 _ Hn0.
  by move=> q links r Hl; exact: (next_page_open r U Hd Hl).
have [walk [_ _ EPR Hb Hs]] := sample_pagerank_walk U E.
exists PR; split=> //; last exact: Hs.
by rewrite EPR keys_map.
Qed.

(** X10. For a damping factor of 1 or more, [sample_pagerank] with
    [n >= 1] raises [ValueError] when the page that it starts from has
    links, none of them to a page of the corpus: the weights that
    [transition_model] returns for it have no positive total to draw
    from. *)
Theorem sample_pagerank_stuck corpus damping_factor (n : int) rnd p0 links :
  uniq (keys corpus) -> 1 <= damping_factor -> 1 <= n ->
  random_choice (keys corpus) (rnd 0%N) = Ok p0 ->
  dict_get corpus p0 = Some links ->
  set_len links != 0%N -> ~~ has (fun q => q \in keys corpus) links ->
  sample_pagerank corpus damping_factor n rnd = Raise ValueError.
Proof.
move=> U Hd Hn E0 Hl L0 Hout; have Hp0 := dict_get_some Hl.
have N0 : (0 < size corpus)%N.
  by rewrite -(size_keys corpus); case: (keys corpus) Hp0.
have Hn0 : n != 0 by case: eqP Hn => // ->.
rewrite /sample_pagerank sample_init_ok // bind_ok /py_div intr_eq0.
rewrite (negbTE Hn0) bind_ok {1}/tally keys_map E0 bind_ok.
rewrite (tally_nil _ 0 (1 / n%:~R)) /sample_loop.
have -> : range n = 0%N :: behead (range n) by case: n Hn {Hn0} => [[|m]|m].
rewrite for_cons (sample_stepE damping_factor (1 / n%:~R) rnd 0 [::] U Hl).
cbv zeta; rewrite random_choices_stuck //.
  by rewrite /table size_map size_keys.
rewrite table_sum transition_total // (negbTE L0) big_seq_cond big_pred0.
  move=> q; apply/negP => /andP [Hq Hql].
  by move/hasPn: Hout => /(_ q Hql); rewrite Hq.
by rewrite addr0 subr_le0.
Qed.

End SampleWalk.

(** ** [crawl] *)

Section DictSet.

Variables (K : eqType) (V : Type).
Implicit Types (d : dict K V) (k : K) (v : V).

Lemma mem_keys_dict_set d k v : keys (dict_set d k v) =i k :: keys d.
Proof.
elim: d => [//|[k' v'] d IH] q /=.
case: eqP => [->|_] /=; first by rewrite !in_cons orbA orbb.
by rewrite in_cons IH !in_cons orbCA.
Qed.

Lemma uniq_keys_dict_set d k v : uniq (keys d) -> uniq (keys (dict_set d k v)).
Proof.
elim: d => [//|[k' v'] d IH] /= /andP [Hk' U].
case: eqP => [_|/eqP Hn] /=; first by rewrite Hk'.
by rewrite IH // mem_keys_dict_set in_cons negb_or Hn Hk'.
Qed.

Lemma all_dict_set (P : K * V -> bool) d k v :
  all P d -> P (k, v) -> all P (dict_set d k v).
Proof.
elim: d => [|[k' v'] d IH] /=; first by move=> _ ->.
case/andP => H1 H2 Hkv; case: eqP => [->|_] /=; first by rewrite Hkv.
by rewrite H1 IH.
Qed.

End DictSet.

(** [endswith] holds of the strings that end with the suffix. *)
Lemma endswithP (s suffix : string) :
  reflect (exists pre, s = String.append pre suffix) (endswith s suffix).
Proof.
elim: s => [|a s IH] /=.
  rewrite orbF; apply: (iffP eqP) => [<-|[pre]]; first by exists EmptyString.
  by case: pre => [|b pre].
apply: (iffP orP) => [[/eqP <-|/IH [pre ->]]|[pre E]].
- by exists EmptyString.
- by exists (String a pre).
- case: pre E => [|b pre] /=; first by move=> <-; left.
  by case=> _ E; right; apply/IH; exists pre.
Qed.

Section CrawlTheory.

Variable os_error : Type.
Variable listdir : string -> os_error + seq string.
Variable read_file : string -> string -> os_error + string.
Variable findall : string -> seq string.

Notation crawl_read := (crawl_read read_file findall).
Notation crawl := (crawl listdir read_file findall).

Implicit Types (directory : string) (names : seq string)
  (pages : corpus_t string).

(** The first loop keeps what holds of the entries that it writes. *)
Lemma crawl_read_inv (P : string * pyset string -> bool) directory names
    pages0 pages1 :
  (forall f contents, endswith f ".html" ->
     P (f, [seq l <- undup (findall contents) | l != f])) ->
  crawl_read directory names pages0 = inr pages1 ->
  uniq (keys pages0) -> all P pages0 ->
  [/\ uniq (keys pages1), all P pages1
    & keys pages1 =i keys pages0 ++ html_files names].
Proof.
move=> HP; elim: names pages0 => [|f names IH] pages0 /=.
  by move=> [<-] U H0; split=> // q; rewrite cats0.
case Hf: (endswith f ".html") => /=; last exact: IH.
case: (read_file directory f) => [//|contents] /IH H U H0.
have [||U1 H1 E1] := H.
- exact: uniq_keys_dict_set.
- by apply: all_dict_set => //; exact: HP.
split=> // q; rewrite E1 !mem_cat mem_keys_dict_set !in_cons.
by rewrite orbA [(q == f) || _]orbC.
Qed.

(** The first loop reads the pages of the listing in turn. *)
Lemma crawl_read_ok (contents : string -> string) directory names pages0 :
  (forall f, f \in html_files names ->
     read_file directory f = inr (contents f)) ->
  crawl_read directory names pages0
  = inr (foldl (fun pages f =>
           dict_set pages f [seq l <- undup (findall (contents f)) | l != f])
         pages0 (html_files names)).
Proof.
elim: names pages0 => [//|f names IH] pages0 /= Hr.
case Hf: (endswith f ".html") Hr => /= Hr; last exact: IH.
by rewrite Hr ?mem_head // IH // => g Hg; apply: Hr; rewrite in_cons Hg orbT.
Qed.

(** It stops at the first page that cannot be read. *)
Lemma crawl_read_error directory names pages0 e :
  crawl_read directory names pages0 = inl e ->
  exists2 f, f \in html_files names & read_file directory f = inl e.
Proof.
elim: names pages0 => [//|f names IH] pages0 /=.
case Hf: (endswith f ".html") => /=.
  case E: (read_file directory f) => [e'|contents].
    by case=> <-; exists f; rewrite ?mem_head.
  by case/IH => g Hg Eg; exists g; rewrite // in_cons Hg orbT.
by case/IH => g Hg Eg; exists g.
Qed.

Lemma crawl_read_unreadable directory names pages0 f e :
  f \in html_files names -> read_file directory f = inl e ->
  exists e', crawl_read directory names pages0 = inl e'.
Proof.
elim: names pages0 => [//|g names IH] pages0 /=.
case Hg: (endswith g ".html") => /=; last exact: IH.
rewrite in_cons; case: eqP => [<- _ ->|_ /= Hf Ef]; first by exists e.
case: (read_file directory g) => [e'|contents]; first by exists e'.
exact: IH.
Qed.

(** The second loop, with the pages before the current one already
    rewritten. *)
Lemma crawl_filter_loop (K : seq string) (d1 d2 : corpus_t string) :
  uniq (keys d1 ++ keys d2) -> keys d1 ++ keys d2 = K ->
  for_ (keys d2) (fun filename pages =>
    let! links := getitem pages filename in
    Ok (dict_set pages filename
          (undup [seq link <- links | link \in keys pages]))) (d1 ++ d2)
  = Ok (d1 ++ [seq (kv.1, undup [seq link <- kv.2 | link \in K]) | kv <- d2]).
Proof.
elim: d2 d1 => [|[k l] d2 IH] d1 /= U EK; first by rewrite cats0.
have Hk : k \notin keys d1.
  by move: U; rewrite cat_uniq /= negb_or => /and3P [_ /andP [? _] _].
rewrite /getitem dict_get_cat //= eqxx /=.
rewrite dict_set_cat //= eqxx keys_cat /= EK.
have -> v : d1 ++ (k, v) :: d2 = (d1 ++ [:: (k, v)]) ++ d2 by rewrite -catA.
by rewrite IH ?keys_cat -?catA.
Qed.

Lemma crawl_filter_ok pages :
  uniq (keys pages) ->
  crawl_filter pages
  = Ok [seq (kv.1, undup [seq link <- kv.2 | link \in keys pages]) | kv <- pages].
Proof. by move=> U; exact: (@crawl_filter_loop (keys pages) [::] pages). Qed.

(** What [crawl] returns, when it returns. *)
Lemma crawl_returns directory pages :
  crawl directory = Returns pages ->
  exists names pages1,
    [/\ listdir directory = inr names
        /\ crawl_read directory names [::] = inr pages1,
        uniq (keys pages1),
        all (fun kv => [&& endswith kv.1 ".html", kv.1 \notin kv.2 & uniq kv.2])
          pages1,
        keys pages1 =i html_files names
      & pages = [seq (kv.1, undup [seq link <- kv.2 | link \in keys pages1])
                | kv <- pages1]].
Proof.
rewrite /crawl; case El: (listdir directory) => [//|names].
case E1: (crawl_read directory names [::]) => [//|pages1].
pose P (kv : string * pyset string) :=
  [&& endswith kv.1 ".html", kv.1 \notin kv.2 & uniq kv.2].
have HP f contents :
    endswith f ".html" -> P (f, [seq l <- undup (findall contents) | l != f]).
  rewrite /P => -> /=; rewrite mem_filter eqxx /=.
  by rewrite filter_uniq // undup_uniq.
have [//|//|U1 H1 K1] := crawl_read_inv HP E1.
rewrite crawl_filter_ok // => -[<-].
by exists names, pages1.
Qed.

(** The corpus that [crawl] returns is well formed. *)
Lemma crawl_wf directory pages :
  crawl directory = Returns pages ->
  exists names,
    [/\ listdir directory = inr names,
        uniq (keys pages) /\ keys pages =i html_files names,
        closed pages,
        all (fun kv => (kv.1 \notin kv.2) && uniq kv.2) pages
      & valid pages = has (fun f => endswith f ".html") names].
Proof.
case/crawl_returns => names [pages1 [[El E1] U1 H1 K1 ->]].
move=> {pages}; set pages := map _ _.
have EK : keys pages = keys pages1 by rewrite /keys /pages -map_comp.
have C : closed pages.
  rewrite /closed EK all_map; apply/allP => kv _ /=.
  by apply/allP => q; rewrite mem_undup mem_filter => /andP [].
have S : all (fun kv => (kv.1 \notin kv.2) && uniq kv.2) pages.
  rewrite all_map; apply/allP => kv /(allP H1) /and3P [_ Hs _] /=.
  by rewrite undup_uniq mem_undup mem_filter negb_and Hs orbT.
exists names; split=> //.
- by rewrite EK; split.
- rewrite /valid C EK U1 andbT /=.
  rewrite -(size_keys pages) EK -has_predT (eq_has_r K1) has_predT.
  by rewrite /html_files size_filter -has_count.
Qed.

(** X11. The corpus that [crawl] returns is well formed: its keys are
    pairwise distinct and are the names of the listing that end with
    [.html]; every link is a page of the corpus other than the page that
    holds it.  It is a valid corpus as soon as the directory has a page. *)
Theorem crawl_valid directory pages :
  crawl directory = Returns pages ->
  exists names,
    [/\ listdir directory = inr names,
        uniq (keys pages) /\ keys pages =i html_files names,
        closed pages,
        all (fun kv => (kv.1 \notin kv.2) && uniq kv.2) pages
      & valid pages = has (fun f => endswith f ".html") names].
Proof. exact: crawl_wf. Qed.

(** X12. On a directory whose pages can all be read, [crawl] returns the
    corpus of the pages in the order of the listing: the links of a page
    are the distinct names that the pattern finds in its contents, other
    than its own name, that are pages of the directory. *)
Theorem crawl_spec directory names (contents : string -> string) :
  listdir directory = inr names -> uniq names ->
  (forall f, f \in html_files names ->
     read_file directory f = inr (contents f)) ->
  crawl directory
  = Returns [seq (f, [seq l <- undup (findall (contents f))
                     | (l != f) && (l \in html_files names)])
            | f <- html_files names].
Proof.
move=> El U Hr; rewrite /crawl El (crawl_read_ok [::] Hr).
have Uh : uniq (html_files names) by exact: filter_uniq.
pose first f := [seq l <- undup (findall (contents f)) | l != f].
have := for_dict_set first Uh (or_introl (erefl [::])).
rewrite for_pure => -[->].
rewrite crawl_filter_ok keys_map // -map_comp; congr Returns.
apply/eq_map => f /=; rewrite /first undup_id.
  by rewrite !filter_uniq // undup_uniq.
by congr (_, _); rewrite -filter_predI; apply: eq_filter => l /=; rewrite andbC.
Qed.

(** The second loop finds every page that it looks up. *)
Lemma crawl_no_raise directory e : crawl directory = Raises e -> False.
Proof.
rewrite /crawl; case: (listdir directory) => [//|names].
case E1: (crawl_read directory names [::]) => [//|pages1].
pose P (kv : string * pyset string) := true.
have [//|//|U1 _ _] := @crawl_read_inv P _ _ _ _ (fun _ _ _ => isT) E1.
by rewrite crawl_filter_ok.
Qed.

(** X13. [crawl] raises no exception of its own; it fails when the
    directory cannot be listed or one of its pages cannot be read, and only
    then. *)
Theorem crawl_raises directory :
  [/\ forall e, crawl directory <> Raises e,
      forall e, crawl directory = OsRaises e ->
        listdir directory = inl e
        \/ exists names f,
             [/\ listdir directory = inr names, f \in html_files names
               & read_file directory f = inl e]
    & forall names, listdir directory = inr names ->
        (exists f e, f \in html_files names /\ read_file directory f = inl e) ->
        exists e', crawl directory = OsRaises e'].
Proof.
split.
- by move=> e /crawl_no_raise.
- move=> e; rewrite /crawl; case: (listdir directory) => [e' [->]|names].
    by left.
  case E1: (crawl_read directory names [::]) => [e'|pages1].
    case=> <-; right; have [f Hf Ef] := crawl_read_error E1.
    by exists names, f.
  by case: (crawl_filter pages1).
- move=> names El [f [e [Hf Ef]]]; rewrite /crawl El.
  have [e' ->] := crawl_read_unreadable [::] Hf Ef.
  by exists e'.
Qed.

End CrawlTheory.

(** X14. [crawl] reads no file whose name does not end with [.html]: what
    the other files of the directory hold, and whether they can be read,
    does not matter. *)
Theorem crawl_reads_pages_only (os_error : Type)
    (listdir : string -> os_error + seq string)
    (read_file read_file' : string -> string -> os_error + string)
    (findall : string -> seq string) directory :
  (forall f, endswith f ".html" ->
     read_file directory f = read_file' directory f) ->
  crawl listdir read_file findall directory
  = crawl listdir read_file' findall directory.
Proof.
move=> H; rewrite /crawl; case: (listdir directory) => [//|names].
have -> // : crawl_read read_file findall directory names [::]
             = crawl_read read_file' findall directory names [::].
elim: names [::] => [//|f names IH] pages /=.
case Hf: (endswith f ".html") => /=; last exact: IH.
by rewrite -H //; case: (read_file directory f).
Qed.

(** ** [main] *)

Section Halting.

Variable page : eqType.
Implicit Types (corpus : corpus_t page) (p q : page).

Lemma iterate_pagerank_mono fuel k corpus damping_factor res :
  iterate_pagerank fuel corpus damping_factor = Some res ->
  iterate_pagerank (fuel + k) corpus damping_factor = Some res.
Proof.
rewrite /iterate_pagerank.
case: (iterate_setup corpus damping_factor) => [[[nc factor] old]|//].
exact: iterate_loop_mono.
Qed.

(** For a damping factor in [0,1) the loop of [iterate_pagerank] leaves. *)
Lemma iterate_pagerank_halts corpus damping_factor :
  uniq (keys corpus) -> (0 < size corpus)%N -> 0 <= damping_factor < 1 ->
  exists fuel r,
    iterate_pagerank fuel corpus damping_factor
    = Some (Ok (table (keys corpus) r)).
Proof.
move=> U N0 Hd; case/andP: (Hd) => d0 _.
set nc := spec_fix_dangling corpus.
set factor := (1 - damping_factor) / len corpus.
set r0 : page -> rat := fun=> 1 / len corpus.
have Unc : uniq (keys nc) by rewrite keys_fix_dangling.
have [m Hm] := geometric_small Hd
  (dist_ge0 (keys nc) r0 (update nc damping_factor factor r0)) tolerance_gt0.
have [|fuel [old [E _]]] :=
  @iterate_loop_converges _ nc damping_factor factor m r0 [::] Unc d0 _ Hm.
  by left.
exists fuel, (update nc damping_factor factor old).
by rewrite iterate_pagerank_start // -(keys_fix_dangling corpus).
Qed.

(** On a valid corpus every distribution can be drawn from. *)
Lemma next_page_valid corpus q links damping_factor r :
  valid corpus -> dict_get corpus q = Some links ->
  let pd := table (keys corpus) (spec_transition corpus links damping_factor) in
  exists q', random_choices (keys pd) (values pd) r = Ok q'.
Proof.
move=> Hv Hl pd; case/and3P: (Hv) => U _ _.
have [pd' [q' [Epd Eq' _]]] :=
  next_page_in damping_factor r Hv (dict_get_some Hl).
move: Epd; rewrite (transition_model_table damping_factor U Hl) => -[E].
by exists q'; rewrite /pd /table E.
Qed.

(** On a valid corpus [sample_pagerank] returns a weight for every page. *)
Lemma sample_pagerank_valid corpus damping_factor (n : int) rnd :
  valid corpus -> n != 0 ->
  exists r, sample_pagerank corpus damping_factor n rnd
            = Ok (table (keys corpus) r).
Proof.
move=> Hv Hn; case/and3P: (Hv) => U N0 _.
have [|PR E] := @sample_pagerank_total _ corpus damping_factor n rnd U N0 _ Hn.
  by move=> q links r Hl; exact: (next_page_valid damping_factor r Hv Hl).
have [walk [_ _ EPR _ _]] := sample_pagerank_walk U E.
by exists (fun q => (count_mem q walk)%:R / n%:~R); rewrite E EPR.
Qed.

End Halting.

Lemma DAMPING_range : 0 <= DAMPING < 1.
Proof. by vm_compute. Qed.

Lemma SAMPLES_neq0 : SAMPLES != 0.
Proof. by vm_compute. Qed.

Lemma sampling_headerE :
  sampling_header = "PageRank Results from Sampling (n = 10000)"%string.
Proof. by vm_compute. Qed.

Lemma string_leb_total : total String.leb.
Proof. by move=> x y; apply/orP; case: (String.leb_total x y) => ->; [left|right]. Qed.

Section MainTheory.

Variable os_error : Type.
Variable listdir : string -> os_error + seq string.
Variable read_file : string -> string -> os_error + string.
Variable findall : string -> seq string.
Variable format_4f : rat -> string.

Notation crawl := (crawl listdir read_file findall).
Notation main := (main listdir read_file findall format_4f).
Notation print_ranks := (print_ranks format_4f).
Notation rank_line := (rank_line format_4f).

(** The loops that print: one line for every page, no [KeyError]. *)
Lemma print_ranks_ok (ks : seq string) (r : string -> rat) pages out :
  all (fun p => p \in ks) pages ->
  print_ranks pages (table ks r) out
  = (out ++ [seq rank_line p (r p) | p <- pages], Ok tt).
Proof.
elim: pages out => [|p pages IH] out /=; first by rewrite cats0.
case/andP => Hp Ha.
by rewrite /getitem /table (dict_get_map r) Hp IH // cat_rcons.
Qed.

Lemma print_sorted (ks : seq string) (r : string -> rat) out :
  print_ranks (sorted_keys (table ks r)) (table ks r) out
  = (out ++ [seq rank_line p (r p) | p <- sort String.leb ks], Ok tt).
Proof.
rewrite /sorted_keys {1}/table keys_map print_ranks_ok //.
by apply/allP => p; rewrite mem_sort.
Qed.


(** X16. On a directory with at least one page, [main] with one argument
    and enough fuel finishes without an exception.  It prints the header
    of the sampling, one line for every page with its sampled rank, the
    header of the iteration and one line for every page with its iterated
    rank; in both blocks the pages are in ascending order. *)
Theorem main_prints rnd argv corpus :
  size argv = 2 -> crawl (nth EmptyString argv 1) = Returns corpus ->
  (0 < size corpus)%N ->
  exists fuel0 sampled iterated,
    let pages := sort String.leb (keys corpus) in
    [/\ perm_eq pages (keys corpus) /\ sorted String.leb pages,
        sample_pagerank corpus DAMPING SAMPLES rnd
        = Ok (table (keys corpus) sampled),
        iterate_pagerank fuel0 corpus DAMPING
        = Some (Ok (table (keys corpus) iterated))
      & forall fuel, (fuel0 <= fuel)%N ->
          main fuel rnd argv
          = (sampling_header :: [seq rank_line p (sampled p) | p <- pages]
             ++ iteration_header :: [seq rank_line p (iterated p) | p <- pages],
             Finished)].
Proof.
move=> Ha Ec N0.
have [names [_ [U _] C _ _]] := crawl_wf Ec.
have Hv : valid corpus by rewrite /valid U N0 C.
have [sampled Es] := sample_pagerank_valid DAMPING rnd Hv SAMPLES_neq0.
have [fuel0 [iterated Ei]] := iterate_pagerank_halts U N0 DAMPING_range.
exists fuel0, sampled, iterated; split=> //.
  by rewrite perm_sort perm_refl; split=> //; exact: sort_sorted string_leb_total _.
move=> fuel /subnKC <-.
rewrite /main Ha eqxx [~~ true]/= Ec Es print_sorted.
rewrite (iterate_pagerank_mono _ Ei) print_sorted.
by rewrite cat_rcons.
Qed.

(** X17. The only exception that [main] lets through from the estimators
    is the [IndexError] of [sample_pagerank] on a directory without pages,
    raised before anything is printed. *)
Theorem main_uncaught fuel rnd argv :
  (size argv = 2 -> crawl (nth EmptyString argv 1) = Returns [::] ->
   main fuel rnd argv = ([::], Uncaught IndexError))
  /\ (forall out e, main fuel rnd argv = (out, Uncaught e) ->
        [/\ e = IndexError, out = [::]
          & crawl (nth EmptyString argv 1) = Returns [::]]).
Proof.
split.
  move=> Ha Ec; rewrite /main Ha eqxx [~~ true]/= Ec sample_pagerank_empty.
  by rewrite (negbTE SAMPLES_neq0).
move=> out e; rewrite /main; case: ifP => // _.
case Ec: (crawl _) => [corpus|e'|e'] //; last first.
  by case: (crawl_no_raise Ec).
have [names [_ [U _] C _ _]] := crawl_wf Ec.
case N0: (0 < size corpus)%N; last first.
  have E0 : corpus = [::] by apply: size0nil; case: (size corpus) N0.
  rewrite E0 sample_pagerank_empty (negbTE SAMPLES_neq0) => -[<- <-].
  by split; rewrite -?E0.
have Hv : valid corpus by rewrite /valid U N0 C.
have [sampled ->] := sample_pagerank_valid DAMPING rnd Hv SAMPLES_neq0.
rewrite print_sorted.
case Ei: (iterate_pagerank _ _ _) => [res|//].
have [] // := @iterate_pagerank_inv _ (fun _ => True) _ _ _ _ U N0 _ _ Ei.
move=> old [_ -> _].
by rewrite /spec_new_rank print_sorted.
Qed.

End MainTheory.

(** ** The examples of the walk, of [crawl] and of [main] *)

Lemma sample_pagerank_returns_walk_witness :
  [/\ uniq (keys corpus_ab),
      sample_pagerank corpus_ab half 2 id = Ok [:: (pA, half); (pB, half)]
    & exists walk,
        [/\ size walk = size (range 2),
            all (fun q => q \in keys corpus_ab) walk,
            [:: (pA, half); (pB, half)]
            = [seq (q, (count_mem q walk)%:R / 2%:~R) | q <- keys corpus_ab],
            all (fun v => 0 <= v <= 1) (values [:: (pA, half); (pB, half)])
          & (1 : int) <= 2 ->
            \sum_(v <- values [:: (pA, half); (pB, half)]) v = 1]].
Proof.
have E : sample_pagerank corpus_ab half 2 id = Ok [:: (pA, half); (pB, half)].
  by apply/eqP; vm_compute.
split; [reflexivity | exact: E
       | apply: (@sample_pagerank_returns_walk _ corpus_ab half 2 id);
         [reflexivity | exact: E]].
Defined.

Lemma sample_pagerank_open_witness :
  [/\ uniq (keys corpus_open), (0 < size corpus_open)%N, 0 <= half < 1,
      (1 : int) <= 2
    & exists PR,
        [/\ sample_pagerank corpus_open half 2 id = Ok PR,
            keys PR = keys corpus_open,
            all (fun v => 0 <= v <= 1) (values PR)
          & \sum_(v <- values PR) v = 1]].
Proof.
split; [reflexivity | reflexivity | by vm_compute | reflexivity
       | apply: sample_pagerank_open;
         [reflexivity | reflexivity | by vm_compute | reflexivity]].
Defined.

Lemma sample_pagerank_stuck_witness :
  [/\ [/\ uniq (keys corpus_open), (1 : rat) <= 1 & (1 : int) <= 2],
      random_choice (keys corpus_open) (id 0%N) = Ok pA,
      dict_get corpus_open pA = Some [:: pC],
      set_len [:: pC] != 0%N /\ ~~ has (fun q => q \in keys corpus_open) [:: pC]
    & sample_pagerank corpus_open 1 2 id = Raise ValueError].
Proof.
split; [split; [reflexivity | by vm_compute | reflexivity]
       | reflexivity | reflexivity | split; reflexivity
       | apply: (@sample_pagerank_stuck _ corpus_open 1 2 id pA [:: pC]);
         [reflexivity | by vm_compute | reflexivity | reflexivity
         | reflexivity | reflexivity | reflexivity]].
Defined.

Lemma crawl_valid_witness :
  crawl dir_listing dir_read dir_findall "corpus" = Returns corpus_12
  /\ exists names,
       [/\ dir_listing "corpus" = inr names,
           uniq (keys corpus_12) /\ keys corpus_12 =i html_files names,
           closed corpus_12,
           all (fun kv => (kv.1 \notin kv.2) && uniq kv.2) corpus_12
         & valid corpus_12 = has (fun f => endswith f ".html") names].
Proof.
split; [reflexivity
       | apply: (@crawl_valid _ dir_listing dir_read dir_findall "corpus");
         reflexivity].
Defined.

Lemma crawl_spec_witness :
  let names := [:: "1.html"; "notes.txt"; "2.html"]%string in
  let contents (f : string) : string :=
    if f == "1.html"%string then "2.html"%string else "3.html"%string in
  [/\ dir_listing "corpus" = inr names, uniq names,
      forall f, f \in html_files names -> dir_read "corpus" f = inr (contents f)
    & crawl dir_listing dir_read dir_findall "corpus"
      = Returns [seq (f, [seq l <- undup (dir_findall (contents f))
                         | (l != f) && (l \in html_files names)])
                | f <- html_files names]].
Proof.
move=> names contents.
have Hr f : f \in html_files names -> dir_read "corpus" f = inr (contents f).
  have -> : html_files names = [:: "1.html"; "2.html"]%string by reflexivity.
  by rewrite !inE => /orP [] /eqP ->.
split; [reflexivity | reflexivity | exact: Hr
       | apply: crawl_spec; [reflexivity | reflexivity | exact: Hr]].
Defined.

Lemma crawl_reads_pages_only_witness :
  let read_all (directory f : string) : unit + string :=
    if endswith f ".html" then dir_read directory f else inr EmptyString in
  (forall f, endswith f ".html" ->
     dir_read "corpus" f = read_all "corpus"%string f)
  /\ crawl dir_listing dir_read dir_findall "corpus"
     = crawl dir_listing read_all dir_findall "corpus".
Proof.
move=> read_all.
have H f : endswith f ".html" ->
    dir_read "corpus" f = read_all "corpus"%string f.
  by rewrite /read_all => ->.
split; [exact: H | apply: crawl_reads_pages_only; exact: H].
Defined.

Lemma main_prints_witness :
  let argv := [:: "pagerank.py"; "corpus"]%string in
  [/\ size argv = 2,
      crawl dir_listing dir_read dir_findall (nth EmptyString argv 1)
      = Returns corpus_12,
      (0 < size corpus_12)%N
    & exists fuel0 sampled iterated,
        let pages := sort String.leb (keys corpus_12) in
        [/\ perm_eq pages (keys corpus_12) /\ sorted String.leb pages,
            sample_pagerank corpus_12 DAMPING SAMPLES id
            = Ok (table (keys corpus_12) sampled),
            iterate_pagerank fuel0 corpus_12 DAMPING
            = Some (Ok (table (keys corpus_12) iterated))
          & forall fuel, (fuel0 <= fuel)%N ->
              main dir_listing dir_read dir_findall dir_format fuel id argv
              = (sampling_header
                   :: [seq rank_line dir_format p (sampled p) | p <- pages]
                 ++ iteration_header
                   :: [seq rank_line dir_format p (iterated p) | p <- pages],
                 Finished)]].
Proof.
move=> argv.
split; [reflexivity | reflexivity | reflexivity
       | apply: main_prints; reflexivity].
Defined.

(** ** [iterate_pagerank] with rounded arithmetic *)

Section RoundedTheory.

Variable page : eqType.
Variable fl : rat -> rat.
Implicit Types (corpus nc : corpus_t page) (p q : page) (r : page -> rat).

(** The inner loop adds up the rounded shares, rounding every sum. *)
Lemma fl_rank_sum_ok nc r p :
  uniq (keys nc) ->
  fl_rank_sum fl nc (table (keys nc) r) p = Ok (fl_sum fl nc r p).
Proof.
move=> U; rewrite /fl_rank_sum /keys for_map.
rewrite (@for_ext _ _ _ (fun (kv : page * pyset page) (s : rat) =>
  Ok (if p \in kv.2 then fl (s + fl (r kv.1 / (set_len kv.2)%:R)) else s))).
  move=> [k l] s Hkl /=; rewrite (getitem_some (dict_get_uniq U Hkl)) /=.
  case: ifP => // Hp; rewrite /getitem (dict_get_map r) (map_f fst Hkl) /=.
  by rewrite /fl_div (negbTE (set_len_neq0 Hp)).
by rewrite for_pure.
Qed.

Lemma fl_not_converged ks r r' :
  has (fun p => fl tolerance < `|fl (r' p - r p)|) ks = ~~ fl_converged fl ks r r'.
Proof.
rewrite /fl_converged -has_predC; apply: eq_has => p /=.
by rewrite ltNge.
Qed.

(** One pass fills [PR] with the rounded update of the old ranks. *)
Lemma fl_pass_ok nc damping_factor factor r PR :
  uniq (keys nc) -> PR = [::] \/ keys PR = keys nc ->
  let new := fl_update fl nc damping_factor factor r in
  fl_pass fl nc damping_factor factor (table (keys nc) r) PR
  = Ok (table (keys nc) new, ~~ fl_converged fl (keys nc) r new).
Proof.
move=> U HPR new; rewrite /fl_pass.
rewrite (@for_ext _ _ _ (fun p st =>
  Ok (dict_set st.1 p (new p), (fl tolerance < `|fl (new p - r p)|) || st.2))).
  move=> p [PR' repeat] Hp; rewrite fl_rank_sum_ok // bind_ok; cbv beta zeta.
  rewrite /getitem dict_get_set bind_ok (dict_get_map r) Hp bind_ok.
  rewrite /new /fl_update.
  by set c := (fl tolerance < _); case: c.
rewrite (for_pair (fun p (d : dict page rat) => dict_set d p (new p))
  (fun p b => (fl tolerance < `|fl (new p - r p)|) || b)).
by rewrite foldl_dict_set // foldl_orb orbF fl_not_converged.
Qed.

Lemma fl_iterate_loopS fuel nc damping_factor factor (old_PR PR : dict page rat) :
  fl_iterate_loop fl fuel.+1 nc damping_factor factor old_PR PR
  = match fl_pass fl nc damping_factor factor old_PR PR with
    | Raise e => Some (Raise e)
    | Ok (PR', repeat) =>
        if ~~ repeat then Some (Ok PR') else
        match copy_back nc PR' old_PR with
        | Raise e => Some (Raise e)
        | Ok old_PR' =>
            fl_iterate_loop fl fuel nc damping_factor factor old_PR' PR'
        end
    end.
Proof. by []. Qed.

Lemma fl_iterate_loop_step fuel nc damping_factor factor r PR :
  uniq (keys nc) -> PR = [::] \/ keys PR = keys nc ->
  let new := fl_update fl nc damping_factor factor r in
  fl_iterate_loop fl fuel.+1 nc damping_factor factor (table (keys nc) r) PR
  = if fl_converged fl (keys nc) r new then Some (Ok (table (keys nc) new))
    else fl_iterate_loop fl fuel nc damping_factor factor
           (table (keys nc) new) (table (keys nc) new).
Proof.
move=> U HPR new; rewrite fl_iterate_loopS fl_pass_ok // -/new negbK.
case: (fl_converged _ _ _ _) => //.
by rewrite copy_back_ok // /table keys_map.
Qed.

Lemma fl_iterate_pagerank_start fuel corpus damping_factor :
  uniq (keys corpus) -> (0 < size corpus)%N ->
  fl_iterate_pagerank fl fuel corpus damping_factor
  = fl_iterate_loop fl fuel (spec_fix_dangling corpus) damping_factor
      (fl_factor fl corpus damping_factor)
      (table (keys corpus) (fun=> fl (1 / len corpus))) [::].
Proof.
move=> U N0.
have E : (len corpus == 0) = false.
  by rewrite /len pnatr_eq0; apply/negbTE; rewrite -lt0n.
rewrite /fl_iterate_pagerank /fl_iterate_setup fix_dangling_ok // bind_ok.
by rewrite /fl_div E; cbv zeta; rewrite !bind_ok init_rank_ok ?keys_fix_dangling.
Qed.

End RoundedTheory.

(** ** The rounding errors of a pass *)

Lemma tolerance_le4 : tolerance <= 4%:R.
Proof. by vm_compute. Qed.

Lemma tolerance_ge0 : 0 <= tolerance.
Proof. exact: ltW tolerance_gt0. Qed.

Lemma norm_tolerance : `|tolerance| = tolerance.
Proof. by apply: ger0_norm; exact: tolerance_ge0. Qed.

Lemma norm_tolerance_le4 : `|tolerance| <= 4%:R.
Proof. by rewrite norm_tolerance; exact: tolerance_le4. Qed.

Section RoundingErrors.

Variable page : eqType.
Variable fl : rat -> rat.
Variable eta : rat.

(** Every rounding of a value up to 4 is within [eta]. *)
Hypothesis Hfl : forall x : rat, `|x| <= 4%:R -> `|fl x - x| <= eta.

Lemma eta_ge0 : 0 <= eta.
Proof.
apply: le_trans (normr_ge0 (fl 0 - 0)) _.
by apply: Hfl; rewrite normr0.
Qed.

Lemma fl_norm_le (x : rat) : `|x| <= 4%:R -> `|fl x| <= `|x| + eta.
Proof.
move=> /Hfl H; rewrite -{1}(subrK x (fl x)) addrC.
by apply: le_trans (ler_normD _ _) _; rewrite lerD2l.
Qed.

Lemma fl_ge (x : rat) : `|x| <= 4%:R -> x - eta <= fl x.
Proof. by move/Hfl; rewrite ler_distl => /andP []. Qed.

Lemma norm_add3 (a b c : rat) : `|a + b + c| <= `|a| + `|b| + `|c|.
Proof.
by apply: le_trans (ler_normD _ _) _; rewrite lerD2r; exact: ler_normD.
Qed.

(** The rounded sum of shares is within two roundings per origin page of
    the exact sum, as long as the sums stay below 4. *)
Lemma fl_sum_err_gen (old : page -> rat) p (l : corpus_t page) (s S A B : rat) :
  `|s - S| <= A ->
  `|S| + \sum_(kv <- l | p \in kv.2) `|old kv.1 / (set_len kv.2)%:R| <= B ->
  B + (A + (size l)%:R * (eta + eta)) <= 4%:R ->
  `|foldl (fun s kv =>
             if p \in kv.2 then fl (s + fl (old kv.1 / (set_len kv.2)%:R))
             else s) s l
    - (S + \sum_(kv <- l | p \in kv.2) old kv.1 / (set_len kv.2)%:R)|
  <= A + (size l)%:R * (eta + eta).
Proof.
have e0 := eta_ge0.
have e2 : 0 <= eta + eta by rewrite addr_ge0.
elim: l s S A => [|kv l IH] s S A HA HB HC.
  by rewrite /= big_nil addr0 mul0r addr0.
have s0 : 0 <= \sum_(kv <- l | p \in kv.2) `|old kv.1 / (set_len kv.2)%:R|.
  by apply: sumr_ge0.
have A0 : 0 <= A by apply: le_trans HA.
have n0 : 0 <= (size l)%:R * (eta + eta) by rewrite mulr_ge0 ?ler0n.
move: HB HC; rewrite [foldl _ _ _]/= [size _]/= !big_cons -natr1 mulrDl mul1r.
case: ifP => Hp HB HC; last first.
  apply: le_trans (IH s S A HA HB _) _; last by rewrite lerD2l lerDl.
  by apply: le_trans HC; rewrite !lerD2l lerDl.
set x := old kv.1 / (set_len kv.2)%:R in HB *.
set Sl := \sum_(kv <- l | p \in kv.2) `|old kv.1 / (set_len kv.2)%:R| in s0 HB *.
set nl := (size l)%:R * (eta + eta) in n0 HC *.
have HSx : `|S| + `|x| <= B.
  by apply: le_trans HB; rewrite lerD2l lerDl.
have HB4 : B + (A + eta) <= 4%:R.
  apply: le_trans HC; rewrite !lerD2l.
  by apply: ler_wpDl => //; rewrite lerDl.
have Hx : `|x| <= 4%:R.
  apply: le_trans (_ : `|S| + `|x| <= _); first by rewrite lerDr.
  apply: le_trans HSx _; apply: le_trans HB4.
  by rewrite lerDl addr_ge0.
have Ht := Hfl Hx.
have Hs : `|s| <= `|S| + A.
  rewrite -{1}(subrK S s) addrC.
  by apply: le_trans (ler_normD _ _) _; rewrite lerD2l.
have Hst : `|s + fl x| <= 4%:R.
  apply: le_trans (ler_normD _ _) _.
  apply: le_trans (lerD Hs (fl_norm_le Hx)) _.
  by rewrite addrACA; apply: le_trans HB4; rewrite lerD2r.
have Hs' := Hfl Hst.
have He : `|fl (s + fl x) - (S + x)| <= A + (eta + eta).
  have -> : fl (s + fl x) - (S + x)
            = (fl (s + fl x) - (s + fl x)) + ((s - S) + (fl x - x)).
    have -> : (s - S) + (fl x - x) = (s + fl x) - (S + x).
      by rewrite addrACA -opprD.
    by rewrite addrA subrK.
  apply: le_trans (ler_normD _ _) _.
  rewrite [A + _]addrCA; apply: lerD => //.
  by apply: le_trans (ler_normD _ _) _; apply: lerD.
have -> : S + (x + \sum_(j <- l | p \in j.2) old j.1 / (set_len j.2)%:R)
          = (S + x) + \sum_(j <- l | p \in j.2) old j.1 / (set_len j.2)%:R.
  by rewrite addrA.
have -> : A + (nl + (eta + eta)) = (A + (eta + eta)) + nl.
  by rewrite -addrA [nl + _]addrC.
apply: IH => //.
  apply: le_trans HB; rewrite addrA lerD2r; exact: ler_normD.
by apply: le_trans HC; rewrite -addrA [nl + _]addrC.
Qed.

Variables (nc : corpus_t page) (d factor factor' : rat).

Hypothesis Unc : uniq (keys nc).
Hypothesis Hd : 0 <= d <= 1.
Hypothesis Hf : 0 <= factor <= 1.
Hypothesis Hnf : (size nc)%:R * factor = 1 - d.
Hypothesis Hff : `|factor' - factor| <= eta + eta.

Notation zero := (fun _ : page => 0 : rat).
Notation n2 := ((size nc)%:R * (eta + eta)).
Notation E := ((size nc)%:R * (eta + eta) + ((eta + eta) + (eta + eta))).
Notation T := (update nc d factor).
Notation F := (fl_update fl nc d factor').
Notation share r p := (\sum_(kv <- nc | p \in kv.2) r kv.1 / (set_len kv.2)%:R).

Lemma dist_zero (r : page -> rat) :
  dist (keys nc) zero r = \sum_(kv <- nc) `|r kv.1|.
Proof.
by rewrite /dist /keys big_map; apply: eq_bigr => kv _; rewrite subr0.
Qed.

Lemma dist_sym (ks : seq page) (r r' : page -> rat) : dist ks r r' = dist ks r' r.
Proof. by rewrite /dist; apply: eq_bigr => p _; rewrite distrC. Qed.

Lemma share_norm (r : page -> rat) p :
  \sum_(kv <- nc | p \in kv.2) `|r kv.1 / (set_len kv.2)%:R|
  <= dist (keys nc) zero r.
Proof.
rewrite dist_zero [X in X <= _]big_mkcond /=.
apply: ler_sum => kv _; case: ifP => // Hp.
rewrite normrM normfV normr_nat; apply: div_nat_le => //.
by rewrite lt0n -(@pnatr_eq0 rat); exact: set_len_neq0 Hp.
Qed.

Lemma share_le_norm (r : page -> rat) p : `|share r p| <= dist (keys nc) zero r.
Proof. by apply: le_trans (ler_norm_sum _ _ _) _; exact: share_norm. Qed.

Lemma fl_sum_err (r : page -> rat) p :
  dist (keys nc) zero r + n2 <= 4%:R ->
  `|fl_sum fl nc r p - share r p| <= n2.
Proof.
move=> H4.
have := @fl_sum_err_gen r p nc 0 0 0 (dist (keys nc) zero r).
rewrite subrr normr0 !add0r => H; apply: H => //.
exact: share_norm.
Qed.

(** The rounded update of a page is within [E] of the exact one. *)
Lemma fl_update_err (r : page -> rat) p :
  dist (keys nc) zero r + E <= 3%:R -> `|F r p - T r p| <= E.
Proof.
move=> H3; have e0 := eta_ge0.
have e2 : 0 <= eta + eta by rewrite addr_ge0.
have n0 : 0 <= n2 by rewrite mulr_ge0 ?ler0n.
have D0 : 0 <= dist (keys nc) zero r by exact: dist_ge0.
case/andP: Hd => d0 d1; case/andP: Hf => f0 f1.
set D := dist (keys nc) zero r in H3 D0 *.
have H34 : (3%:R : rat) <= 4%:R by rewrite ler_nat.
have HDn : D + n2 <= 3%:R.
  by apply: le_trans H3; rewrite lerD2l lerDl addr_ge0.
have HDn4 : D + n2 <= 4%:R by apply: le_trans HDn _.
have Hs := fl_sum_err p HDn4.
set s := fl_sum fl nc r p in Hs *.
set S := share r p in Hs *.
have HS : `|S| <= D by exact: share_le_norm.
have Hsn : `|s| <= D + n2.
  rewrite -(subrK S s) addrC.
  by apply: le_trans (ler_normD _ _) _; apply: lerD.
have Hds : `|d * s| <= D + n2.
  rewrite normrM (ger0_norm d0); apply: le_trans Hsn.
  by rewrite -[X in _ <= X]mul1r; apply: ler_wpM2r.
have Hv := Hfl (le_trans Hds HDn4).
set v := fl (d * s) in Hv *.
have Hvn : `|v| <= D + n2 + eta.
  rewrite -(subrK (d * s) v) addrC.
  by apply: le_trans (ler_normD _ _) _; apply: lerD.
have Hfn : `|factor'| <= 1 + (eta + eta).
  rewrite -(subrK factor factor') addrC.
  apply: le_trans (ler_normD _ _) _; apply: lerD => //.
  by rewrite ger0_norm.
have Hu4 : `|factor' + v| <= 4%:R.
  apply: le_trans (ler_normD _ _) _.
  apply: le_trans (lerD Hfn Hvn) _.
  have -> : (4%:R : rat) = 1 + 3%:R by rewrite -(natrD _ 1 3).
  rewrite -addrA lerD2l addrC.
  apply: le_trans H3; rewrite -!addrA !lerD2l.
  by rewrite lerDl.
have Hu := Hfl Hu4.
rewrite /fl_update /update -/s -/S -/v.
have -> : fl (factor' + v) - (factor + d * S)
          = (fl (factor' + v) - (factor' + v))
            + ((factor' - factor) + ((v - d * s) + d * (s - S))).
  have -> : (v - d * s) + d * (s - S) = v - d * S.
    by rewrite mulrBr addrA subrK.
  have -> : (factor' - factor) + (v - d * S) = (factor' + v) - (factor + d * S).
    by rewrite addrACA -opprD.
  by rewrite addrA subrK.
apply: le_trans (ler_normD _ _) _.
have -> : E = eta + ((eta + eta) + (eta + n2)).
  by rewrite addrC -!addrA; congr (_ + _); rewrite addrCA.
apply: lerD => //; apply: le_trans (ler_normD _ _) _; apply: lerD => //.
apply: le_trans (ler_normD _ _) _; apply: lerD => //.
rewrite normrM (ger0_norm d0); apply: le_trans Hs.
by rewrite -[X in _ <= X]mul1r; apply: ler_wpM2r.
Qed.

Lemma dist_F_T (r : page -> rat) :
  dist (keys nc) zero r + E <= 3%:R ->
  dist (keys nc) (T r) (F r) <= (size nc)%:R * E.
Proof.
move=> H3.
have <- : (size (keys nc))%:R * E = (size nc)%:R * E by rewrite size_keys.
by apply: dist_le_size; apply/allP => p _; apply: fl_update_err.
Qed.

Lemma update_zero p : T zero p = factor.
Proof.
rewrite /update big1 ?mulr0 ?addr0 // => kv _.
by rewrite mul0r.
Qed.

(** The size of the exact update. *)
Lemma norm_T (r : page -> rat) :
  dist (keys nc) zero (T r) <= (1 - d) + d * dist (keys nc) zero r.
Proof.
case/andP: Hd => d0 d1; case/andP: Hf => f0 f1.
apply: le_trans (dist_triangle _ _ (T zero) _) _; apply: lerD.
  rewrite -Hnf -(size_keys nc); apply: dist_le_size.
  by apply/allP => p _; rewrite update_zero subr0 ger0_norm.
exact: update_contract.
Qed.

(** The size of the rounded update. *)
Lemma norm_F (r : page -> rat) :
  dist (keys nc) zero r + E <= 3%:R ->
  dist (keys nc) zero (F r)
  <= (1 - d) + d * dist (keys nc) zero r + (size nc)%:R * E.
Proof.
move=> H3; apply: le_trans (dist_triangle _ _ (T r) _) _; apply: lerD.
  exact: norm_T.
exact: dist_F_T.
Qed.

(** The rounded update contracts, up to the rounding errors. *)
Lemma fl_update_contract (r r' : page -> rat) :
  dist (keys nc) zero r + E <= 3%:R -> dist (keys nc) zero r' + E <= 3%:R ->
  dist (keys nc) (F r) (F r')
  <= d * dist (keys nc) r r' + ((size nc)%:R * E + (size nc)%:R * E).
Proof.
move=> H3 H3'; case/andP: Hd => d0 d1.
have H1 : dist (keys nc) (F r) (T r) <= (size nc)%:R * E.
  by rewrite dist_sym; exact: dist_F_T.
have H2 : dist (keys nc) (T r) (F r')
          <= d * dist (keys nc) r r' + (size nc)%:R * E.
  apply: le_trans (dist_triangle _ _ (T r') _) _.
  by apply: lerD; [exact: update_contract | exact: dist_F_T].
apply: le_trans (dist_triangle _ _ (T r) _) _.
by rewrite [X in _ <= X]addrCA; exact: lerD.
Qed.

(** When the pages together moved by less than the tolerance minus two
    roundings, the test of line 150 fails for every page. *)
Lemma fl_converged_dist (r r' : page -> rat) :
  dist (keys nc) r r' + (eta + eta) <= tolerance ->
  fl_converged fl (keys nc) r r'.
Proof.
move=> H; have e0 := eta_ge0.
have t4 := tolerance_le4.
have Hd4 : dist (keys nc) r r' <= 4%:R.
  apply: le_trans t4; apply: le_trans H.
  by rewrite lerDl addr_ge0.
have Ht : tolerance - eta <= fl tolerance := fl_ge norm_tolerance_le4.
apply/allP => p Hp; cbv beta.
have Ha : `|r' p - r p| <= dist (keys nc) r r'.
  exact: (allP (all_le_dist (lexx _)) p Hp).
apply: le_trans (fl_norm_le (le_trans Ha Hd4)) _.
apply: le_trans Ht; rewrite lerBrDr -addrA.
by apply: le_trans H; rewrite lerD2r.
Qed.

(** The fixed point of the error recurrence, the room that the margin
    leaves, and the invariant of the loop. *)
Variable G : rat.

Hypothesis HG :
  G = d * G + ((size nc)%:R * E + (size nc)%:R * E).
Hypothesis HG3 : 1 + G + E <= 3%:R.

Lemma nE_ge0 : 0 <= (size nc)%:R * E.
Proof.
have e0 := eta_ge0.
by rewrite mulr_ge0 ?ler0n // !addr_ge0 // mulr_ge0 ?ler0n // addr_ge0.
Qed.

Lemma inv_mag (r : page -> rat) :
  dist (keys nc) zero r <= 1 + G -> dist (keys nc) zero r + E <= 3%:R.
Proof. by move=> H; apply: le_trans HG3; rewrite lerD2r. Qed.

Lemma inv_step (r : page -> rat) :
  dist (keys nc) zero r <= 1 + G -> dist (keys nc) zero (F r) <= 1 + G.
Proof.
move=> H; case/andP: Hd => d0 d1.
apply: le_trans (norm_F (inv_mag H)) _.
rewrite [in X in _ <= X]HG.
have Hm : d * dist (keys nc) zero r <= d * (1 + G) by exact: ler_wpM2l.
apply: (@le_trans _ _ ((1 - d) + d * (1 + G) + (size nc)%:R * E)).
  by rewrite lerD2r lerD2l.
have -> : (1 - d) + d * (1 + G) = 1 + d * G.
  by rewrite mulrDr mulr1 addrA subrK.
by rewrite -addrA !lerD2l lerDl; exact: nE_ge0.
Qed.

(** Once the distance between the old and the new ranks, above the fixed
    point of the errors and shrunk [m] times by the damping factor, fits
    in the room that the margin leaves, the loop returns. *)
Lemma fl_iterate_loop_converges m (r : page -> rat) PR :
  dist (keys nc) zero r <= 1 + G ->
  PR = [::] \/ keys PR = keys nc ->
  (dist (keys nc) r (F r) - G) * d ^+ m <= tolerance - (eta + eta) - G ->
  exists fuel old,
    fl_iterate_loop fl fuel nc d factor' (table (keys nc) r) PR
    = Some (Ok (table (keys nc) (F old)))
    /\ fl_converged fl (keys nc) old (F old).
Proof.
case/andP: Hd => d0 d1.
elim: m r PR => [|m IH] r PR Hr HPR Hm.
  have C : fl_converged fl (keys nc) r (F r).
    apply: fl_converged_dist; move: Hm; rewrite expr0 mulr1.
    by rewrite lerD2r lerBrDr.
  by exists 1%N, r; rewrite fl_iterate_loop_step // C.
case C: (fl_converged fl (keys nc) r (F r)).
  by exists 1%N, r; rewrite fl_iterate_loop_step // C.
have Hr1 := inv_step Hr.
have [||fuel [old [Eo Hc]]] := IH (F r) (table (keys nc) (F r)) Hr1.
- by right; rewrite /table keys_map.
- apply: le_trans Hm; rewrite exprS mulrA; apply: ler_wpM2r.
    exact: exprn_ge0.
  have HGd : G - d * G = (size nc)%:R * E + (size nc)%:R * E.
    by rewrite {1}HG addrAC subrr add0r.
  rewrite mulrC mulrBr lerBrDr -addrA [- G + _]addrC -opprB HGd lerBlDr.
  exact: (fl_update_contract (inv_mag Hr) (inv_mag Hr1)).
- by exists fuel.+1, old; rewrite fl_iterate_loop_step // C.
Qed.

End RoundingErrors.

Lemma tolerance_le1 : tolerance <= 1.
Proof. by vm_compute. Qed.

Lemma double (x : rat) : x + x = 2%:R * x.
Proof. by rewrite mulr_natl mulr2n. Qed.

Lemma pass_errorE (n : nat) (eta : rat) :
  pass_error n eta = n%:R * (eta + eta) + ((eta + eta) + (eta + eta)).
Proof.
rewrite /pass_error natrD natrM mulrDl !double.
by rewrite mulrCA mulrA -[4%:R]/((2 * 2)%:R) natrM mulrA.
Qed.

Section Termination.

Variable page : eqType.
Variable fl : rat -> rat.
Variable eta : rat.
Hypothesis Hfl : forall x : rat, `|x| <= 4%:R -> `|fl x - x| <= eta.

Variables (corpus : corpus_t page) (d : rat).
Hypothesis U : uniq (keys corpus).
Hypothesis N0 : (0 < size corpus)%N.
Hypothesis Hd : 0 <= d < 1.

Notation n := (size corpus).
Notation nc := (spec_fix_dangling corpus).
Notation factor := ((1 - d) / len corpus).
Notation E := (pass_error n eta).
Notation G := (settle n d eta).

Lemma len_gt0 : 0 < len corpus.
Proof. by rewrite /len ltr0n. Qed.

Lemma size_fix_dangling : size nc = n.
Proof. by rewrite /spec_fix_dangling size_map. Qed.

Lemma factor_range : 0 <= factor <= 1.
Proof.
case/andP: Hd => d0 d1; have c0 : 0 <= 1 - d by rewrite subr_ge0 ltW.
rewrite divr_ge0 ?ler0n //=.
apply: le_trans (div_nat_le c0 N0) _.
by rewrite gerDl oppr_le0.
Qed.

Lemma factor_sum : (size nc)%:R * factor = 1 - d.
Proof.
rewrite size_fix_dangling mulrC divfK //.
by rewrite /len pnatr_eq0 -lt0n.
Qed.

Lemma pass_error_ge0 : 0 <= E.
Proof. by rewrite /pass_error mulr_ge0 ?ler0n // (eta_ge0 Hfl). Qed.

Lemma eta_le_error : eta <= E.
Proof.
rewrite pass_errorE; have e0 := eta_ge0 Hfl.
apply: ler_wpDl; first by rewrite mulr_ge0 ?ler0n // addr_ge0.
by apply: ler_wpDl; rewrite ?addr_ge0 // lerDl.
Qed.

Lemma error_le_settle : n%:R * E <= G.
Proof.
case/andP: Hd => d0 d1; have c0 : 0 < 1 - d by rewrite subr_gt0.
have H0 : 0 <= n%:R * E by rewrite mulr_ge0 ?ler0n // pass_error_ge0.
rewrite /settle ler_pdivlMr // -[2%:R * _ * _]mulrA -double.
apply: (@le_trans _ _ (n%:R * E)); last by rewrite lerDl.
by rewrite -[X in _ <= X]mulr1; apply: ler_wpM2l => //; rewrite gerDl oppr_le0.
Qed.

Lemma settle_fix :
  G = d * G
      + ((size nc)%:R
           * ((size nc)%:R * (eta + eta) + ((eta + eta) + (eta + eta)))
         + (size nc)%:R
           * ((size nc)%:R * (eta + eta) + ((eta + eta) + (eta + eta)))).
Proof.
case/andP: Hd => d0 d1; have c0 : 1 - d != 0.
  by rewrite subr_eq0 eq_sym; case: ltgtP d1.
rewrite !size_fix_dangling -pass_errorE double mulrA.
have -> : 2%:R * n%:R * E = G * (1 - d) by rewrite /settle divfK.
by rewrite mulrBr mulr1 [G * d]mulrC addrC subrK.
Qed.

Hypothesis HG1 : G <= 1.

Lemma error_le1 : E <= 1.
Proof.
apply: le_trans HG1; apply: le_trans error_le_settle.
by apply: ler_peMl; [exact: pass_error_ge0 | rewrite ler1n].
Qed.

Lemma eta_le1 : eta <= 1.
Proof. exact: le_trans eta_le_error error_le1. Qed.

Lemma magnitudes :
  1 + G + ((size nc)%:R * (eta + eta) + ((eta + eta) + (eta + eta))) <= 3%:R.
Proof.
rewrite size_fix_dangling -pass_errorE -[3%:R]/((1 + 1 + 1)%:R) !natrD.
by apply: lerD; [apply: lerD | exact: error_le1].
Qed.

(** The rounded constant factor is within two roundings of the exact
    one. *)
Lemma fl_factor_err : `|fl_factor fl corpus d - factor| <= eta + eta.
Proof.
case/andP: Hd => d0 d1; have e0 := eta_ge0 Hfl.
have c0 : 0 <= 1 - d by rewrite subr_ge0 ltW.
have c1 : 1 - d <= 1 by rewrite gerDl oppr_le0.
have L0 := len_gt0.
have Hc : `|1 - d| <= 4%:R.
  by rewrite ger0_norm //; apply: le_trans c1 _; rewrite ler1n.
have Ha := Hfl Hc.
set a := fl (1 - d) in Ha *.
have Han : `|a| <= 1 + eta.
  apply: le_trans (fl_norm_le Hfl Hc) _.
  by rewrite lerD2r ger0_norm.
have Hdiv (x : rat) : `|x / len corpus| <= `|x|.
  rewrite normrM normfV (gtr0_norm L0); apply: div_nat_le => //.
have Hq : `|a / len corpus| <= 4%:R.
  apply: le_trans (Hdiv a) _; apply: le_trans Han _.
  rewrite -[4%:R]/((1 + 3)%:R) natrD; apply: lerD => //.
  by apply: le_trans eta_le1 _; rewrite ler1n.
rewrite /fl_factor -/a.
have -> : fl (a / len corpus) - factor
          = (fl (a / len corpus) - a / len corpus)
            + (a - (1 - d)) / len corpus.
  by rewrite [(a - _) / _]mulrBl addrA subrK.
apply: le_trans (ler_normD _ _) _; apply: lerD; first exact: Hfl.
exact: le_trans (Hdiv _) Ha.
Qed.

(** The initial ranks satisfy the invariant of the loop. *)
Lemma start_inv :
  dist (keys nc) (fun=> 0) (fun=> fl (1 / len corpus)) <= 1 + G.
Proof.
have e0 := eta_ge0 Hfl; have L0 := len_gt0.
have H1 : `|1 / len corpus| <= 4%:R.
  rewrite ger0_norm ?divr_ge0 ?ler0n //.
  apply: le_trans (div_nat_le ler01 N0) _.
  by rewrite ler1n.
have Hs : `|fl (1 / len corpus)| <= 1 / len corpus + eta.
  apply: le_trans (fl_norm_le Hfl H1) _.
  by rewrite ger0_norm // divr_ge0 ?ler0n.
apply: le_trans (@dist_le_size _ _ _ _ (1 / len corpus + eta) _) _.
  by apply/allP => p _; rewrite subr0.
have Ln0 : (size corpus)%:R != 0 :> rat by rewrite pnatr_eq0 -lt0n.
rewrite size_keys size_fix_dangling mulrDr /len mulrCA divff // mulr1.
rewrite lerD2l; apply: le_trans error_le_settle.
by apply: ler_wpM2l; [rewrite ler0n | exact: eta_le_error].
Qed.

End Termination.


(** With the identity for the rounding these are the programs in exact
    arithmetic. *)
Lemma fl_iterate_pagerank_exact (page : eqType) fuel (corpus : corpus_t page)
    damping_factor :
  fl_iterate_pagerank id fuel corpus damping_factor
  = iterate_pagerank fuel corpus damping_factor.
Proof.
rewrite /fl_iterate_pagerank /iterate_pagerank.
have -> : fl_iterate_setup id corpus damping_factor
          = iterate_setup corpus damping_factor by [].
case: (iterate_setup corpus damping_factor) => [[[nc factor] old_PR]|//].
elim: fuel old_PR ([::] : dict page rat) => [//|fuel IH] old_PR PR.
rewrite fl_iterate_loopS iterate_loopS.
have -> : fl_pass id nc damping_factor factor old_PR PR
          = pass nc damping_factor factor old_PR PR by [].
case: (pass _ _ _ _ _) => [[PR' repeat]|//].
by case: (~~ repeat).
Qed.

(** Rounding down to a multiple of [1/g] errs by at most [1/g]. *)
Lemma round_down_err (g : nat) (x : rat) :
  (0 < g)%N -> `|round_down g x - x| <= 1 / g%:R.
Proof.
move=> g0; have G0 : (0 : rat) < g%:R by rewrite ltr0n.
have Gn0 : g%:R != 0 :> rat by rewrite pnatr_eq0 -lt0n.
rewrite /round_down distrC.
have /andP [Hlo Hhi] := floor_itv (x * g%:R).
have H0 : 0 <= x - (Num.floor (x * g%:R))%:~R / g%:R.
  by rewrite subr_ge0 ler_pdivrMr.
rewrite (ger0_norm H0) lerBlDr -mulrDl ler_pdivlMr // addrC.
by apply: ltW; move: Hhi; rewrite intrD.
Qed.

(** ** The layout of the link sets does not matter *)

Section Layout.

Variable page : eqType.
Variable fl : rat -> rat.
Implicit Types (c nc : corpus_t page) (p q : page).

Lemma same_corpus_keys c c' : same_corpus c c' -> keys c = keys c'.
Proof.
elim: c c' => [|kv c IH] [|kv' c'] //= [E _ /IH ->].
by rewrite E.
Qed.

Lemma same_corpus_size c c' : same_corpus c c' -> size c = size c'.
Proof. by move/same_corpus_keys/(congr1 size); rewrite !size_keys. Qed.

Lemma same_corpus_get c c' q :
  same_corpus c c' ->
  match dict_get c q, dict_get c' q with
  | Some l, Some l' => l =i l'
  | None, None => True
  | _, _ => False
  end.
Proof.
elim: c c' => [|[k l] c IH] [|[k' l'] c'] //= [E El /IH H].
by rewrite -E; case: eqP.
Qed.

Lemma set_len_eqi (l l' : pyset page) : l =i l' -> set_len l = set_len l'.
Proof.
move=> E; rewrite /set_len; apply/eqP.
rewrite eq_sym -(@uniq_size_uniq _ (undup l)) ?undup_uniq //.
by move=> x; rewrite !mem_undup.
Qed.

Lemma same_corpus_fix c c' :
  same_corpus c c' -> same_corpus (spec_fix_dangling c) (spec_fix_dangling c').
Proof.
move=> H; rewrite /spec_fix_dangling (same_corpus_keys H).
move: (keys c') => K.
elim: c c' H => [|[k l] c IH] [|[k' l'] c'] //= [E El /IH H].
by split=> //; rewrite (set_len_eqi El); case: ifP.
Qed.

(** The inner loop looks at the sets through [in] and [len] only. *)
Lemma fl_rank_sum_same nc nc' (old_PR : dict page rat) p :
  same_corpus nc nc' ->
  fl_rank_sum fl nc old_PR p = fl_rank_sum fl nc' old_PR p.
Proof.
move=> H; rewrite /fl_rank_sum -(same_corpus_keys H).
apply: for_ext => q s _.
have := same_corpus_get q H; rewrite /getitem.
case: (dict_get nc q) => [l|]; case: (dict_get nc' q) => [l'|] //= El.
by rewrite El (set_len_eqi El).
Qed.

Lemma fl_pass_same nc nc' damping_factor factor (old_PR PR : dict page rat) :
  same_corpus nc nc' ->
  fl_pass fl nc damping_factor factor old_PR PR
  = fl_pass fl nc' damping_factor factor old_PR PR.
Proof.
move=> H; rewrite /fl_pass -(same_corpus_keys H).
by apply: for_ext => p [PR' repeat] _; rewrite (fl_rank_sum_same _ _ H).
Qed.

Lemma copy_back_same nc nc' (PR old_PR : dict page rat) :
  same_corpus nc nc' -> copy_back nc PR old_PR = copy_back nc' PR old_PR.
Proof. by move=> H; rewrite /copy_back (same_corpus_keys H). Qed.

Lemma fl_iterate_loop_same fuel nc nc' damping_factor factor
    (old_PR PR : dict page rat) :
  same_corpus nc nc' ->
  fl_iterate_loop fl fuel nc damping_factor factor old_PR PR
  = fl_iterate_loop fl fuel nc' damping_factor factor old_PR PR.
Proof.
move=> H; elim: fuel old_PR PR => [//|fuel IH] old_PR PR.
rewrite !fl_iterate_loopS (fl_pass_same _ _ _ _ H).
case: (fl_pass _ _ _ _ _ _) => [[PR' repeat]|//].
case: (~~ repeat) => //; rewrite (copy_back_same _ _ H).
by case: (copy_back _ _ _) => [old'|//].
Qed.

Lemma fl_iterate_pagerank_same fuel c c' damping_factor :
  uniq (keys c) -> same_corpus c c' ->
  fl_iterate_pagerank fl fuel c damping_factor
  = fl_iterate_pagerank fl fuel c' damping_factor.
Proof.
move=> U H; have U' : uniq (keys c') by rewrite -(same_corpus_keys H).
have Hn := same_corpus_fix H.
rewrite /fl_iterate_pagerank /fl_iterate_setup !fix_dangling_ok // !bind_ok.
rewrite /len -(same_corpus_size H); cbv zeta.
case: (fl_div fl 1 _) => [v|//]; rewrite !bind_ok.
rewrite /init_rank -(same_corpus_keys Hn).
case: (for_ _ _ _) => [old|//]; rewrite !bind_ok.
case: (fl_div fl _ _) => [factor|//]; rewrite !bind_ok.
exact: fl_iterate_loop_same.
Qed.

End Layout.

(** C8. [iterate_pagerank] is deterministic: it draws no random number,
    and its result does not depend on the layout of the link sets, which
    it reads through [in] and [len] only.  Two calls on the same pages in
    the same order with, page by page, equal sets of links, and the same
    damping factor, give the same result, in exact arithmetic and with
    every rounding of the operations. *)
Theorem iterate_pagerank_deterministic (page : eqType) (fl : rat -> rat) fuel
    (corpus corpus' : corpus_t page) damping_factor :
  uniq (keys corpus) -> same_corpus corpus corpus' ->
  fl_iterate_pagerank fl fuel corpus damping_factor
  = fl_iterate_pagerank fl fuel corpus' damping_factor
  /\ iterate_pagerank fuel corpus damping_factor
     = iterate_pagerank fuel corpus' damping_factor.
Proof.
move=> U H; split; first exact: fl_iterate_pagerank_same.
by rewrite -!fl_iterate_pagerank_exact; exact: fl_iterate_pagerank_same.
Qed.

Lemma same_corpus_abc : same_corpus corpus_abc corpus_acb.
Proof.
by split=> // x; rewrite !inE orbC orbA orbb.
Qed.

Lemma inv_natM (a b : nat) : (1 / a%:R) * (1 / b%:R) = 1 / (a * b)%:R :> rat.
Proof. by rewrite natrM !div1r invfM. Qed.

Lemma round_down_grid (x : rat) :
  `|x| <= 4%:R -> `|round_down grid x - x| <= grid_error.
Proof.
move=> _; have -> : grid_error = 1 / grid%:R := inv_natM 1000 1000.
by apply: round_down_err; rewrite /grid muln_gt0.
Qed.

(** The margin, when a rounding errs by at most the square of the
    tolerance. *)
Lemma margin_square (n : nat) (d t : rat) :
  0 < t -> (2%:R * n%:R * (2 * n + 4)%:R / (1 - d) + 2%:R) * t < 1 ->
  settle n d (t * t) + 2%:R * (t * t) < t.
Proof.
move=> t0 H.
have -> : settle n d (t * t)
          = 2%:R * n%:R * (2 * n + 4)%:R / (1 - d) * (t * t).
  by rewrite /settle /pass_error !mulrA [_ / _ * _]mulrAC [_ / _ * _]mulrAC.
by rewrite -mulrDl mulrA -[X in _ < X]mul1r ltr_pM2r.
Qed.

Lemma margin_abc :
  settle (size corpus_abc) half grid_error + 2%:R * grid_error < tolerance.
Proof. by apply: margin_square; [exact: tolerance_gt0 | vm_compute]. Qed.


Lemma iterate_pagerank_deterministic_witness :
  [/\ uniq (keys corpus_abc), same_corpus corpus_abc corpus_acb
    & fl_iterate_pagerank (round_down grid) 5 corpus_abc half
      = fl_iterate_pagerank (round_down grid) 5 corpus_acb half
      /\ iterate_pagerank 5 corpus_abc half = iterate_pagerank 5 corpus_acb half].
Proof.
split; [reflexivity | exact: same_corpus_abc
       | apply: iterate_pagerank_deterministic;
         [reflexivity | exact: same_corpus_abc]].
Defined.
